(** * vis-network: curved-edge geometry and the selection/hover handler

    A shallow embedding of
    - the Bezier edge base class ([_findBorderPositionBezier],
      [_getDistanceToBezierEdge]) and [getControlPoints],
    - [Ellipse.distanceToBorder], and
    - [SelectionHandler] (hit testing, selection, hover reconciliation,
      commit-and-emit).

    Numbers.  JavaScript numbers are modelled by the mathematical reals
    [R]: no rounding, no NaN, no infinities.  [Math.sqrt], [Math.sin],
    [Math.cos], [Math.abs] and [Math.pow (_, 2)] are the functions of the
    standard library of reals; [Math.atan2] is defined from [atan].

    Objects.  A reference to a Node or an Edge is modelled by the id under
    which the body stores it ([body.nodes], [body.edges]); the flags of an
    object live in that table, so a write through any reference is seen
    through every other one.  The model covers the states in which every
    object the handler can reach is stored in the body under its own id.

    Loops and recursion that the source does not bound structurally take
    a fuel argument; the properties show that the fuel given suffices. *)

From Stdlib Require Import Reals Lra Lia ZArith.

From stdpp Require Import gmap strings list fin_maps pretty.

(** ** Geometry *)

Module Geometry.

Local Open Scope R_scope.

Record Point := mkPoint { px : R; py : R }.

(** [PointT]: a point together with the curve parameter it was taken at. *)
Record PointT := mkPointT { ptx : R; pty : R; ptt : R }.

(** [Math.pow(v, 2)]. *)
Definition Math_pow2 (v : R) : R := v ^ 2.

(** [Math.atan2(y, x)]: the angle of the vector (x, y), in (-PI, PI]. *)
Definition Math_atan2 (y x : R) : R :=
  if Rlt_dec 0 x then atan (y / x)
  else if Rlt_dec x 0 then
    if Rle_dec 0 y then atan (y / x) + PI else atan (y / x) - PI
  else if Rlt_dec 0 y then PI / 2
  else if Rlt_dec y 0 then - PI / 2
  else 0.

(** The comparisons of the source are decided on the reals. *)
#[global] Instance Rlt_decision (a b : R) : Decision (a < b) := Rlt_dec a b.

#[global] Instance Rle_decision (a b : R) : Decision (a <= b) := Rle_dec a b.

(** *** getControlPoints (scaledinnovation splines) *)

Definition getControlPoints (x0 y0 x1 y1 x2 y2 t : R) : R * R * R * R :=
  let d01 := sqrt (Math_pow2 (x1 - x0) + Math_pow2 (y1 - y0)) in
  let d12 := sqrt (Math_pow2 (x2 - x1) + Math_pow2 (y2 - y1)) in
  let fa := (t * d01) / (d01 + d12) in
  let fb := (t * d12) / (d01 + d12) in
  let p1x := x1 - fa * (x2 - x0) in
  let p1y := y1 - fa * (y2 - y0) in
  let p2x := x1 + fb * (x2 - x0) in
  let p2y := y1 + fb * (y2 - y0) in
  (p1x, p1y, p2x, p2y).

(** The tension the edge renderer passes to [getControlPoints]. *)
Definition tension : R := 0.5.

(** The words of the specification: chord length, the two scaling factors,
    and vector arithmetic on points. *)
Definition chord (p q : Point) : R :=
  sqrt ((px q - px p) * (px q - px p) + (py q - py p) * (py q - py p)).

Definition fa_spec (t : R) (from to eventual : Point) : R :=
  t * chord from to / (chord from to + chord to eventual).

Definition fb_spec (t : R) (from to eventual : Point) : R :=
  t * chord to eventual / (chord from to + chord to eventual).

Definition vsub (p q : Point) : Point := mkPoint (px p - px q) (py p - py q).

Definition vadd (p q : Point) : Point := mkPoint (px p + px q) (py p + py q).

Definition vscale (k : R) (p : Point) : Point := mkPoint (k * px p) (k * py p).

(** [controlPoints from to eventual]: the call made by [_bezierCurve]. *)
Definition controlPoints (from to eventual : Point) : Point * Point :=
  let '(p1x, p1y, p2x, p2y) :=
    getControlPoints (px from) (py from) (px to) (py to)
                     (px eventual) (py eventual) tension in
  (mkPoint p1x p1y, mkPoint p2x p2y).

(** [r] lies on the line through [p] and [q] (zero cross product). *)
Definition colinear (p q r : Point) : Prop :=
  (px q - px p) * (py r - py p) - (py q - py p) * (px r - px p) = 0.

(** *** Ellipse.distanceToBorder *)

Section Ellipse.

(** The rendering context and the label measurements of [NodeBase]. *)
Variable Ctx : Type.

Record Dimensions := mkDimensions { dim_width : R; dim_height : R }.

Record Ellipse := mkEllipse {
  width : R;
  height : R;
  radius : R;
  selected : bool;
  hover : bool;
}.

Variable needsRefresh : Ellipse -> bool -> bool -> bool.

Variable getDimensionsFromLabel : Ellipse -> Ctx -> bool -> bool -> Dimensions.

(** [resize(ctx, selected = this.selected, hover = this.hover)]. *)
Definition resize (this : Ellipse) (ctx : Ctx) : Ellipse :=
  if needsRefresh this (selected this) (hover this) then
    let dimensions :=
      getDimensionsFromLabel this ctx (selected this) (hover this) in
    let height' := dim_height dimensions * 2 in
    let width' := dim_width dimensions + dim_height dimensions in
    {| width := width'; height := height'; radius := 0.5 * width';
       selected := selected this; hover := hover this |}
  else this.

(** [distanceToBorder(ctx, angle)]: the value returned and the node after
    the optional resize. *)
Definition distanceToBorder (this : Ellipse) (ctx : option Ctx) (angle : R)
  : R * Ellipse :=
  let this := match ctx with Some c => resize this c | None => this end in
  let a := width this * 0.5 in
  let b := height this * 0.5 in
  let w := sin angle * a in
  let h := cos angle * b in
  ((a * b) / sqrt (w * w + h * h), this).

(** The width and the height [distanceToBorder] works with: those of the
    node when no context is given or the node needs no refresh; otherwise
    those [resize] sets from the dimensions of the label, the width plus
    the height of the label and twice the height of the label. *)
Definition usedSize (this : Ellipse) (ctx : option Ctx) : R * R :=
  match ctx with
  | Some c =>
      if needsRefresh this (selected this) (hover this) then
        let dimensions :=
          getDimensionsFromLabel this c (selected this) (hover this) in
        (dim_width dimensions + dim_height dimensions, 2 * dim_height dimensions)
      else (width this, height this)
  | None => (width this, height this)
  end.

(** The outline of the ellipse of semi-axes [a] and [b] centred at the
    origin. *)
Definition on_ellipse (a b x y : R) : Prop :=
  (x / a) * (x / a) + (y / b) * (y / b) = 1.

End Ellipse.

(** *** BezierEdgeBase._findBorderPositionBezier *)

Section FindBorderPosition.

(** The rendering context and the type of the via point(s). *)
Variables (Ctx Via : Type).

(** [VNode]: the part of a node the edge geometry reads. *)
Record VNode := mkVNode {
  vn_id : string;
  vn_x : R;
  vn_y : R;
  vn_distanceToBorder : Ctx -> R -> R;
}.

Record EndPointOffset := mkEndPointOffset { epo_from : R; epo_to : R }.

Record EdgeOptions := mkEdgeOptions {
  opt_endPointOffset : option EndPointOffset;
  opt_arrowStrikethrough : option bool;
}.

Record BezierEdge := mkBezierEdge {
  be_from : VNode;
  be_to : VNode;
  be_options : EdgeOptions;
}.

(** [this.getPoint(t, viaNode)], declared by the edge base class and
    implemented by each concrete edge type. *)
Variable getPoint : BezierEdge -> R -> Via -> Point.

Definition maxIterations : nat := 10.

Definition threshold : R := 0.2.

Section Search.

Variables (this : BezierEdge) (ctx : Ctx) (viaNode : Via).

(** The values fixed before the loop: the probed node, whether it is
    the from node, and the end point offset. *)
Variables (node : VNode) (from : bool) (endPointOffset : R).

(** [difference] as computed by the loop body at parameter [middle]. *)
Definition difference_at (middle : R) : R :=
  let pos := getPoint this middle viaNode in
  let angle := Math_atan2 (vn_y node - py pos) (vn_x node - px pos) in
  let distanceToBorder := vn_distanceToBorder node ctx angle + endPointOffset in
  let distanceToPoint :=
    sqrt (Math_pow2 (px pos - vn_x node) + Math_pow2 (py pos - vn_y node)) in
  distanceToBorder - distanceToPoint.

(** The do-while loop.  [fuel] bounds the recursion; the loop leaves by
    [break] or by its own condition [low <= high && iteration <
    maxIterations].  The result is the last [pos], the last [middle]
    and the value of [iteration] on exit. *)
Fixpoint search (fuel iteration : nat) (low high : R) : Point * R * nat :=
  let middle := (low + high) * 0.5 in
  let pos := getPoint this middle viaNode in
  let difference := difference_at middle in
  if decide (Rabs difference < threshold) then (pos, middle, iteration)
  else
    let '(low', high') :=
      if decide (difference < 0) then
        if from then (low, middle) else (middle, high)
      else
        if from then (middle, high) else (low, middle) in
    let iteration' := S iteration in
    match fuel with
    | O => (pos, middle, iteration')
    | S fuel' =>
        if decide (low' <= high') then
          if decide (iteration' < maxIterations)%nat
          then search fuel' iteration' low' high'
          else (pos, middle, iteration')
        else (pos, middle, iteration')
    end.

End Search.

(** The set-up before the loop. *)
Definition probedNode (this : BezierEdge) (nearNode : VNode) : VNode :=
  if String.eqb (vn_id nearNode) (vn_id (be_from this))
  then be_from this else be_to this.

Definition probesFrom (this : BezierEdge) (nearNode : VNode) : bool :=
  String.eqb (vn_id nearNode) (vn_id (be_from this)).

Definition effectiveOffset (this : BezierEdge) (nearNode : VNode) : R :=
  let endPointOffset :=
    match opt_endPointOffset (be_options this) with
    | Some o => epo_to o
    | None => 0
    end in
  let endPointOffset :=
    if String.eqb (vn_id nearNode) (vn_id (be_from this)) then
      match opt_endPointOffset (be_options this) with
      | Some o => epo_from o
      | None => 0
      end
    else endPointOffset in
  match opt_arrowStrikethrough (be_options this) with
  | Some false => 0
  | _ => endPointOffset
  end.

(** The loop as [_findBorderPositionBezier] runs it, with the iteration
    count it ends with. *)
Definition findBorderSearch (this : BezierEdge) (nearNode : VNode)
    (ctx : Ctx) (viaNode : Via) : Point * R * nat :=
  search this ctx viaNode (probedNode this nearNode)
    (probesFrom this nearNode) (effectiveOffset this nearNode)
    maxIterations 0%nat 0 1.

Definition _findBorderPositionBezier (this : BezierEdge) (nearNode : VNode)
    (ctx : Ctx) (viaNode : Via) : PointT :=
  let '(pos, middle, _) := findBorderSearch this nearNode ctx viaNode in
  {| ptx := px pos; pty := py pos; ptt := middle |}.

End FindBorderPosition.

Arguments mkVNode {Ctx}.
Arguments vn_id {Ctx}.
Arguments vn_x {Ctx}.
Arguments vn_y {Ctx}.
Arguments vn_distanceToBorder {Ctx}.
Arguments mkBezierEdge {Ctx}.
Arguments be_from {Ctx}.
Arguments be_to {Ctx}.
Arguments be_options {Ctx}.
Arguments difference_at {Ctx Via}.
Arguments search {Ctx Via}.
Arguments probedNode {Ctx}.
Arguments probesFrom {Ctx}.
Arguments effectiveOffset {Ctx}.
Arguments findBorderSearch {Ctx Via}.
Arguments _findBorderPositionBezier {Ctx Via}.

(** *** Straight two-node edges and circular nodes *)

Section StraightEdge.

Variable Ctx : Type.

(** Modelled from the spec: [getPoint] of a straight edge (the edge base
    class and the concrete edge types are not among the sources).  "For a
    straight (no via point) edge, the path is the line segment from->to",
    with t = 0 at from and t = 1 at to. *)
Definition straight_getPoint (this : BezierEdge Ctx) (t : R) (_ : unit) : Point :=
  mkPoint ((1 - t) * vn_x (be_from this) + t * vn_x (be_to this))
          ((1 - t) * vn_y (be_from this) + t * vn_y (be_to this)).

Definition centre (n : VNode Ctx) : Point := mkPoint (vn_x n) (vn_y n).

(** The length of the edge. *)
Definition edgeLength (this : BezierEdge Ctx) : R :=
  chord (centre (be_from this)) (centre (be_to this)).

(** A node whose border distance does not depend on the angle. *)
Definition circular (n : VNode Ctx) (r : R) : Prop :=
  forall ctx angle, vn_distanceToBorder n ctx angle = r.

(** The distance between the probed node and the curve point at [t]. *)
Definition reach (this : BezierEdge Ctx) (node : VNode Ctx) (t : R) : R :=
  chord (centre node) (straight_getPoint this t tt).

(** The parameter at which the straight edge crosses the circle of
    radius [r + endPointOffset] around the probed end. *)
Definition crossing (this : BezierEdge Ctx) (from : bool) (endPointOffset r : R) : R :=
  if from then (r + endPointOffset) / edgeLength this
  else 1 - (r + endPointOffset) / edgeLength this.

End StraightEdge.

Arguments straight_getPoint {Ctx}.
Arguments centre {Ctx}.
Arguments edgeLength {Ctx}.
Arguments circular {Ctx}.
Arguments reach {Ctx}.
Arguments crossing {Ctx}.

(** *** Example edges *)

(** A straight edge of length 20480 leaving a circular node of radius 10. *)
Definition longEdge : BezierEdge unit :=
  mkBezierEdge (mkVNode "a" 0 0 (fun _ _ => 10))
               (mkVNode "b" 20480 0 (fun _ _ => 10))
               (mkEdgeOptions None None).

(** A straight edge of length 100 leaving a circular node of radius 10. *)
Definition shortEdge : BezierEdge unit :=
  mkBezierEdge (mkVNode "a" 0 0 (fun _ _ => 10))
               (mkVNode "b" 100 0 (fun _ _ => 10))
               (mkEdgeOptions None None).

(** *** BezierEdgeBase._getDistanceToBezierEdge *)

Section BezierDistance.

(** [this._getDistanceToLine], declared by the edge base class. *)
Variable _getDistanceToLine : R -> R -> R -> R -> R -> R -> R.

Section Loop.

Variables (x1 y1 x2 y2 x3 y3 : R) (via : Point).

(** The [for (i = 1; i < 10; i++)] loop with its three running variables.
    [fuel] bounds the recursion; the loop leaves by its condition. *)
Fixpoint distanceLoop (fuel i : nat) (minDistance lastX lastY : R) : R :=
  match fuel with
  | O => minDistance
  | S fuel' =>
      if (i <? 10)%nat then
        let t := 0.1 * INR i in
        let x := Math_pow2 (1 - t) * x1 + 2 * t * (1 - t) * px via + Math_pow2 t * x2 in
        let y := Math_pow2 (1 - t) * y1 + 2 * t * (1 - t) * py via + Math_pow2 t * y2 in
        let minDistance :=
          if (0 <? i)%nat then
            let distance := _getDistanceToLine lastX lastY x y x3 y3 in
            if decide (distance < minDistance) then distance else minDistance
          else minDistance in
        distanceLoop fuel' (S i) minDistance x y
      else minDistance
  end.

Definition _getDistanceToBezierEdge : R :=
  distanceLoop 10 1 1e9 x1 y1.

End Loop.

(** The words of the specification: the point of the quadratic path at
    parameter [t], the sampled points with both end points, the
    consecutive pairs, and the least distance over them. *)
Definition quadraticPoint (from via to : Point) (t : R) : Point :=
  mkPoint (Math_pow2 (1 - t) * px from + 2 * t * (1 - t) * px via + Math_pow2 t * px to)
          (Math_pow2 (1 - t) * py from + 2 * t * (1 - t) * py via + Math_pow2 t * py to).

Definition innerSamples (from via to : Point) : list Point :=
  map (fun i => quadraticPoint from via to (0.1 * INR i)) (seq 1 9).

Definition sampledPath (from via to : Point) : list Point :=
  from :: innerSamples from via to ++ [to].

Fixpoint consecutivePairs (l : list Point) : list (Point * Point) :=
  match l with
  | p :: ((q :: _) as rest) => (p, q) :: consecutivePairs rest
  | _ => []
  end.

Definition distanceToSegment (query : Point) (s : Point * Point) : R :=
  _getDistanceToLine (px (fst s)) (py (fst s)) (px (snd s)) (py (snd s))
                     (px query) (py query).

Definition leastOf (l : list R) : R :=
  match l with
  | [] => 0
  | d :: rest => fold_left Rmin rest d
  end.

Definition distanceToEdge_spec (from via to query : Point) : R :=
  leastOf (map (distanceToSegment query) (consecutivePairs (sampledPath from via to))).

(** The running minimum of the loop. *)
Definition keepLeast (minDistance distance : R) : R :=
  if decide (distance < minDistance) then distance else minDistance.

End BezierDistance.

Arguments distanceLoop _getDistanceToLine x1 y1 x2 y2 x3 y3 via fuel i minDistance lastX lastY : rename.

(** Modelled from the spec: [_getDistanceToLine], a method of the edge
    base class, which is not among the sources.  "The minimum distance
    from the query point to that line segment": the query point is
    projected on the line through (x1, y1) and (x2, y2), the projection is
    clamped to the segment, and the distance to the clamped point is
    returned. *)
Definition _getDistanceToLine (x1 y1 x2 y2 x3 y3 : R) : R :=
  let px := x2 - x1 in
  let py := y2 - y1 in
  let something := px * px + py * py in
  let u := ((x3 - x1) * px + (y3 - y1) * py) / something in
  let u := if decide (1 < u) then 1 else if decide (u < 0) then 0 else u in
  let x := x1 + u * px in
  let y := y1 + u * py in
  let dx := x - x3 in
  let dy := y - y3 in
  sqrt (dx * dx + dy * dy).

(** *** The arrow helpers of the curve renderer *)

(** [getArrowPoint3(p0x, p0y, p1x, p1y, p2x, p2y, t)]. *)
Definition getArrowPoint3 (p0x p0y p1x p1y p2x p2y t : R) : R * R :=
  let arrow_x := (1 - t) * (1 - t) * p0x + 2 * (1 - t) * t * p1x + t * t * p2x in
  let arrow_y := (1 - t) * (1 - t) * p0y + 2 * (1 - t) * t * p1y + t * t * p2y in
  (arrow_x, arrow_y).

(** [getArrowPoint5(p0x, p0y, ..., p4x, p4y, t)]. *)
Definition getArrowPoint5 (p0x p0y p1x p1y p2x p2y p3x p3y p4x p4y t : R) : R * R :=
  let arrow_x :=
    (1 - t) * (1 - t) * (1 - t) * (1 - t) * p0x +
    4 * (1 - t) * (1 - t) * (1 - t) * t * p1x +
    4 * (1 - t) * (1 - t) * t * p2x +
    4 * (1 - t) * t * p3x +
    t * t * t * t * p4x in
  let arrow_y :=
    (1 - t) * (1 - t) * (1 - t) * (1 - t) * p0y +
    4 * (1 - t) * (1 - t) * (1 - t) * t * p1y +
    4 * (1 - t) * (1 - t) * t * p2y +
    4 * (1 - t) * t * p3y +
    t * t * t * t * p4y in
  (arrow_x, arrow_y).

(** [getAngle(p0x, p0y, p1x, p1y)]. *)
Definition getAngle (p0x p0y p1x p1y : R) : R :=
  Math_atan2 (p1y - p0y) (p1x - p0x).

(** [percentPointOnLine(x1, y1, x2, y2, per)]. *)
Definition percentPointOnLine (x1 y1 x2 y2 per : R) : R * R :=
  (x1 + (x2 - x1) * per, y1 + (y2 - y1) * per).

(** The [points] argument of [transformArrow]: an array of points, or a
    single point, which the function wraps in an array. *)
Inductive PointsArg :=
| PointArray (points : list Point)
| SinglePoint (p : Point).

(** [transformArrow(points, x, y, angle)].  The source overwrites the
    points in place and returns the array; the points of the array are
    distinct objects, as in the array literal of [drawArrow]. *)
Definition transformArrow (points : PointsArg) (x y angle : R) : list Point :=
  let points :=
    match points with
    | PointArray points => points
    | SinglePoint p => [p]
    end in
  let length := 18 in
  map (fun p =>
         let xt := px p * cos angle - py p * sin angle in
         let yt := px p * sin angle + py p * cos angle in
         mkPoint (x + length * xt) (y + length * yt))
      points.

(** One point of [transformArrow]: rotated by the angle, scaled by 18 and
    moved to (x, y). *)
Definition transformed (x y angle : R) (p : Point) : Point :=
  mkPoint (x + 18 * (px p * cos angle - py p * sin angle))
          (y + 18 * (px p * sin angle + py p * cos angle)).

(** The calls made on the rendering context, in program order. *)
Inductive CanvasCommand :=
| BeginPath
| MoveTo (x y : R)
| LineTo (x y : R)
| QuadraticCurveTo (cpx cpy x y : R)
| BezierCurveTo (cp1x cp1y cp2x cp2y x y : R)
| ClosePath
| Fill
| Stroke.

Definition Canvas := list CanvasCommand.

(** How a routine ends: it returns, or it throws the TypeError of a
    property read on undefined; the state reached is kept in both cases. *)
Inductive Outcome (A : Type) :=
| Returns (state : A)
| ThrowsTypeError (state : A).

Arguments Returns {A}.
Arguments ThrowsTypeError {A}.

(** [drawPath(ctx, points)]: [points[0].x] throws on an empty array. *)
Definition drawPath (ctx : Canvas) (points : list Point) : Outcome Canvas :=
  let ctx := ctx ++ [BeginPath] in
  match points with
  | [] => ThrowsTypeError ctx
  | first :: rest =>
      let ctx := ctx ++ [MoveTo (px first) (py first)] in
      let ctx := fold_left (fun ctx p => ctx ++ [LineTo (px p) (py p)]) rest ctx in
      let ctx := ctx ++ [ClosePath] in
      Returns (ctx ++ [Fill])
  end.

(** The arrow shape of [drawArrow]: the tip, the two barbs and the notch
    between them. *)
Definition arrowShape : list Point :=
  [mkPoint 0 0; mkPoint (-1) 0.3; mkPoint (-0.9) 0; mkPoint (-1) (-0.3)].

(** [drawArrow(ctx, x, y, angle)]. *)
Definition drawArrow (ctx : Canvas) (x y angle : R) : Outcome Canvas :=
  let points := arrowShape in
  let transformed_points := transformArrow (PointArray points) x y angle in
  drawPath ctx transformed_points.

(** *** BezierEdgeBase._bezierCurve *)

(** The points of the edge the renderer reads; [toPoint] and
    [eventualPoint] can be missing. *)
Record CurvePoints := mkCurvePoints {
  fromPoint : Point;
  toPoint : option Point;
  eventualPoint : option Point;
}.

Section BezierCurve.

(** The style values of the edge, and the methods of the edge base class
    that paint the background and switch the shadow on and off. *)
Variable Values : Type.

Variables drawBackground enableShadow disableShadow : Canvas -> Values -> Canvas.

(** The path of the edge and, for one via point, its arrow.  A via point
    counts when it is an object with an x coordinate. *)
Definition curvePath (this : CurvePoints) (ctx : Canvas)
    (viaNode1 viaNode2 : option Point) : Outcome Canvas :=
  let ctx := ctx ++ [BeginPath] in
  let ctx := ctx ++ [MoveTo (px (fromPoint this)) (py (fromPoint this))] in
  match viaNode1 with
  | Some viaNode1 =>
      match viaNode2 with
      | Some viaNode2 =>
          match toPoint this with
          | Some to =>
              Returns (ctx ++ [BezierCurveTo (px viaNode1) (py viaNode1)
                                             (px viaNode2) (py viaNode2)
                                             (px to) (py to)])
          | None => ThrowsTypeError ctx
          end
      | None =>
          match toPoint this, eventualPoint this with
          | Some to, None =>
              let ctx := ctx ++ [LineTo (px to) (py to)] in
              let ctx := ctx ++ [Stroke] in
              let angle :=
                getAngle (px (fromPoint this)) (py (fromPoint this)) (px to) (py to) in
              let '(arrowx, arrowy) :=
                percentPointOnLine (px (fromPoint this)) (py (fromPoint this))
                                   (px to) (py to) 0.9 in
              drawArrow ctx arrowx arrowy angle
          | Some to, Some eventual =>
              let '(ct1x, ct1y, ct2x, ct2y) :=
                getControlPoints (px (fromPoint this)) (py (fromPoint this))
                                 (px to) (py to) (px eventual) (py eventual) 0.5 in
              let ctx := ctx ++ [QuadraticCurveTo ct1x ct1y (px to) (py to)] in
              let ctx := ctx ++ [Stroke] in
              let ctx := ctx ++ [QuadraticCurveTo ct2x ct2y (px eventual) (py eventual)] in
              let ctx := ctx ++ [Stroke] in
              let '(arrow0x, arrow0y) :=
                getArrowPoint3 (px to) (py to) ct2x ct2y (px eventual) (py eventual) 0.93 in
              let '(arrow1x, arrow1y) :=
                getArrowPoint3 (px to) (py to) ct2x ct2y (px eventual) (py eventual) 0.95 in
              let angle := getAngle arrow0x arrow0y arrow1x arrow1y in
              drawArrow ctx arrow1x arrow1y angle
          | None, Some eventual => ThrowsTypeError ctx
          | None, None => Returns ctx
          end
      end
  | None =>
      match toPoint this with
      | Some to => Returns (ctx ++ [LineTo (px to) (py to)])
      | None => ThrowsTypeError ctx
      end
  end.

(** [_bezierCurve(ctx, values, viaNode1, viaNode2)]. *)
Definition _bezierCurve (this : CurvePoints) (ctx : Canvas) (values : Values)
    (viaNode1 viaNode2 : option Point) : Outcome Canvas :=
  match curvePath this ctx viaNode1 viaNode2 with
  | Returns ctx =>
      let ctx := drawBackground ctx values in
      let ctx := enableShadow ctx values in
      let ctx := ctx ++ [Stroke] in
      Returns (disableShadow ctx values)
  | ThrowsTypeError ctx => ThrowsTypeError ctx
  end.

End BezierCurve.

(** *** Ellipse.draw *)

(** The options a shape reads when it is drawn. *)
Record ShapeOptions := mkShapeOptions {
  so_isLabelNode : bool;
  so_labelOfNode : option string;
  so_label : option string;
}.

(** What a shape reads of a node of the body. *)
Record BodyNode := mkBodyNode { bn_x : R; bn_y : R; bn_selected : bool }.

(** An ellipse shape with its position, its options and the nodes of the
    body it belongs to. *)
Record EllipseShape := mkEllipseShape {
  es_ellipse : Ellipse;
  es_left : R;
  es_top : R;
  es_options : ShapeOptions;
  es_body_nodes : gmap string BodyNode;
}.

Section EllipseDraw.

Variables (Ctx Values : Type).

Variable needsRefresh : Ellipse -> bool -> bool -> bool.

Variable getDimensionsFromLabel : Ellipse -> Ctx -> bool -> bool -> Dimensions.

(** The methods of [NodeBase], of the label module and of the rendering
    context that [draw] calls once the shape is placed. *)
Variable initContextForDraw : EllipseShape -> Ctx -> Values -> Ctx.

Variable drawRoundRect : Ctx -> R -> R -> R -> R -> R -> Ctx.

Variable ctx_stroke : Ctx -> Ctx.

Variable updateBoundingBox : EllipseShape -> R -> R -> Ctx -> bool -> bool -> EllipseShape.

Variable labelModule_draw : EllipseShape -> Ctx -> R -> R -> bool -> bool -> EllipseShape * Ctx.

(** [resize(ctx, selected, hover)] with both flags passed. *)
Definition resize_flags (this : Ellipse) (ctx : Ctx) (isSelected isHover : bool) : Ellipse :=
  if needsRefresh this isSelected isHover then
    let dimensions := getDimensionsFromLabel this ctx isSelected isHover in
    let height' := dim_height dimensions * 2 in
    let width' := dim_width dimensions + dim_height dimensions in
    {| width := width'; height := height'; radius := 0.5 * width';
       selected := selected this; hover := hover this |}
  else this.

(** [this.body.nodes[this.options.labelOfNode]]: an undefined key reads
    the property named undefined. *)
Definition labelledNode (this : EllipseShape) : option BodyNode :=
  es_body_nodes this !! default "undefined" (so_labelOfNode (es_options this)).

(** [label == undefined || label == ""]. *)
Definition blankLabel (label : option string) : bool :=
  match label with
  | None => true
  | Some s => bool_decide (s = EmptyString)
  end.

(** [draw(ctx, x, y, selected, hover, values)]. *)
Definition draw (this : EllipseShape) (ctx : Ctx) (x y : R) (selected hover : bool)
    (values : Values) : Outcome (EllipseShape * Ctx) :=
  let '(x, y) :=
    if so_isLabelNode (es_options this) then
      match labelledNode this with
      | Some node => (bn_x node + x, bn_y node + y)
      | None => (x, y)
      end
    else (x, y) in
  let ellipse := resize_flags (es_ellipse this) ctx selected hover in
  let this :=
    mkEllipseShape ellipse (x - width ellipse * 0.5) (y - height ellipse * 0.5)
                   (es_options this) (es_body_nodes this) in
  match labelledNode this with
  | None => ThrowsTypeError (this, ctx)
  | Some node =>
      let ctx :=
        if bn_selected node then
          if blankLabel (so_label (es_options this)) then
            let ctx := initContextForDraw this ctx values in
            let ctx := drawRoundRect ctx (es_left this) (es_top this)
                         (width (es_ellipse this)) (height (es_ellipse this)) 2 in
            ctx_stroke ctx
          else ctx
        else ctx in
      let this := updateBoundingBox this x y ctx selected hover in
      Returns (labelModule_draw this ctx x y selected hover)
  end.

End EllipseDraw.

(** *** ShapeBase.updateBoundingBox *)

Record BoundingBox := mkBoundingBox {
  bb_top : R;
  bb_left : R;
  bb_right : R;
  bb_bottom : R;
}.

(** [labelModule.size]. *)
Record LabelSize := mkLabelSize {
  ls_left : R;
  ls_width : R;
  ls_height : R;
}.

(** The part of a [ShapeBase] that [updateBoundingBox] reads and writes. *)
Record ShapeBase := mkShapeBase {
  sb_options_size : R;
  sb_options_label : option string;
  sb_labelModule_size : LabelSize;
  sb_boundingBox : BoundingBox;
}.

(** [updateBoundingBox(x, y)]. *)
Definition updateBoundingBox (this : ShapeBase) (x y : R) : ShapeBase :=
  let size := sb_options_size this in
  let boundingBox := mkBoundingBox (y - size) (x - size) (x + size) (y + size) in
  let boundingBox :=
    if bool_decide (sb_options_label this <> None)
       && bool_decide (0 < ls_width (sb_labelModule_size this))
    then
      let left := Rmin (bb_left boundingBox) (ls_left (sb_labelModule_size this)) in
      let right :=
        Rmax (bb_right boundingBox)
             (ls_left (sb_labelModule_size this) + ls_width (sb_labelModule_size this)) in
      let bottom :=
        Rmax (bb_bottom boundingBox)
             (bb_bottom boundingBox + ls_height (sb_labelModule_size this)) in
      mkBoundingBox (bb_top boundingBox) left right bottom
    else boundingBox in
  mkShapeBase (sb_options_size this) (sb_options_label this)
              (sb_labelModule_size this) boundingBox.

End Geometry.

(** ** The selection and hover handler *)

Module Selection.

Import Geometry.

(** Ids of nodes and edges; a reference to a Node or an Edge object is the
    id under which the body stores it. *)
Definition Id := string.

(** The pointer in DOM coordinates. *)
Record Pointer := mkPointer { pointer_x : R; pointer_y : R }.

(** The probe rectangle handed to [isOverlappingWith]. *)
Record Rect := mkRect {
  rect_left : R;
  rect_top : R;
  rect_right : R;
  rect_bottom : R;
}.

(** The descriptors returned by [getItemsOnPoint]. *)
Inductive ClickItem :=
| NodeItem (nodeId : Id)
| NodeLabelItem (nodeId : Id) (labelId : nat)
| EdgeItem (edgeId : Id)
| EdgeLabelItem (edge : Id) (labelId : nat).

(** The part of a Node the handler reads and writes.  [node_edges] holds
    the references to the incident Edge objects. *)
Record Node := mkNode {
  node_id : Id;
  node_x : R;
  node_y : R;
  node_level : option Z;
  node_isLabelNode : bool;
  node_hover : bool;
  node_edges : list Id;
  node_isOverlappingWith : Rect -> bool;
  node_getItemsOnPoint : Point -> list ClickItem;
}.

(** The part of an Edge the handler reads and writes.  [edge.from] and
    [edge.to] are the nodes stored under [fromId] and [toId];
    [edge_getDistanceToEdge] is [edge.edgeType.getDistanceToEdge]. *)
Record Edge := mkEdge {
  edge_id : Id;
  edge_fromId : Id;
  edge_toId : Id;
  edge_eventualId : option Id;
  edge_connected : bool;
  edge_hover : bool;
  edge_getDistanceToEdge : R -> R -> R -> R -> R -> R -> R;
  edge_getItemsOnPoint : Point -> list ClickItem;
}.

(** [obj instanceof Node] or not: a tagged reference. *)
Inductive ObjRef :=
| NodeRef (id : Id)
| EdgeRef (id : Id).

Definition ref_id (o : ObjRef) : Id :=
  match o with NodeRef id => id | EdgeRef id => id end.

Definition isNode (o : ObjRef) : bool :=
  match o with NodeRef _ => true | EdgeRef _ => false end.

Definition isEdge (o : ObjRef) : bool :=
  match o with NodeRef _ => false | EdgeRef _ => true end.

(** *** SelectionAccumulator *)

(** Modelled from the spec: the SelectionAccumulator (module
    [./selection], not among the sources).  For each collection it keeps
    the committed set and the current set, which is the committed set with
    the pending additions and removals applied.  Sets keep insertion order
    and hold no id twice.  [commit] is the only operation that changes the
    committed set; it returns the ids added, the ids deleted and the
    committed set from before the commit. *)
Record SingleTypeSelection := mkSingleTypeSelection {
  committed : list Id;
  current : list Id;
}.

Record SelectionChanges := mkSelectionChanges {
  added : list Id;
  deleted : list Id;
  previous : list Id;
}.

Definition sel_add (ids : list Id) (s : SingleTypeSelection) : SingleTypeSelection :=
  mkSingleTypeSelection (committed s)
    (fold_left (fun acc id => if decide (id ∈ acc) then acc else acc ++ [id]) ids (current s)).

Definition sel_delete (ids : list Id) (s : SingleTypeSelection) : SingleTypeSelection :=
  mkSingleTypeSelection (committed s)
    (filter (fun id => id ∉ ids) (current s)).

Definition sel_clear (s : SingleTypeSelection) : SingleTypeSelection :=
  mkSingleTypeSelection (committed s) [].

Definition sel_commit (s : SingleTypeSelection) : SelectionChanges * SingleTypeSelection :=
  (mkSelectionChanges
     (filter (fun id => id ∉ committed s) (current s))
     (filter (fun id => id ∉ current s) (committed s))
     (committed s),
   mkSingleTypeSelection (current s) (current s)).

Record SelectionAccumulator := mkSelectionAccumulator {
  acc_nodes : SingleTypeSelection;
  acc_edges : SingleTypeSelection;
}.

Definition addNodes (ids : list Id) (a : SelectionAccumulator) : SelectionAccumulator :=
  mkSelectionAccumulator (sel_add ids (acc_nodes a)) (acc_edges a).

Definition addEdges (ids : list Id) (a : SelectionAccumulator) : SelectionAccumulator :=
  mkSelectionAccumulator (acc_nodes a) (sel_add ids (acc_edges a)).

Definition deleteNodes (ids : list Id) (a : SelectionAccumulator) : SelectionAccumulator :=
  mkSelectionAccumulator (sel_delete ids (acc_nodes a)) (acc_edges a).

Definition deleteEdges (ids : list Id) (a : SelectionAccumulator) : SelectionAccumulator :=
  mkSelectionAccumulator (acc_nodes a) (sel_delete ids (acc_edges a)).

Definition clear (a : SelectionAccumulator) : SelectionAccumulator :=
  mkSelectionAccumulator (sel_clear (acc_nodes a)) (sel_clear (acc_edges a)).

Definition getNodes (a : SelectionAccumulator) : list Id := current (acc_nodes a).

Definition getEdges (a : SelectionAccumulator) : list Id := current (acc_edges a).

Definition commit (a : SelectionAccumulator)
  : (SelectionChanges * SelectionChanges) * SelectionAccumulator :=
  let '(changesNodes, nodes') := sel_commit (acc_nodes a) in
  let '(changesEdges, edges') := sel_commit (acc_edges a) in
  ((changesNodes, changesEdges), mkSelectionAccumulator nodes' edges').

(** The committed selection: what the last [commit] left. *)
Definition committedNodes (a : SelectionAccumulator) : list Id := committed (acc_nodes a).

Definition committedEdges (a : SelectionAccumulator) : list Id := committed (acc_edges a).

(** *** Events *)

(** The DOM event that triggered a call; the handler reads only its
    [controlEdge]. *)
Record UIEvent := mkUIEvent { event_controlEdge : option string }.

(** The properties object built by [_initBaseEvent] and filled in by the
    emitting method; a field that was never set is [None]. *)
Record Properties := mkProperties {
  prop_pointer : option (Pointer * Point);
  prop_event : UIEvent;
  prop_nodes : option (list Id);
  prop_edges : option (list Id);
  prop_previousSelection : option (list Id * list Id);
  prop_items : option (list ClickItem);
  prop_controlEdge : option string;
  prop_node : option Id;
  prop_edge : option Id;
}.

Inductive Payload :=
| PProperties (p : Properties)
| PIds (ids : list (option Id))
| PNone.

(** The log of the handler, in program order: every [emitter.emit], and
    every call of the hit tests [getNodeAt] and [getEdgeAt] and of
    [unselectAll] and [selectObject].  The calls are ghost entries, kept to
    state in which order a method does its steps. *)
Inductive Action :=
| CallGetNodeAt (pointer : Pointer)
| CallGetEdgeAt (pointer : Pointer)
| CallUnselectAll
| CallSelectObject (obj : option ObjRef)
| Emit (name : string) (payload : Payload).

Record Options := mkOptions {
  multiselect : bool;
  selectable : bool;
  selectConnectedEdges : bool;
  hoverConnectedEdges : bool;
}.

Definition defaultOptions : Options := mkOptions false true true true.

(** *** The state of the handler and of its collaborators *)

Record Handler := mkHandler {
  body_nodes : gmap Id Node;
  body_nodeIndices : list Id;
  body_edges : gmap Id Edge;
  body_edgeIndices : list Id;
  canvas_DOMtoCanvas : Pointer -> Point;
  _selectionAccumulator : SelectionAccumulator;
  hoverObj_nodes : gmap Id Id;
  hoverObj_edges : gmap Id Id;
  options : Options;
  lastHoveredNodes : list (option Id);
  window_isUserDragging : option bool;
  window_wasUserDragging : option bool;
  log : list Action;
}.

Definition set_body_nodes (f : gmap Id Node -> gmap Id Node) (h : Handler) : Handler :=
  mkHandler (f (body_nodes h)) (body_nodeIndices h) (body_edges h) (body_edgeIndices h)
    (canvas_DOMtoCanvas h) (_selectionAccumulator h) (hoverObj_nodes h) (hoverObj_edges h)
    (options h) (lastHoveredNodes h) (window_isUserDragging h) (window_wasUserDragging h)
    (log h).

Definition set_body_edges (f : gmap Id Edge -> gmap Id Edge) (h : Handler) : Handler :=
  mkHandler (body_nodes h) (body_nodeIndices h) (f (body_edges h)) (body_edgeIndices h)
    (canvas_DOMtoCanvas h) (_selectionAccumulator h) (hoverObj_nodes h) (hoverObj_edges h)
    (options h) (lastHoveredNodes h) (window_isUserDragging h) (window_wasUserDragging h)
    (log h).

Definition set_accumulator (f : SelectionAccumulator -> SelectionAccumulator)
    (h : Handler) : Handler :=
  mkHandler (body_nodes h) (body_nodeIndices h) (body_edges h) (body_edgeIndices h)
    (canvas_DOMtoCanvas h) (f (_selectionAccumulator h)) (hoverObj_nodes h) (hoverObj_edges h)
    (options h) (lastHoveredNodes h) (window_isUserDragging h) (window_wasUserDragging h)
    (log h).

Definition set_hoverObj_nodes (f : gmap Id Id -> gmap Id Id) (h : Handler) : Handler :=
  mkHandler (body_nodes h) (body_nodeIndices h) (body_edges h) (body_edgeIndices h)
    (canvas_DOMtoCanvas h) (_selectionAccumulator h) (f (hoverObj_nodes h)) (hoverObj_edges h)
    (options h) (lastHoveredNodes h) (window_isUserDragging h) (window_wasUserDragging h)
    (log h).

Definition set_hoverObj_edges (f : gmap Id Id -> gmap Id Id) (h : Handler) : Handler :=
  mkHandler (body_nodes h) (body_nodeIndices h) (body_edges h) (body_edgeIndices h)
    (canvas_DOMtoCanvas h) (_selectionAccumulator h) (hoverObj_nodes h) (f (hoverObj_edges h))
    (options h) (lastHoveredNodes h) (window_isUserDragging h) (window_wasUserDragging h)
    (log h).

Definition set_lastHoveredNodes (l : list (option Id)) (h : Handler) : Handler :=
  mkHandler (body_nodes h) (body_nodeIndices h) (body_edges h) (body_edgeIndices h)
    (canvas_DOMtoCanvas h) (_selectionAccumulator h) (hoverObj_nodes h) (hoverObj_edges h)
    (options h) l (window_isUserDragging h) (window_wasUserDragging h)
    (log h).

Definition set_wasUserDragging (b : option bool) (h : Handler) : Handler :=
  mkHandler (body_nodes h) (body_nodeIndices h) (body_edges h) (body_edgeIndices h)
    (canvas_DOMtoCanvas h) (_selectionAccumulator h) (hoverObj_nodes h) (hoverObj_edges h)
    (options h) (lastHoveredNodes h) (window_isUserDragging h) b
    (log h).

Definition record (a : Action) (h : Handler) : Handler :=
  mkHandler (body_nodes h) (body_nodeIndices h) (body_edges h) (body_edgeIndices h)
    (canvas_DOMtoCanvas h) (_selectionAccumulator h) (hoverObj_nodes h) (hoverObj_edges h)
    (options h) (lastHoveredNodes h) (window_isUserDragging h) (window_wasUserDragging h)
    (log h ++ [a]).

(** [this.body.emitter.emit(name, payload)]. *)
Definition emit (name : string) (payload : Payload) (h : Handler) : Handler :=
  record (Emit name payload) h.

(** *** Hit testing *)

(** [_pointerToPositionObject(pointer)]. *)
Definition _pointerToPositionObject (pointer : Pointer) (h : Handler) : Rect :=
  let canvasPos := canvas_DOMtoCanvas h pointer in
  mkRect (px canvasPos - 1) (py canvasPos + 1) (px canvasPos + 1) (py canvasPos - 1).

(** [nodes[nodeId].isOverlappingWith(object)].  An index without a node
    in the body does not occur in a well-formed body and is skipped. *)
Definition overlapsWith (object : Rect) (h : Handler) (nodeId : Id) : bool :=
  match body_nodes h !! nodeId with
  | Some node => node_isOverlappingWith node object
  | None => false
  end.

(** [_getAllNodesOverlappingWith(object)]: the ids of [nodeIndices], in
    that order, whose node overlaps the rectangle. *)
Definition _getAllNodesOverlappingWith (object : Rect) (h : Handler) : list Id :=
  filter (fun nodeId => overlapsWith object h nodeId = true) (body_nodeIndices h).

(** [getNodeAt(pointer)] with [returnNode = true]: the last overlapping
    node, or undefined. *)
Definition getNodeAt (pointer : Pointer) (h : Handler) : option Id * Handler :=
  let h := record (CallGetNodeAt pointer) h in
  let positionObject := _pointerToPositionObject pointer h in
  let overlappingNodes := _getAllNodesOverlappingWith positionObject h in
  (last overlappingNodes, h).

(** The distance [getEdgeAt] computes for one edge of [edgeIndices]:
    [None] when the edge is not connected and is passed over.  (An edge
    index without an edge, or a connected edge whose end node is not in
    the body, does not occur in a well-formed body and is passed over as
    well.) *)
Definition edgeDistance (canvasPos : Point) (edgeId : Id) (h : Handler) : option R :=
  match body_edges h !! edgeId with
  | Some edge =>
      if edge_connected edge then
        match body_nodes h !! edge_fromId edge, body_nodes h !! edge_toId edge with
        | Some from, Some to =>
            let xFrom := node_x from in
            let yFrom := node_y from in
            let xTo := node_x to in
            let yTo := node_y to in
            Some (edge_getDistanceToEdge edge xFrom yFrom xTo yTo
                    (px canvasPos) (py canvasPos))
        | _, _ => None
        end
      else None
  | None => None
  end.

(** One turn of the loop of [getEdgeAt] on the pair
    ([overlappingEdge], [mindist]). *)
Definition edgeAtStep (canvasPos : Point) (h : Handler)
    (st : option Id * R) (edgeId : Id) : option Id * R :=
  match edgeDistance canvasPos edgeId h with
  | Some dist => if decide (dist < snd st)%R then (Some edgeId, dist) else st
  | None => st
  end.

Definition edgeAtLoop (canvasPos : Point) (h : Handler)
    (edgeIndices : list Id) (st : option Id * R) : option Id * R :=
  fold_left (edgeAtStep canvasPos h) edgeIndices st.

(** [getEdgeAt(pointer)] with [returnEdge = true]: the closest connected
    edge within 10, or undefined. *)
Definition getEdgeAt (pointer : Pointer) (h : Handler) : option Id * Handler :=
  let h := record (CallGetEdgeAt pointer) h in
  let canvasPos := canvas_DOMtoCanvas h pointer in
  let mindist := 10%R in
  let overlappingEdge := None in
  (fst (edgeAtLoop canvasPos h (body_edgeIndices h) (overlappingEdge, mindist)), h).

(** The hit test of [hoverObject] and [selectOnPoint]: a node, else an
    edge. *)
Definition objectAt (pointer : Pointer) (h : Handler) : option ObjRef * Handler :=
  let '(node, h) := getNodeAt pointer h in
  match node with
  | Some id => (Some (NodeRef id), h)
  | None =>
      let '(edge, h) := getEdgeAt pointer h in
      (EdgeRef <$> edge, h)
  end.

(** *** Selection *)

(** [unselectAll()]. *)
Definition unselectAll (h : Handler) : Handler :=
  set_accumulator clear (record CallUnselectAll h).

(** [obj.edges] of a node reference. *)
Definition edgesOf (id : Id) (h : Handler) : list Id :=
  match body_nodes h !! id with
  | Some node => node_edges node
  | None => []
  end.

(** [selectObject(obj, highlightEdges = this.options.selectConnectedEdges)];
    an undefined [highlightEdges] takes the default. *)
Definition selectObject (obj : option ObjRef) (highlightEdges : option bool)
    (h : Handler) : bool * Handler :=
  let h := record (CallSelectObject obj) h in
  let highlightEdges :=
    match highlightEdges with
    | Some b => b
    | None => selectConnectedEdges (options h)
    end in
  match obj with
  | Some o =>
      let h :=
        match o with
        | NodeRef id =>
            let h := if highlightEdges
                     then set_accumulator (addEdges (edgesOf id h)) h
                     else h in
            set_accumulator (addNodes [id]) h
        | EdgeRef id => set_accumulator (addEdges [id]) h
        end in
      let selectedNodes := map Some (getNodes (_selectionAccumulator h)) in
      (true, emit "selectedNodes" (PIds selectedNodes) h)
  | None => (false, emit "selectedNodes" (PIds []) h)
  end.

(** [getSelectedNodeIds()], [getSelectedEdgeIds()], [getSelection()]. *)
Definition getSelectedNodeIds (h : Handler) : list Id :=
  getNodes (_selectionAccumulator h).

Definition getSelectedEdgeIds (h : Handler) : list Id :=
  getEdges (_selectionAccumulator h).

Definition getSelection (h : Handler) : list Id * list Id :=
  (getSelectedNodeIds h, getSelectedEdgeIds h).

(** [getClickedItems(pointer)]: nodes first, each table from the last
    index to the first. *)
Definition getClickedItems (pointer : Pointer) (h : Handler) : list ClickItem :=
  let point := canvas_DOMtoCanvas h pointer in
  flat_map (fun id => match body_nodes h !! id with
                      | Some node => node_getItemsOnPoint node point
                      | None => []
                      end) (rev (body_nodeIndices h))
  ++ flat_map (fun id => match body_edges h !! id with
                         | Some edge => edge_getItemsOnPoint edge point
                         | None => []
                         end) (rev (body_edgeIndices h)).

(** [_initBaseEvent(event, pointer)]; the pointer is an object, hence
    truthy. *)
Definition _initBaseEvent (event : UIEvent) (pointer : Pointer) (h : Handler) : Properties :=
  mkProperties (Some (pointer, canvas_DOMtoCanvas h pointer)) event
               None None None None None None None.

Definition with_selection (nodes edges : list Id) (p : Properties) : Properties :=
  mkProperties (prop_pointer p) (prop_event p) (Some nodes) (Some edges)
    (prop_previousSelection p) (prop_items p) (prop_controlEdge p)
    (prop_node p) (prop_edge p).

Definition with_previousSelection (old : list Id * list Id) (p : Properties) : Properties :=
  mkProperties (prop_pointer p) (prop_event p) (prop_nodes p) (prop_edges p)
    (Some old) (prop_items p) (prop_controlEdge p) (prop_node p) (prop_edge p).

Definition with_items (items : list ClickItem) (p : Properties) : Properties :=
  mkProperties (prop_pointer p) (prop_event p) (prop_nodes p) (prop_edges p)
    (prop_previousSelection p) (Some items) (prop_controlEdge p)
    (prop_node p) (prop_edge p).

Definition with_controlEdge (c : string) (p : Properties) : Properties :=
  mkProperties (prop_pointer p) (prop_event p) (prop_nodes p) (prop_edges p)
    (prop_previousSelection p) (prop_items p) (Some c) (prop_node p) (prop_edge p).

Definition with_node (id : Id) (p : Properties) : Properties :=
  mkProperties (prop_pointer p) (prop_event p) (prop_nodes p) (prop_edges p)
    (prop_previousSelection p) (prop_items p) (prop_controlEdge p)
    (Some id) (prop_edge p).

Definition with_edge (id : Id) (p : Properties) : Properties :=
  mkProperties (prop_pointer p) (prop_event p) (prop_nodes p) (prop_edges p)
    (prop_previousSelection p) (prop_items p) (prop_controlEdge p)
    (prop_node p) (Some id).

(** The properties [generateClickEvent] emits. *)
Definition clickProperties (eventType : string) (event : UIEvent) (pointer : Pointer)
    (oldSelection : option (list Id * list Id)) (emptySelection : bool)
    (h : Handler) : Properties :=
  let properties := _initBaseEvent event pointer h in
  let properties :=
    if emptySelection then with_selection [] [] properties
    else
      let tmp := getSelection h in
      with_selection (fst tmp) (snd tmp) properties in
  let properties :=
    match oldSelection with
    | Some old => with_previousSelection old properties
    | None => properties
    end in
  let properties :=
    if decide (eventType = "click")
    then with_items (getClickedItems pointer h) properties
    else properties in
  match event_controlEdge event with
  | Some c => with_controlEdge c properties
  | None => properties
  end.

(** [generateClickEvent(eventType, event, pointer, oldSelection,
    emptySelection = false)]. *)
Definition generateClickEvent (eventType : string) (event : UIEvent) (pointer : Pointer)
    (oldSelection : option (list Id * list Id)) (emptySelection : bool)
    (h : Handler) : Handler :=
  emit eventType
       (PProperties (clickProperties eventType event pointer oldSelection emptySelection h))
       h.

(** [selectOnPoint(pointer)]. *)
Definition selectOnPoint (pointer : Pointer) (h : Handler) : bool * Handler :=
  let selected := false in
  if selectable (options h) then
    let '(obj, h) := objectAt pointer h in
    let h := unselectAll h in
    let '(selected, h) :=
      match obj with
      | Some _ => selectObject obj None h
      | None => (selected, h)
      end in
    (selected, emit "_requestRedraw" PNone h)
  else (selected, h).

(** [commitWithoutEmitting()]. *)
Definition commitWithoutEmitting (h : Handler) : Handler :=
  set_accumulator (fun a => snd (commit a)) h.

(** [commitAndEmit(pointer, event)]. *)
Definition commitAndEmit (pointer : Pointer) (event : UIEvent) (h : Handler) : Handler :=
  let selected := false in
  let selectionChanges := fst (commit (_selectionAccumulator h)) in
  let h := set_accumulator (fun a => snd (commit a)) h in
  let previousSelection :=
    (previous (fst selectionChanges), previous (snd selectionChanges)) in
  let '(selected, h) :=
    if decide (0 < length (deleted (snd selectionChanges)))
    then (true, generateClickEvent "deselectEdge" event pointer (Some previousSelection) false h)
    else (selected, h) in
  let '(selected, h) :=
    if decide (0 < length (deleted (fst selectionChanges)))
    then (true, generateClickEvent "deselectNode" event pointer (Some previousSelection) false h)
    else (selected, h) in
  let '(selected, h) :=
    if decide (0 < length (added (fst selectionChanges)))
    then (true, generateClickEvent "selectNode" event pointer None false h)
    else (selected, h) in
  let '(selected, h) :=
    if decide (0 < length (added (snd selectionChanges)))
    then (true, generateClickEvent "selectEdge" event pointer None false h)
    else (selected, h) in
  if selected
  then generateClickEvent "select" event pointer None false h
  else h.

(** *** setSelection *)

Inductive Exception :=
| TypeError (message : string)
| RangeError (message : string).

(** The outcome of a method that may throw: the exception, or normal
    completion.  The state reached is returned in both cases. *)
Inductive Completion :=
| Thrown (e : Exception)
| Normal.

(** The [selection] argument; a missing (or falsy) property is [None]. *)
Record SelectionArg := mkSelectionArg {
  sel_nodes : option (list Id);
  sel_edges : option (list Id);
}.

Record SetSelectionOptions := mkSetSelectionOptions {
  opt_unselectAll : option bool;
  opt_highlightEdges : option bool;
}.

(** The double quote character of the messages. *)
Definition dquote : string := String (Ascii.ascii_of_nat 34) EmptyString.

Definition nodeNotFound (id : Id) : Exception :=
  RangeError (String.append "Node with id " (String.append dquote
             (String.append id (String.append dquote " not found")))).

Definition edgeNotFound (id : Id) : Exception :=
  RangeError (String.append "Edge with id " (String.append dquote
             (String.append id (String.append dquote " not found")))).

Definition malformedSelection : Exception :=
  TypeError "Selection must be an object with nodes and/or edges properties".

(** [for (const id of selection.nodes)]. *)
Fixpoint selectNodeIds (ids : list Id) (highlightEdges : option bool)
    (h : Handler) : Completion * Handler :=
  match ids with
  | [] => (Normal, h)
  | id :: rest =>
      match body_nodes h !! id with
      | None => (Thrown (nodeNotFound id), h)
      | Some node =>
          let h := if node_isLabelNode node then h
                   else snd (selectObject (Some (NodeRef id)) highlightEdges h) in
          selectNodeIds rest highlightEdges h
      end
  end.

(** [for (const id of selection.edges)]. *)
Fixpoint selectEdgeIds (ids : list Id) (h : Handler) : Completion * Handler :=
  match ids with
  | [] => (Normal, h)
  | id :: rest =>
      match body_edges h !! id with
      | None => (Thrown (edgeNotFound id), h)
      | Some edge =>
          let h := snd (selectObject (Some (EdgeRef id)) None h) in
          selectEdgeIds rest h
      end
  end.

(** [setSelection(selection, options = {})]. *)
Definition setSelection (selection : option SelectionArg)
    (opts : SetSelectionOptions) (h : Handler) : Completion * Handler :=
  match selection with
  | None => (Thrown malformedSelection, h)
  | Some selection =>
      match sel_nodes selection, sel_edges selection with
      | None, None => (Thrown malformedSelection, h)
      | _, _ =>
          let h :=
            match opt_unselectAll opts with
            | Some true | None => unselectAll h
            | Some false => h
            end in
          let '(c, h) :=
            match sel_nodes selection with
            | Some ids => selectNodeIds ids (opt_highlightEdges opts) h
            | None => (Normal, h)
            end in
          match c with
          | Thrown e => (Thrown e, h)
          | Normal =>
              let '(c, h) :=
                match sel_edges selection with
                | Some ids => selectEdgeIds ids h
                | None => (Normal, h)
                end in
              match c with
              | Thrown e => (Thrown e, h)
              | Normal =>
                  let h := emit "_requestRedraw" PNone h in
                  (Normal, commitWithoutEmitting h)
              end
          end
      end
  end.

(** *** Hover *)

Definition setNodeHover (b : bool) (n : Node) : Node :=
  mkNode (node_id n) (node_x n) (node_y n) (node_level n) (node_isLabelNode n)
         b (node_edges n) (node_isOverlappingWith n) (node_getItemsOnPoint n).

Definition setEdgeHover (b : bool) (e : Edge) : Edge :=
  mkEdge (edge_id e) (edge_fromId e) (edge_toId e) (edge_eventualId e)
         (edge_connected e) b (edge_getDistanceToEdge e) (edge_getItemsOnPoint e).

(** [object.hover], read through the reference; [None] if the reference
    leads nowhere. *)
Definition hoverOf (o : ObjRef) (h : Handler) : option bool :=
  match o with
  | NodeRef id => node_hover <$> body_nodes h !! id
  | EdgeRef id => edge_hover <$> body_edges h !! id
  end.

(** [object.hover = b]. *)
Definition setHover (o : ObjRef) (b : bool) (h : Handler) : Handler :=
  match o with
  | NodeRef id => set_body_nodes (alter (setNodeHover b) id) h
  | EdgeRef id => set_body_edges (alter (setEdgeHover b) id) h
  end.

(** [_addToHover(obj)]. *)
Definition _addToHover (o : ObjRef) (h : Handler) : Handler :=
  match o with
  | NodeRef id => set_hoverObj_nodes (insert id id) h
  | EdgeRef id => set_hoverObj_edges (insert id id) h
  end.

(** The values a property read of [body.nodes] can give, and the number
    they convert to in a comparison: undefined and a Node object both
    convert to NaN, here [None]. *)
Inductive PropertyValue :=
| Undefined
| NumberValue (n : R)
| ObjectValue (o : ObjRef).

Definition ToNumber (v : PropertyValue) : option R :=
  match v with
  | NumberValue n => Some n
  | Undefined => None
  | ObjectValue _ => None
  end.

(** [i < v] for a number [i]: false whenever [v] converts to NaN. *)
Definition lessThan (i : nat) (v : PropertyValue) : bool :=
  match ToNumber v with
  | Some n => bool_decide (INR i < n)%R
  | None => false
  end.

(** [this.body.nodes.length]: [body.nodes] is the table of the nodes
    keyed by id, so this reads its property named length: the node of
    that id, when there is one, and undefined otherwise. *)
Definition body_nodes_length (h : Handler) : PropertyValue :=
  match body_nodes h !! "length" with
  | Some _ => ObjectValue (NodeRef "length")
  | None => Undefined
  end.

(** The first loop of [_hoverConnectedEdges]:
    [for (let i = 0; i < this.body.nodes.length; i++)], reading
    [this.body.nodes[i]].  [None] when the fuel runs out, or when the
    node read is undefined and the write to it throws. *)
Fixpoint hoverIndexedNodes (fuel i : nat) (h : Handler) : option Handler :=
  match fuel with
  | O => None
  | S fuel' =>
      if lessThan i (body_nodes_length h) then
        match body_nodes h !! pretty i with
        | Some node =>
            let h := setHover (NodeRef (node_id node)) true h in
            let h := _addToHover (NodeRef (node_id node)) h in
            hoverIndexedNodes fuel' (S i) h
        | None => None
        end
      else Some h
  end.

(** The second loop: [for (let i = 0; i < node.edges.length; i++)]. *)
Definition hoverEdgesOf (edges : list Id) (h : Handler) : Handler :=
  fold_left (fun h edge => _addToHover (EdgeRef edge) (setHover (EdgeRef edge) true h))
            edges h.

(** [_hoverConnectedEdges(node)]. *)
Definition _hoverConnectedEdges (fuel : nat) (node : Id) (h : Handler) : option Handler :=
  h ← hoverIndexedNodes fuel 0 h;
  Some (hoverEdgesOf (edgesOf node h) h).

(** [emitBlurEvent(event, pointer, object)]. *)
Definition emitBlurEvent (event : UIEvent) (pointer : Pointer) (object : ObjRef)
    (h : Handler) : Handler :=
  let properties := _initBaseEvent event pointer h in
  match hoverOf object h with
  | Some true =>
      let h := setHover object false h in
      match object with
      | NodeRef id => emit "blurNode" (PProperties (with_node id properties)) h
      | EdgeRef id => emit "blurEdge" (PProperties (with_edge id properties)) h
      end
  | _ => h
  end.

(** [emitHoverEvent(event, pointer, object)]. *)
Definition emitHoverEvent (event : UIEvent) (pointer : Pointer) (object : ObjRef)
    (h : Handler) : bool * Handler :=
  let properties := _initBaseEvent event pointer h in
  let hoverChanged := false in
  match hoverOf object h with
  | Some false =>
      let h := setHover object true h in
      let h := _addToHover object h in
      let hoverChanged := true in
      match object with
      | NodeRef id => (hoverChanged, emit "hoverNode" (PProperties (with_node id properties)) h)
      | EdgeRef id => (hoverChanged, emit "hoverEdge" (PProperties (with_edge id properties)) h)
      end
  | _ => (hoverChanged, h)
  end.

(** The property key a value is converted to: an undefined id reads the
    property named undefined. *)
Definition propertyKey (v : option Id) : Id := default "undefined" v.

(** [Object.values(this.body.edges)].  The enumeration order of a table
    ([Object.values], [for ... in]) is taken to be that of [map_to_list];
    no property below depends on it. *)
Definition Object_values (edges : gmap Id Edge) : list Edge :=
  (map_to_list edges).*2.

(** The closure [find_subordinate_nodes] of [hoverObject], with the array
    [subordinate_nodes] it pushes to passed along.  [None] when the fuel
    runs out: the walk has no visited set and need not end. *)
Fixpoint find_subordinate_nodes (fuel : nat) (h : Handler) (node_id : option Id)
    (subordinate_nodes : list (option Id)) : option (list (option Id)) :=
  match fuel with
  | O => None
  | S fuel' =>
      match body_nodes h !! propertyKey node_id with
      | Some node =>
          if decide (node_level node ≠ Some 0%Z) then
            let edges_with_to_node :=
              filter (fun edge => Some (edge_toId edge) = node_id)
                     (Object_values (body_edges h)) in
            fold_left
              (fun acc edge =>
                 subordinate_nodes ← acc;
                 let subordinate_nodes := subordinate_nodes ++ [Some (edge_fromId edge)] in
                 let subordinate_nodes := subordinate_nodes ++ [edge_eventualId edge] in
                 subordinate_nodes ←
                   find_subordinate_nodes fuel' h (Some (edge_fromId edge)) subordinate_nodes;
                 find_subordinate_nodes fuel' h (edge_eventualId edge) subordinate_nodes)
              edges_with_to_node (Some subordinate_nodes)
          else Some subordinate_nodes
      | None => Some subordinate_nodes
      end
  end.

(** One turn of the loop over [this.hoverObj.nodes]. *)
Definition blurNodesStep (event : UIEvent) (pointer : Pointer) (object : option ObjRef)
    (st : bool * Handler) (entry : Id * Id) : bool * Handler :=
  let '(hoverChanged, h) := st in
  let '(nodeId, node) := entry in
  if match object with
     | None => true
     | Some (NodeRef id) => bool_decide (id ≠ nodeId)
     | Some (EdgeRef _) => true
     end
  then
    let h := emitBlurEvent event pointer (NodeRef node) h in
    let h := set_hoverObj_nodes (delete nodeId) h in
    (true, h)
  else st.

(** One turn of the loop over [this.hoverObj.edges]. *)
Definition blurEdgesStep (event : UIEvent) (pointer : Pointer) (object : option ObjRef)
    (st : bool * Handler) (entry : Id * Id) : bool * Handler :=
  let '(hoverChanged, h) := st in
  let '(edgeId, edge) := entry in
  if hoverChanged then
    let h := setHover (EdgeRef edge) false h in
    let h := set_hoverObj_edges (delete edgeId) h in
    (hoverChanged, h)
  else if match object with
          | None => true
          | Some (EdgeRef id) => bool_decide (id ≠ edgeId)
          | Some (NodeRef id) => negb (default false (hoverOf (NodeRef id) h))
          end
  then
    let h := emitBlurEvent event pointer (EdgeRef edge) h in
    let h := set_hoverObj_edges (delete edgeId) h in
    (true, h)
  else st.

(** [object.isLabelNode] of a node reference. *)
Definition isLabelNodeOf (id : Id) (h : Handler) : bool :=
  default false (node_isLabelNode <$> body_nodes h !! id).

(** The loop that hovers the collected nodes. *)
Definition hoverSubordinates (event : UIEvent) (pointer : Pointer)
    (subordinate_nodes : list (option Id)) (h : Handler) : Handler :=
  fold_left
    (fun h sub =>
       match body_nodes h !! propertyKey sub with
       | Some node => snd (emitHoverEvent event pointer (NodeRef (propertyKey sub)) h)
       | None => h
       end)
    subordinate_nodes h.

(** The part of [hoverObject] run when something is hit;
    [object.options.id] is the id of the object. *)
Definition hoverHit (fuel : nat) (event : UIEvent) (pointer : Pointer)
    (object : ObjRef) (hoverChanged : bool) (h : Handler) : option (bool * Handler) :=
  let hoveredEdgesCount := size (hoverObj_edges h) in
  let hoveredNodesCount := size (hoverObj_nodes h) in
  let newOnlyHoveredEdge :=
    isEdge object && bool_decide (hoveredEdgesCount = 0) && bool_decide (hoveredNodesCount = 0) in
  let newOnlyHoveredNode :=
    isNode object && bool_decide (hoveredEdgesCount = 0) && bool_decide (hoveredNodesCount = 0) in
  let '(hoverChanged, h) :=
    if hoverChanged || newOnlyHoveredEdge || newOnlyHoveredNode then
      match object with
      | EdgeRef _ => emitHoverEvent event pointer object h
      | NodeRef id =>
          if isLabelNodeOf id h then (hoverChanged, h)
          else emitHoverEvent event pointer object h
      end
    else (hoverChanged, h) in
  h ← (if isNode object && hoverConnectedEdges (options h)
       then _hoverConnectedEdges fuel (ref_id object) h
       else Some h);
  if (isNode object &&
      match window_isUserDragging h with None | Some false => true | Some true => false end)
     || (bool_decide (window_wasUserDragging h = Some true) &&
         bool_decide (window_isUserDragging h = Some false))
  then
    subordinate_nodes ← find_subordinate_nodes fuel h (Some (ref_id object)) [];
    let h := hoverSubordinates event pointer subordinate_nodes h in
    let subordinate_nodes := subordinate_nodes ++ [Some (ref_id object)] in
    let h := set_lastHoveredNodes subordinate_nodes h in
    let h := emit "hoveredNodes" (PIds subordinate_nodes) h in
    Some (true, h)
  else Some (hoverChanged, h).

(** [hoverObject(event, pointer)].  [None] when the fuel runs out. *)
Definition hoverObject (fuel : nat) (event : UIEvent) (pointer : Pointer)
    (h : Handler) : option Handler :=
  let '(object, h) := objectAt pointer h in
  let hoverChanged := false in
  let h :=
    match object with
    | None =>
        if decide (0 < length (lastHoveredNodes h))
        then set_lastHoveredNodes [] (emit "hoveredNodes" (PIds []) h)
        else h
    | Some _ => h
    end in
  let '(hoverChanged, h) :=
    fold_left (blurNodesStep event pointer object)
              (map_to_list (hoverObj_nodes h)) (hoverChanged, h) in
  let '(hoverChanged, h) :=
    fold_left (blurEdgesStep event pointer object)
              (map_to_list (hoverObj_edges h)) (hoverChanged, h) in
  match
    match object with
    | Some object => hoverHit fuel event pointer object hoverChanged h
    | None => Some (hoverChanged, h)
    end
  with
  | Some (hoverChanged, h) =>
      let h := if hoverChanged then emit "_requestRedraw" PNone h else h in
      Some (set_wasUserDragging (window_isUserDragging h) h)
  | None => None
  end.

(** *** selectNodes, selectEdges, updateSelection *)

(** What a method of the handler throws: a string, or an Error object. *)
Inductive ThrownValue :=
| ThrownString (message : string)
| ThrownError (e : Exception).

Inductive Result :=
| Throws (v : ThrownValue)
| Returned.

Definition notAnArray : ThrownValue :=
  ThrownString "Selection must be an array with ids".

(** [setSelection] as a callee: its completion as a result. *)
Definition callSetSelection (selection : SelectionArg) (opts : SetSelectionOptions)
    (h : Handler) : Result * Handler :=
  match setSelection (Some selection) opts h with
  | (Thrown e, h) => (Throws (ThrownError e), h)
  | (Normal, h) => (Returned, h)
  end.

(** [selectNodes(selection, highlightEdges = true)].  The argument is an
    array of ids, or it is missing ([None]: undefined, null, or a value
    without a length). *)
Definition selectNodes (selection : option (list Id)) (highlightEdges : option bool)
    (h : Handler) : Result * Handler :=
  let highlightEdges := default true highlightEdges in
  match selection with
  | None => (Throws notAnArray, h)
  | Some selection =>
      callSetSelection (mkSelectionArg (Some selection) None)
                       (mkSetSelectionOptions None (Some highlightEdges)) h
  end.

(** [selectEdges(selection)]. *)
Definition selectEdges (selection : option (list Id)) (h : Handler) : Result * Handler :=
  match selection with
  | None => (Throws notAnArray, h)
  | Some selection =>
      callSetSelection (mkSelectionArg None (Some selection))
                       (mkSetSelectionOptions None None) h
  end.

(** The values [updateSelection] works with: a string, or a reference to
    a Node or an Edge. *)
Inductive Value :=
| StringValue (s : string)
| ObjectValueOf (o : ObjRef).

(** The keys a [for ... in] loop visits on an array: its indices, as
    strings. *)
Definition arrayKeys {A : Type} (array : list A) : list string :=
  map pretty (seq 0 (length array)).

(** [value.id]: the id of a Node or of an Edge; a string has no id. *)
Definition idOf (v : Value) : option Id :=
  match v with
  | ObjectValueOf o => Some (ref_id o)
  | StringValue _ => None
  end.

(** The accumulator of the model extended to any value: it holds Node
    and Edge objects, and deleting a value that is not one of them removes
    nothing. *)
Definition deleteNodesValue (v : Value) (a : SelectionAccumulator) : SelectionAccumulator :=
  match v with
  | ObjectValueOf (NodeRef id) => deleteNodes [id] a
  | _ => a
  end.

Definition deleteEdgesValue (v : Value) (a : SelectionAccumulator) : SelectionAccumulator :=
  match v with
  | ObjectValueOf (EdgeRef id) => deleteEdges [id] a
  | _ => a
  end.

Section UpdateSelection.

(** [deleteNodes(value)] and [deleteEdges(value)] of the accumulator,
    which is not among the sources, for any value. *)
Variables accumulator_deleteNodes accumulator_deleteEdges :
  Value -> SelectionAccumulator -> SelectionAccumulator.

(** [updateSelection()]: both loops are [for ... in] loops over the
    arrays returned by [getNodes()] and [getEdges()], so that [node] and
    [edge] are the indices of the arrays, as strings. *)
Definition updateSelection (h : Handler) : Handler :=
  let h :=
    fold_left
      (fun h node =>
         if bool_decide (is_Some (body_nodes h !! propertyKey (idOf (StringValue node))))
         then h
         else set_accumulator (accumulator_deleteNodes (StringValue node)) h)
      (arrayKeys (getNodes (_selectionAccumulator h))) h in
  fold_left
    (fun h edge =>
       if bool_decide (is_Some (body_edges h !! propertyKey (idOf (StringValue edge))))
       then h
       else set_accumulator (accumulator_deleteEdges (StringValue edge)) h)
    (arrayKeys (getEdges (_selectionAccumulator h))) h.

End UpdateSelection.

(** ** Vocabulary of the properties *)

(** The invariant of the loop of [getEdgeAt]: the running [mindist] is a
    lower bound of the distances seen, and the running edge is the first
    one to reach it. *)
Definition edgeAtInvariant (canvasPos : Point) (h : Handler) (l : list Id)
    (st0 st : option Id * R) : Prop :=
  (forall e d, e ∈ l -> edgeDistance canvasPos e h = Some d -> (snd st <= d)%R) /\
  ((st = st0) \/
   (exists l1 e l2 d,
      l = l1 ++ e :: l2 /\ st = (Some e, d) /\
      edgeDistance canvasPos e h = Some d /\ (d < snd st0)%R /\
      (forall e' d', e' ∈ l1 -> edgeDistance canvasPos e' h = Some d' -> (d < d')%R))).

(** [a] is logged before [b]. *)
Definition loggedBefore (a b : Action) (l : list Action) : Prop :=
  exists l1 l2 l3, l = l1 ++ a :: l2 ++ b :: l3.

(** What [setSelection] leaves alone until it commits: the body and the
    committed selection. *)
Definition sameCommitted (h h' : Handler) : Prop :=
  body_nodes h' = body_nodes h /\
  body_edges h' = body_edges h /\
  committedNodes (_selectionAccumulator h') = committedNodes (_selectionAccumulator h) /\
  committedEdges (_selectionAccumulator h') = committedEdges (_selectionAccumulator h).

(** The argument lacks both a nodes and an edges property. *)
Definition malformed (selection : option SelectionArg) : Prop :=
  match selection with
  | None => True
  | Some s => sel_nodes s = None /\ sel_edges s = None
  end.

(** Some supplied node or edge id is absent from the graph. *)
Definition hasUnknownId (s : SelectionArg) (h : Handler) : Prop :=
  (exists ids id, sel_nodes s = Some ids /\ id ∈ ids /\ body_nodes h !! id = None) \/
  (exists ids id, sel_edges s = Some ids /\ id ∈ ids /\ body_edges h !! id = None).

(** The payloads of the events of a given name, in the order of the log. *)
Definition eventsNamed (name : string) (l : list Action) : list Payload :=
  omap (fun a => match a with
                 | Emit n payload => if decide (n = name) then Some payload else None
                 | _ => None
                 end) l.

(** The links of an edge: what the chain walk reads of it. *)
Definition edgeLinks (e : Edge) : Id * Id * option Id :=
  (edge_fromId e, edge_toId e, edge_eventualId e).

(** [quiet h h']: going from [h] to [h'] changed no level and no link of
    the graph, left the drag flag and the options alone, and logged no
    hoveredNodes event. *)
Definition quiet (h h' : Handler) : Prop :=
  node_level <$> body_nodes h' = node_level <$> body_nodes h /\
  edgeLinks <$> body_edges h' = edgeLinks <$> body_edges h /\
  window_isUserDragging h' = window_isUserDragging h /\
  exists new, log h' = log h ++ new /\ eventsNamed "hoveredNodes" new = [].

(** [d] is the distance of the connected edge [e] to the canvas position:
    what the [getDistanceToEdge] of the edge gives for the positions of
    its two end nodes. *)
Definition connectedDistance (canvasPos : Point) (h : Handler) (e : Id) (d : R) : Prop :=
  exists edge from to,
    body_edges h !! e = Some edge /\ edge_connected edge = true /\
    body_nodes h !! edge_fromId edge = Some from /\
    body_nodes h !! edge_toId edge = Some to /\
    d = edge_getDistanceToEdge edge (node_x from) (node_y from) (node_x to) (node_y to)
          (px canvasPos) (py canvasPos).

(** Every index of [edgeIndices] leads to an edge, and a connected edge
    has its two end nodes in the body. *)
Definition edgesWellFormed (h : Handler) : Prop :=
  forall e, e ∈ body_edgeIndices h ->
    exists edge,
      body_edges h !! e = Some edge /\
      (edge_connected edge = true ->
       is_Some (body_nodes h !! edge_fromId edge) /\
       is_Some (body_nodes h !! edge_toId edge)).



(** The walk stops at a node that the body does not hold and at a node
    of level 0; an undefined id reads the node called undefined. *)
Definition stopsAt (levels : gmap Id (option Z)) (node_id : option Id) : Prop :=
  levels !! propertyKey node_id = None \/
  levels !! propertyKey node_id = Some (Some 0%Z).

(** The subordinate chain of a node, as the walk is described: a node
    that the body does not hold, or a node of level 0, has none; for any
    other node every edge whose to end is the node contributes its from
    end and its eventual end (an undefined entry when the edge has none),
    then the chain of its from end, then the chain of its eventual end. *)
Inductive chain (levels : gmap Id (option Z)) (links : list (Id * Id * option Id))
  : option Id -> list (option Id) -> Prop :=
| chain_stop (node_id : option Id) :
    stopsAt levels node_id ->
    chain levels links node_id []
| chain_walk (node_id : option Id) (level : option Z) (l : list (option Id)) :
    levels !! propertyKey node_id = Some level ->
    level <> Some 0%Z ->
    chainEdges levels links (filter (fun k => Some k.1.2 = node_id) links) l ->
    chain levels links node_id l
with chainEdges (levels : gmap Id (option Z)) (links : list (Id * Id * option Id))
  : list (Id * Id * option Id) -> list (option Id) -> Prop :=
| chainEdges_nil : chainEdges levels links [] []
| chainEdges_cons (from to : Id) (eventual : option Id)
    (rest : list (Id * Id * option Id)) (l1 l2 l3 : list (option Id)) :
    chain levels links (Some from) l1 ->
    chain levels links eventual l2 ->
    chainEdges levels links rest l3 ->
    chainEdges levels links ((from, to, eventual) :: rest)
               (Some from :: eventual :: l1 ++ l2 ++ l3).

Scheme chain_chainEdges := Minimality for chain Sort Prop
  with chainEdges_chain := Minimality for chainEdges Sort Prop.

Combined Scheme chain_mutual from chain_chainEdges, chainEdges_chain.


(** The objects [selectObject] was called with, in the order of the
    log. *)
Definition selectObjectCalls (l : list Action) : list (option ObjRef) :=
  omap (fun a => match a with
                 | CallSelectObject obj => Some obj
                 | _ => None
                 end) l.

(** The ids of a list that are not ids of label nodes. *)
Definition withoutLabelNodes (ids : list Id) (h : Handler) : list Id :=
  filter (fun id => isLabelNodeOf id h = false) ids.

(** [overlaps object h id]: the body holds a node under [id] and it
    overlaps the rectangle. *)
Definition overlaps (object : Rect) (h : Handler) (id : Id) : Prop :=
  exists node, body_nodes h !! id = Some node /\ node_isOverlappingWith node object = true.

(** A node or an edge with its hover flag cleared: what is left of it
    when the flag is not looked at. *)
Definition unhoveredNode (n : Node) : Node := setNodeHover false n.

Definition unhoveredEdge (e : Edge) : Edge := setEdgeHover false e.

(** [hoverFrame h h']: going from [h] to [h'] changed nothing but hover
    flags, the hover maps, [lastHoveredNodes], the drag flag of the last
    frame and the log, which only grew. *)
Definition hoverFrame (h h' : Handler) : Prop :=
  unhoveredNode <$> body_nodes h' = unhoveredNode <$> body_nodes h /\
  unhoveredEdge <$> body_edges h' = unhoveredEdge <$> body_edges h /\
  body_nodeIndices h' = body_nodeIndices h /\
  body_edgeIndices h' = body_edgeIndices h /\
  _selectionAccumulator h' = _selectionAccumulator h /\
  options h' = options h /\
  window_isUserDragging h' = window_isUserDragging h /\
  exists new, log h' = log h ++ new.

(** [layered h rank]: every edge that points to a node that is not of
    level 0 comes from nodes, its from end and its eventual end, of a
    smaller rank. *)
Definition layered (h : Handler) (rank : Id -> nat) : Prop :=
  forall n level k from eventual,
    node_level <$> body_nodes h !! n = Some level ->
    level <> Some 0%Z ->
    edgeLinks <$> body_edges h !! k = Some (from, n, eventual) ->
    (rank from < rank n)%nat /\
    (forall ev, eventual = Some ev -> (rank ev < rank n)%nat).

(** A blur event of the log. *)
Definition blurEvent (a : Action) : Prop :=
  exists p, a = Emit "blurNode" p \/ a = Emit "blurEdge" p.

(** [blurFrame h h']: going from [h] to [h'] left [lastHoveredNodes] and
    the drag flags alone, logged blur events only, and set no hover
    flag. *)
Definition blurFrame (h h' : Handler) : Prop :=
  lastHoveredNodes h' = lastHoveredNodes h /\
  window_isUserDragging h' = window_isUserDragging h /\
  window_wasUserDragging h' = window_wasUserDragging h /\
  (exists new, log h' = log h ++ new /\ Forall blurEvent new) /\
  (forall o, hoverOf o h' = Some true -> hoverOf o h = Some true).

(** What the steps before the chain walk leave alone when something is
    hit: the drag flag of the last frame and [lastHoveredNodes]. *)
Definition hoverMemory (h h' : Handler) : Prop :=
  window_wasUserDragging h' = window_wasUserDragging h /\
  lastHoveredNodes h' = lastHoveredNodes h.

(** One turn of the loop of [find_subordinate_nodes] over the edges that
    point to the node. *)
Definition walkStep (fuel : nat) (h : Handler) (acc : option (list (option Id)))
    (edge : Edge) : option (list (option Id)) :=
  subordinate_nodes ← acc;
  let subordinate_nodes := subordinate_nodes ++ [Some (edge_fromId edge)] in
  let subordinate_nodes := subordinate_nodes ++ [edge_eventualId edge] in
  subordinate_nodes ←
    find_subordinate_nodes fuel h (Some (edge_fromId edge)) subordinate_nodes;
  find_subordinate_nodes fuel h (edge_eventualId edge) subordinate_nodes.

(** The end of [hoverObject]: the redraw request and the drag flag of
    the frame. *)
Definition hoverEnd (r : option (bool * Handler)) : option Handler :=
  match r with
  | Some (hoverChanged, h) =>
      let h := if hoverChanged then emit "_requestRedraw" PNone h else h in
      Some (set_wasUserDragging (window_isUserDragging h) h)
  | None => None
  end.

(** What a run of selections adds to the log: calls of [selectObject],
    each followed by its selectedNodes event; no redraw request and no
    call of [unselectAll]. *)
Definition selectionSteps (new : list Action) (calls : list (option ObjRef)) : Prop :=
  selectObjectCalls new = calls /\
  eventsNamed "_requestRedraw" new = [] /\
  CallUnselectAll ∉ new.

(** ** Example bodies *)

(** A node that overlaps no probe rectangle. *)
Definition plainNode (id : Id) (x y : R) (level : Z) (edges : list Id) : Node :=
  mkNode id x y (Some level) false false edges (fun _ => false) (fun _ => []).

(** Modelled from the spec: a connected straight edge.  The edge type
    classes are not among the sources; the [getDistanceToEdge] of a
    straight edge is the distance from the point to the segment from->to. *)
Definition straightEdge (id from to : Id) : Edge :=
  mkEdge id from to None true false _getDistanceToLine (fun _ => []).

Definition emptyAccumulator : SelectionAccumulator :=
  mkSelectionAccumulator (mkSingleTypeSelection [] []) (mkSingleTypeSelection [] []).

(** A body with one straight edge from (0, 0) to (100, 0); canvas and DOM
    coordinates coincide. *)
Definition oneEdgeBody : Handler :=
  mkHandler
    (<["a" := plainNode "a" 0 0 0 ["e"]]> (<["b" := plainNode "b" 100 0 0 ["e"]]> ∅))
    ["a"; "b"]
    (<["e" := straightEdge "e" "a" "b"]> ∅)
    ["e"]
    (fun p => mkPoint (pointer_x p) (pointer_y p))
    emptyAccumulator ∅ ∅ defaultOptions [] None None [].

(** A node that overlaps every probe rectangle. *)
Definition hitNode (id : Id) (level : Z) (edges : list Id) : Node :=
  mkNode id 0 0 (Some level) false false edges (fun _ => true) (fun _ => []).

(** An edge from [from] over [to] to the eventual node. *)
Definition chainedEdge (id from to eventual : Id) : Edge :=
  mkEdge id from to (Some eventual) true false _getDistanceToLine (fun _ => []).

(** A body with a node of level 2 under the pointer, whose only incoming
    edge comes from two nodes of level 0. *)
Definition chainBody : Handler :=
  mkHandler
    (<["top" := hitNode "top" 2 ["e"]]>
       (<["a" := plainNode "a" 0 100 0 ["e"]]>
          (<["b" := plainNode "b" 100 100 0 ["e"]]> ∅)))
    ["a"; "b"; "top"]
    (<["e" := chainedEdge "e" "a" "top" "b"]> ∅)
    ["e"]
    (fun p => mkPoint (pointer_x p) (pointer_y p))
    emptyAccumulator ∅ ∅ defaultOptions [] None None [].

(** The body with one edge in the frame after a drag has ended. *)
Definition afterDragBody : Handler :=
  mkHandler
    (<["a" := plainNode "a" 0 0 0 ["e"]]> (<["b" := plainNode "b" 100 0 0 ["e"]]> ∅))
    ["a"; "b"]
    (<["e" := straightEdge "e" "a" "b"]> ∅)
    ["e"]
    (fun p => mkPoint (pointer_x p) (pointer_y p))
    emptyAccumulator ∅ ∅ defaultOptions [] (Some false) (Some true) [].



(** The chain body while a drag is in progress. *)
Definition draggingBody : Handler :=
  mkHandler
    (<["top" := hitNode "top" 2 ["e"]]>
       (<["a" := plainNode "a" 0 100 0 ["e"]]>
          (<["b" := plainNode "b" 100 100 0 ["e"]]> ∅)))
    ["a"; "b"; "top"]
    (<["e" := chainedEdge "e" "a" "top" "b"]> ∅)
    ["e"]
    (fun p => mkPoint (pointer_x p) (pointer_y p))
    emptyAccumulator ∅ ∅ defaultOptions [] (Some true) None [].

(** A body with one node of level 1 under the pointer and an edge from
    that node to itself. *)
Definition loopBody : Handler :=
  mkHandler
    (<["n" := hitNode "n" 1 ["e"]]> ∅)
    ["n"]
    (<["e" := straightEdge "e" "n" "n"]> ∅)
    ["e"]
    (fun p => mkPoint (pointer_x p) (pointer_y p))
    emptyAccumulator ∅ ∅ defaultOptions [] None None [].

(** The body with one edge, with a node selected that the body does not
    hold. *)
Definition staleSelectionBody : Handler :=
  set_accumulator (addNodes ["gone"]) oneEdgeBody.

End Selection.

(** ** Properties of the geometry *)

Module GeometryFacts.

Import Geometry.

Local Open Scope R_scope.

Lemma tension_half : tension = 1 / 2.
Proof. unfold tension, Q2R; simpl. lra. Qed.

Lemma chord_pow2 p q :
  sqrt (Math_pow2 (px q - px p) + Math_pow2 (py q - py p)) = chord p q.
Proof. unfold chord, Math_pow2. f_equal. ring. Qed.

Lemma chord_nonneg p q : 0 <= chord p q.
Proof. apply sqrt_pos. Qed.

Lemma square_pos (v : R) : v <> 0 -> 0 < v * v.
Proof. intros Hv. destruct (Rtotal_order v 0) as [H|[H|H]]; nra. Qed.

Lemma chord_pos p q : p <> q -> 0 < chord p q.
Proof.
  intros Hne. unfold chord. apply sqrt_lt_R0.
  destruct p as [a b], q as [c d]; simpl.
  destruct (Req_dec c a) as [Hx|Hx].
  - destruct (Req_dec d b) as [Hy|Hy]; [congruence|].
    assert (Hd : d - b <> 0) by (intros E; apply Hy; lra).
    pose proof (square_pos _ Hd). pose proof (Rle_0_sqr (c - a)) as Hs.
    unfold Rsqr in Hs. lra.
  - assert (Hd : c - a <> 0) by (intros E; apply Hx; lra).
    pose proof (square_pos _ Hd). pose proof (Rle_0_sqr (d - b)) as Hs.
    unfold Rsqr in Hs. lra.
Qed.

(** C5. [getControlPoints] with tension 0.5 returns
    control point 1 = to - fa (eventual - from) and
    control point 2 = to + fb (eventual - from), with
    fa = t d01 / (d01 + d12) and fb = t d12 / (d01 + d12); and for three
    equally spaced colinear points (from, to = from + v,
    eventual = from + 2 v, v nonzero) both control points lie on the line
    through from and eventual: they are the midpoints of the two chords. *)
Theorem getControlPoints_spec (from to eventual : Point) :
  controlPoints from to eventual =
    (vsub to (vscale (fa_spec tension from to eventual) (vsub eventual from)),
     vadd to (vscale (fb_spec tension from to eventual) (vsub eventual from)))
  /\ (from <> to ->
      vsub to from = vsub eventual to ->
      let '(c1, c2) := controlPoints from to eventual in
      colinear from eventual c1 /\ colinear from eventual c2 /\
      c1 = vscale (1 / 2) (vadd from to) /\
      c2 = vscale (1 / 2) (vadd to eventual)).
Proof.
  split.
  - unfold controlPoints, getControlPoints, fa_spec, fb_spec.
    rewrite !chord_pow2. reflexivity.
  - intros Hne Heq.
    assert (Hc : chord to eventual = chord from to).
    { unfold chord. injection Heq as Hx Hy. rewrite <- Hx, <- Hy. reflexivity. }
    pose proof (chord_pos _ _ Hne) as Hpos.
    unfold controlPoints, getControlPoints.
    rewrite !chord_pow2, Hc.
    replace (tension * chord from to / (chord from to + chord from to))
      with (1 / 4) by (rewrite tension_half; field; lra).
    injection Heq as Hx Hy.
    unfold colinear, vscale, vadd; simpl.
    repeat split; try nra; f_equal; lra.
Qed.

Lemma getControlPoints_spec_witness :
  let from := mkPoint 0 0 in
  let to := mkPoint 1 2 in
  let eventual := mkPoint 2 4 in
  let '(c1, c2) := controlPoints from to eventual in
  colinear from eventual c1 /\ colinear from eventual c2 /\
  c1 = vscale (1 / 2) (vadd from to) /\
  c2 = vscale (1 / 2) (vadd to eventual).
Proof.
  apply (getControlPoints_spec (mkPoint 0 0) (mkPoint 1 2) (mkPoint 2 4)).
  - intros H. injection H as H1 H2. lra.
  - unfold vsub; simpl. f_equal; lra.
Defined.

Lemma ellipse_divisor_pos (a b angle : R) :
  0 < a -> 0 < b ->
  0 < (sin angle * a) * (sin angle * a) + (cos angle * b) * (cos angle * b).
Proof.
  intros Ha Hb.
  pose proof (sin2_cos2 angle) as Hsc. unfold Rsqr in Hsc.
  destruct (Req_dec (sin angle) 0) as [Hs|Hs].
  - assert (Hc : cos angle <> 0) by (intros Hc; rewrite Hs, Hc in Hsc; lra).
    assert (Hcb : cos angle * b <> 0) by (apply Rmult_integral_contrapositive_currified; lra).
    pose proof (square_pos _ Hcb).
    pose proof (Rle_0_sqr (sin angle * a)) as Hq. unfold Rsqr in Hq. lra.
  - assert (Hsa : sin angle * a <> 0) by (apply Rmult_integral_contrapositive_currified; lra).
    pose proof (square_pos _ Hsa).
    pose proof (Rle_0_sqr (cos angle * b)) as Hq. unfold Rsqr in Hq. lra.
Qed.

Lemma half_mult (v : R) : v * 0.5 = v / 2.
Proof. unfold Q2R; simpl. lra. Qed.

(** The size of the node after the optional resize of [distanceToBorder]. *)
Lemma resized_usedSize (Ctx : Type)
    (needsRefresh : Ellipse -> bool -> bool -> bool)
    (getDimensionsFromLabel : Ellipse -> Ctx -> bool -> bool -> Dimensions)
    (this : Ellipse) (ctx : option Ctx) :
  let e := match ctx with
           | Some c => resize Ctx needsRefresh getDimensionsFromLabel this c
           | None => this
           end in
  width e = fst (usedSize Ctx needsRefresh getDimensionsFromLabel this ctx) /\
  height e = snd (usedSize Ctx needsRefresh getDimensionsFromLabel this ctx).
Proof.
  cbv zeta. unfold usedSize, resize. destruct ctx as [c|]; [|split; reflexivity].
  destruct (needsRefresh this (selected this) (hover this)); cbn [width height fst snd];
    split; try reflexivity. ring.
Qed.

(** C10 (as amended).  [distanceToBorder] works with the size of the
    node after the
    resize that a context triggers: without a context, or when the node
    needs no refresh, the width and the height of the node; otherwise the
    width plus the height of the label, and twice the height of the label.
    When the width and the height it works with are positive, it returns
    (a b) / sqrt ((a sin angle)^2 + (b cos angle)^2) with a and b their
    halves; the divisor is nonzero, the result is strictly positive, and
    the point at that distance along the angle lies on the outline of the
    ellipse.  The node is left with that size, and unchanged when no
    context is given. *)
Theorem distanceToBorder_radial (Ctx : Type)
    (needsRefresh : Ellipse -> bool -> bool -> bool)
    (getDimensionsFromLabel : Ellipse -> Ctx -> bool -> bool -> Dimensions)
    (this : Ellipse) (ctx : option Ctx) (angle : R) :
  let d := fst (distanceToBorder Ctx needsRefresh getDimensionsFromLabel this ctx angle) in
  let this' := snd (distanceToBorder Ctx needsRefresh getDimensionsFromLabel this ctx angle) in
  let size := usedSize Ctx needsRefresh getDimensionsFromLabel this ctx in
  0 < fst size -> 0 < snd size ->
  let a := fst size / 2 in
  let b := snd size / 2 in
  d = (a * b) / sqrt ((a * sin angle) ^ 2 + (b * cos angle) ^ 2) /\
  sqrt ((a * sin angle) ^ 2 + (b * cos angle) ^ 2) <> 0 /\
  0 < d /\
  on_ellipse a b (d * cos angle) (d * sin angle) /\
  width this' = fst size /\ height this' = snd size /\
  (ctx = None -> this' = this).
Proof.
  pose proof (resized_usedSize Ctx needsRefresh getDimensionsFromLabel this ctx) as Hsize.
  unfold distanceToBorder; cbn [fst snd]; cbv zeta in *.
  set (e := match ctx with
             | Some c => resize Ctx needsRefresh getDimensionsFromLabel this c
             | None => this
             end) in *.
  destruct Hsize as [<- <-].
  intros Hw Hh.
  set (a := width e / 2). set (b := height e / 2).
  assert (Ha : 0 < a) by (unfold a; lra).
  assert (Hb : 0 < b) by (unfold b; lra).
  assert (Ea : width e * 0.5 = a) by (unfold a, Q2R; simpl; lra).
  assert (Eb : height e * 0.5 = b) by (unfold b, Q2R; simpl; lra).
  rewrite Ea, Eb.
  pose proof (ellipse_divisor_pos a b angle Ha Hb) as HD.
  set (D := sin angle * a * (sin angle * a) + cos angle * b * (cos angle * b)) in *.
  replace ((a * sin angle) ^ 2 + (b * cos angle) ^ 2) with D by (unfold D; ring).
  pose proof (sqrt_lt_R0 D HD) as Hs.
  pose proof (sqrt_sqrt D (Rlt_le _ _ HD)) as Hss.
  set (s := sqrt D) in *.
  assert (Hd : 0 < a * b / s).
  { apply Rdiv_lt_0_compat; [apply Rmult_lt_0_compat|]; assumption. }
  split; [reflexivity|]. split; [lra|]. split; [exact Hd|].
  split; [|split; [reflexivity|split; [reflexivity|]]].
  - unfold on_ellipse.
    replace (a * b / s * cos angle / a * (a * b / s * cos angle / a) +
             a * b / s * sin angle / b * (a * b / s * sin angle / b))
      with (D / (s * s)) by (unfold D; field; lra).
    rewrite Hss. field. lra.
  - intros Hctx. unfold e. rewrite Hctx. reflexivity.
Qed.

Lemma distanceToBorder_radial_witness :
  let this := mkEllipse 10 10 5 false false in
  let d := fst (distanceToBorder unit (fun _ _ _ => true)
                  (fun _ _ _ _ => mkDimensions 3 1) this (Some tt) 0) in
  d = (2 * 1) / sqrt ((2 * sin 0) ^ 2 + (1 * cos 0) ^ 2) /\ 0 < d.
Proof.
  pose proof (distanceToBorder_radial unit (fun _ _ _ => true)
                (fun _ _ _ _ => mkDimensions 3 1)
                (mkEllipse 10 10 5 false false) (Some tt) 0) as H.
  cbv zeta in H. cbn [usedSize fst snd selected hover dim_width dim_height] in H.
  destruct H as (H1 & _ & H3 & _); [lra | lra |].
  cbv zeta. split; [|exact H3].
  rewrite H1. f_equal; [lra|]. f_equal. f_equal; f_equal; f_equal; lra.
Defined.

(** The claim as stated fails: with a context, a node of 10 by 10 whose
    label measures 20 by 10 is resized to 30 by 20 first, and the distance
    along the angle 0 is 15, not the 5 that the size of the node gives. *)
Lemma distanceToBorder_uses_resized_size :
  let this := mkEllipse 10 10 5 false false in
  let a := width this / 2 in
  let b := height this / 2 in
  let d := fst (distanceToBorder unit (fun _ _ _ => true)
                  (fun _ _ _ _ => mkDimensions 20 10) this (Some tt) 0) in
  0 < width this /\ 0 < height this /\
  d = 15 /\
  (a * b) / sqrt ((a * sin 0) ^ 2 + (b * cos 0) ^ 2) = 5 /\
  d <> (a * b) / sqrt ((a * sin 0) ^ 2 + (b * cos 0) ^ 2).
Proof.
  cbv zeta. cbn [width height].
  assert (Hd : fst (distanceToBorder unit (fun _ _ _ => true)
                      (fun _ _ _ _ => mkDimensions 20 10)
                      (mkEllipse 10 10 5 false false) (Some tt) 0) = 15).
  { unfold distanceToBorder, resize; cbn [fst snd width height dim_width dim_height].
    rewrite sin_0, cos_0, !half_mult.
    replace (0 * ((20 + 10) / 2) * (0 * ((20 + 10) / 2)) + 1 * (10 * 2 / 2) * (1 * (10 * 2 / 2)))
      with (10 * 10) by lra.
    rewrite sqrt_square by lra. lra. }
  assert (Hclaim : 10 / 2 * (10 / 2) / sqrt ((10 / 2 * sin 0) ^ 2 + (10 / 2 * cos 0) ^ 2) = 5).
  { rewrite sin_0, cos_0.
    replace ((10 / 2 * 0) ^ 2 + (10 / 2 * 1) ^ 2) with (5 * 5) by lra.
    rewrite sqrt_square by lra. lra. }
  split; [lra|]. split; [lra|]. split; [exact Hd|]. split; [exact Hclaim|].
  rewrite Hd, Hclaim. lra.
Qed.

Lemma threshold_val : threshold = 2 / 10.
Proof. unfold threshold, Q2R; simpl. lra. Qed.

(** *** Straight two-node edges and circular nodes *)

Section StraightEdgeFacts.

Variable Ctx : Type.

Lemma sqrt_scaled (k a b : R) :
  0 <= k -> sqrt ((k * a) * (k * a) + (k * b) * (k * b)) = k * sqrt (a * a + b * b).
Proof.
  intros Hk.
  replace ((k * a) * (k * a) + (k * b) * (k * b)) with ((k * k) * (a * a + b * b)) by ring.
  rewrite sqrt_mult_alt by nra.
  rewrite sqrt_square by assumption. reflexivity.
Qed.

Lemma distance_from_straight (this : BezierEdge Ctx) (t : R) :
  0 <= t ->
  chord (centre (be_from this)) (straight_getPoint this t tt) = t * edgeLength this.
Proof.
  intros Ht. unfold edgeLength, chord, straight_getPoint, centre; simpl.
  rewrite <- sqrt_scaled by assumption. f_equal. ring.
Qed.

Lemma distance_to_straight (this : BezierEdge Ctx) (t : R) :
  t <= 1 ->
  chord (centre (be_to this)) (straight_getPoint this t tt) = (1 - t) * edgeLength this.
Proof.
  intros Ht. unfold edgeLength, chord, straight_getPoint, centre; simpl.
  rewrite <- sqrt_scaled by lra. f_equal. ring.
Qed.

Section Bisection.

Variables (this : BezierEdge Ctx) (ctx : Ctx).

Variables (node : VNode Ctx) (from : bool) (endPointOffset r : R).

Hypothesis node_is_endpoint :
  node = if from then be_from this else be_to this.

Hypothesis node_circular : circular node r.

Abbreviation L := (edgeLength this).

Abbreviation target := (r + endPointOffset).

Abbreviation diff := (difference_at straight_getPoint this ctx tt node endPointOffset).

Abbreviation run := (search straight_getPoint this ctx tt node from endPointOffset).

Abbreviation reachAt := (reach this node).
Abbreviation cross := (crossing this from endPointOffset r).

Lemma difference_reach (t : R) : diff t = target - reachAt t.
Proof.
  unfold difference_at, reach. rewrite node_circular.
  f_equal. unfold chord, Math_pow2, centre; simpl. f_equal. ring.
Qed.

Lemma reach_linear (t : R) :
  0 <= t <= 1 -> reachAt t = if from then t * L else (1 - t) * L.
Proof.
  intros [H0 H1]. unfold reach. rewrite node_is_endpoint.
  destruct from.
  - apply distance_from_straight; assumption.
  - apply distance_to_straight; assumption.
Qed.

Lemma difference_crossing (t : R) :
  0 < L -> 0 <= t <= 1 ->
  diff t = if from then L * (cross - t) else L * (t - cross).
Proof.
  intros HL Ht. rewrite difference_reach, reach_linear by assumption.
  unfold crossing. destruct from; field; lra.
Qed.

(** The bracket invariant of the bisection, and what it gives on exit. *)
Lemma search_bracket (fuel : nat) :
  forall (iteration : nat) (low high : R),
    0 < L ->
    0 <= low -> high <= 1 -> low <= cross <= high ->
    (iteration < maxIterations)%nat ->
    (maxIterations - iteration <= fuel)%nat ->
    let '(pos, middle, iterations) := run fuel iteration low high in
    pos = straight_getPoint this middle tt /\
    0 <= middle <= 1 /\
    (iterations <= maxIterations)%nat /\
    (Rabs (diff middle) < threshold \/
     Rabs (diff middle) <= L * (high - low) / 2 ^ (maxIterations - iteration)).
Proof.
  induction fuel as [|fuel IH]; intros iteration low high HL Hlow Hhigh Hc Hit Hfuel.
  { unfold maxIterations in *. lia. }
  cbn [search]. rewrite half_mult.
  set (c := crossing this from endPointOffset r) in *.
  set (middle := (low + high) / 2).
  assert (Hm : 0 <= middle <= 1) by (unfold middle; lra).
  assert (Hlm : low <= middle <= high) by (unfold middle; lra).
  assert (Hpow : 0 < 2 ^ (maxIterations - iteration)) by (apply pow_lt; lra).
  destruct (decide (Rabs (diff middle) < threshold)) as [Hbreak|Hcont].
  { split; [reflexivity|]. split; [lra|].
    split; [unfold maxIterations in *; lia | left; assumption]. }
  pose proof (difference_crossing middle HL Hm) as Hd. fold c in Hd.
  assert (Hexit : Rabs (diff middle) <= L * (high - low) / 2).
  { rewrite Hd. destruct from.
    - rewrite Rabs_mult, (Rabs_pos_eq L) by lra.
      assert (Rabs (c - middle) <= (high - low) / 2)
        by (apply Rabs_le; unfold middle; lra).
      nra.
    - rewrite Rabs_mult, (Rabs_pos_eq L) by lra.
      assert (Rabs (middle - c) <= (high - low) / 2)
        by (apply Rabs_le; unfold middle; lra).
      nra. }
  set (bracket :=
    if decide (diff middle < 0)
    then if from then (low, middle) else (middle, high)
    else if from then (middle, high) else (low, middle)).
  assert (Hb : fst bracket <= c <= snd bracket /\
               0 <= fst bracket /\ snd bracket <= 1 /\
               snd bracket - fst bracket = (high - low) / 2).
  { unfold bracket. destruct (decide (diff middle < 0)) as [Hneg|Hpos];
      rewrite Hd in *; destruct from; cbn [fst snd]; unfold middle in *;
      repeat split; try lra; nra. }
  destruct bracket as [low' high']; cbn [fst snd] in Hb.
  destruct Hb as (Hc' & Hlow' & Hhigh' & Hwidth).
  destruct (decide (low' <= high')) as [_|Hbad]; [|lra].
  destruct (decide (S iteration < maxIterations)%nat) as [Hnext|Hlast].
  - specialize (IH (S iteration) low' high' HL Hlow' Hhigh' Hc' Hnext ltac:(lia)).
    destruct (run fuel (S iteration) low' high') as [[pos m] its].
    destruct IH as (Hp & Hm' & Hits & Hbound).
    split; [assumption|]. split; [assumption|]. split; [assumption|].
    destruct Hbound as [Hbound|Hbound]; [left; assumption|right].
    rewrite Hwidth in Hbound.
    replace (maxIterations - iteration)%nat with (S (maxIterations - S iteration)) by lia.
    cbn [pow].
    replace (L * (high - low) / (2 * 2 ^ (maxIterations - S iteration)))
      with (L * ((high - low) / 2) / 2 ^ (maxIterations - S iteration)); [assumption|].
    field. apply pow_nonzero. lra.
  - split; [reflexivity|]. split; [lra|].
    split; [unfold maxIterations in *; lia|right].
    replace (maxIterations - iteration)%nat with 1%nat by lia.
    simpl. replace (L * (high - low) / (2 * 1)) with (L * (high - low) / 2) by field.
    assumption.
Qed.

End Bisection.

End StraightEdgeFacts.

(** What the bisection guarantees on a straight edge and a circular node,
    whatever the length of the edge. *)
Lemma findBorderSearch_straight (Ctx : Type) (this : BezierEdge Ctx)
    (nearNode : VNode Ctx) (ctx : Ctx) (r : R) :
  circular (probedNode this nearNode) r ->
  0 < edgeLength this ->
  0 <= r + effectiveOffset this nearNode <= edgeLength this ->
  let '(pos, t, iterations) :=
    findBorderSearch straight_getPoint this nearNode ctx tt in
  let target := r + effectiveOffset this nearNode in
  let d := chord (centre (probedNode this nearNode)) pos in
  pos = straight_getPoint this t tt /\
  0 <= t <= 1 /\
  (iterations <= 10)%nat /\
  (Rabs (d - target) < threshold \/
   Rabs (d - target) <= edgeLength this / 1024).
Proof.
  intros Hcirc HL Htarget. unfold findBorderSearch.
  assert (Hnode : probedNode this nearNode =
                  if probesFrom this nearNode then be_from this else be_to this)
    by reflexivity.
  assert (Hcross : 0 <= crossing this (probesFrom this nearNode)
                          (effectiveOffset this nearNode) r <= 1).
  { unfold crossing.
    assert (0 <= (r + effectiveOffset this nearNode) / edgeLength this <= 1).
    { split; [unfold Rdiv; apply Rmult_le_pos;
                [lra | left; apply Rinv_0_lt_compat; lra]|].
      apply (Rmult_le_reg_r (edgeLength this)); [assumption|].
      unfold Rdiv. rewrite Rmult_assoc, Rinv_l by lra. lra. }
    destruct (probesFrom this nearNode); lra. }
  pose proof (search_bracket Ctx this ctx (probedNode this nearNode)
                (probesFrom this nearNode) (effectiveOffset this nearNode) r
                Hnode Hcirc maxIterations 0%nat 0 1 HL
                ltac:(lra) ltac:(lra) Hcross
                ltac:(unfold maxIterations; lia) ltac:(lia)) as H.
  destruct (search straight_getPoint this ctx tt (probedNode this nearNode)
              (probesFrom this nearNode) (effectiveOffset this nearNode)
              maxIterations 0 0 1) as [[pos t] iterations].
  destruct H as (Hpos & Ht & Hits & Hbound).
  cbv zeta.
  rewrite (difference_reach Ctx this ctx _ _ r Hcirc) in Hbound.
  unfold reach in Hbound. rewrite <- Hpos in Hbound.
  replace (edgeLength this * (1 - 0) / 2 ^ (maxIterations - 0))
    with (edgeLength this / 1024) in Hbound
    by (unfold maxIterations; simpl; field).
  rewrite <- Rabs_Ropp in Hbound.
  replace (- (r + effectiveOffset this nearNode -
              chord (centre (probedNode this nearNode)) pos))
    with (chord (centre (probedNode this nearNode)) pos -
          (r + effectiveOffset this nearNode)) in Hbound by ring.
  unfold maxIterations in Hits.
  repeat split; try assumption; lra.
Qed.

(** The fuel is no part of the result: the loop leaves by [break] or by
    its own condition before a fuel of [maxIterations - iteration] runs
    out. *)
Lemma search_fuel_irrelevant (Ctx Via : Type)
    (getPoint : BezierEdge Ctx -> R -> Via -> Point)
    (this : BezierEdge Ctx) (ctx : Ctx) (via : Via) (node : VNode Ctx)
    (from : bool) (off : R) (fuel1 : nat) :
  forall (fuel2 iteration : nat) (low high : R),
    (iteration < maxIterations)%nat ->
    (maxIterations - iteration <= fuel1)%nat ->
    (maxIterations - iteration <= fuel2)%nat ->
    search getPoint this ctx via node from off fuel1 iteration low high =
    search getPoint this ctx via node from off fuel2 iteration low high.
Proof.
  induction fuel1 as [|fuel1 IH]; intros fuel2 iteration low high Hit H1 H2;
    [unfold maxIterations in *; lia|].
  destruct fuel2 as [|fuel2]; [unfold maxIterations in *; lia|].
  cbn [search].
  destruct (decide (Rabs _ < threshold)); [reflexivity|].
  destruct (if decide (_ < 0)
            then if from then (low, _) else (_, high)
            else if from then (_, high) else (low, _)) as [low' high'].
  destruct (decide (low' <= high')); [|reflexivity].
  destruct (decide (S iteration < maxIterations)%nat); [|reflexivity].
  apply IH; unfold maxIterations in *; lia.
Qed.

(** One turn of the loop when the probed node is the from node and the
    curve point is still outside the border: [high] moves to [middle]. *)
Lemma search_narrow_high (Ctx Via : Type) (getPoint : BezierEdge Ctx -> R -> Via -> Point)
    (this : BezierEdge Ctx) (ctx : Ctx) (via : Via) (node : VNode Ctx)
    (off : R) (fuel iteration : nat) (low high : R) :
  let middle := (low + high) / 2 in
  ~ Rabs (difference_at getPoint this ctx via node off middle) < threshold ->
  difference_at getPoint this ctx via node off middle < 0 ->
  low <= middle ->
  search getPoint this ctx via node true off (S fuel) iteration low high =
    if decide (S iteration < maxIterations)%nat
    then search getPoint this ctx via node true off fuel (S iteration) low middle
    else (getPoint this middle via, middle, S iteration).
Proof.
  intros middle Hfar Hneg Hle. cbn [search]. rewrite half_mult. fold middle.
  destruct (decide (Rabs _ < threshold)) as [?|_]; [contradiction|].
  destruct (decide (_ < 0)) as [_|?]; [|contradiction].
  destruct (decide (low <= middle)) as [_|?]; [|contradiction].
  reflexivity.
Qed.

Lemma longEdge_length : edgeLength longEdge = 20480.
Proof.
  unfold edgeLength, chord, centre, longEdge; simpl.
  replace ((20480 - 0) * (20480 - 0) + (0 - 0) * (0 - 0)) with (20480 * 20480) by ring.
  apply sqrt_square. lra.
Qed.

Lemma longEdge_difference (t : R) :
  0 <= t <= 1 ->
  difference_at straight_getPoint longEdge tt tt (be_from longEdge) 0 t
  = 10 - t * 20480.
Proof.
  intros Ht.
  rewrite (difference_reach unit longEdge tt (be_from longEdge) 0 10)
    by (intros ? ?; reflexivity).
  rewrite (reach_linear unit longEdge (be_from longEdge) true eq_refl t Ht).
  rewrite longEdge_length. ring.
Qed.

Lemma longEdge_search :
  findBorderSearch straight_getPoint longEdge (be_from longEdge) tt tt
  = (mkPoint 20 0, 1 / 1024, 10%nat).
Proof.
  unfold findBorderSearch.
  change (probedNode longEdge (be_from longEdge)) with (be_from longEdge).
  change (probesFrom longEdge (be_from longEdge)) with true.
  change (effectiveOffset longEdge (be_from longEdge)) with 0.
  unfold maxIterations at 1.
  do 10 (rewrite search_narrow_high;
         [ | rewrite longEdge_difference by lra; rewrite threshold_val;
             intros Hb; apply Rabs_def2 in Hb; lra
           | rewrite longEdge_difference by lra; lra
           | lra ];
         destruct (decide (_ < maxIterations)%nat) as [Hlt|Hge];
         [ first [ exfalso; unfold maxIterations in Hlt; lia | clear Hlt ]
         | first [ exfalso; unfold maxIterations in Hge; lia | clear Hge ] ]).
  unfold straight_getPoint, longEdge; simpl.
  assert (E : forall a b c a' b' c' : R, a = a' -> b = b' -> c = c' ->
              (mkPoint a b, c, 10%nat) = (mkPoint a' b', c', 10%nat))
    by (intros; subst; reflexivity).
  apply E; lra.
Qed.

(** C1 (as amended).  For a node with a circular border and a straight
    edge crossing it, the bisection returns, after at most 10 iterations,
    a point on the edge whose distance from the node's centre differs from
    the border distance (plus the end point offset) by less than 0.2, or,
    when the cap of 10 iterations ends the loop first, by at most
    length / 1024; so the 0.2 guarantee holds for every edge shorter than
    204.8 units. *)
Theorem findBorderPosition_circular_straight (Ctx : Type) (this : BezierEdge Ctx)
    (nearNode : VNode Ctx) (ctx : Ctx) (r : R) :
  circular (probedNode this nearNode) r ->
  0 < edgeLength this ->
  0 <= r + effectiveOffset this nearNode <= edgeLength this ->
  let p := _findBorderPositionBezier straight_getPoint this nearNode ctx tt in
  let iterations := snd (findBorderSearch straight_getPoint this nearNode ctx tt) in
  let target := r + effectiveOffset this nearNode in
  let d := chord (centre (probedNode this nearNode)) (mkPoint (ptx p) (pty p)) in
  (iterations <= 10)%nat /\
  mkPoint (ptx p) (pty p) = straight_getPoint this (ptt p) tt /\
  (Rabs (d - target) < 0.2 \/ Rabs (d - target) <= edgeLength this / 1024) /\
  (edgeLength this < 204.8 -> Rabs (d - target) < 0.2).
Proof.
  intros Hcirc HL Htarget.
  pose proof (findBorderSearch_straight Ctx this nearNode ctx r Hcirc HL Htarget) as H.
  unfold _findBorderPositionBezier.
  destruct (findBorderSearch straight_getPoint this nearNode ctx tt)
    as [[pos t] iterations].
  cbv zeta in H |- *. cbn [snd ptx pty ptt].
  destruct H as (Hpos & Ht & Hits & Hbound).
  assert (Hp : mkPoint (px pos) (py pos) = pos) by (destruct pos; reflexivity).
  rewrite Hp. fold threshold.
  split; [assumption|]. split; [assumption|]. split; [assumption|].
  intros Hshort.
  destruct Hbound as [Hbound|Hbound]; [assumption|].
  rewrite threshold_val.
  assert (edgeLength this < 2048 / 10) by (revert Hshort; unfold Q2R; simpl; lra).
  lra.
Qed.

Lemma shortEdge_length : edgeLength shortEdge = 100.
Proof.
  unfold edgeLength, chord, centre, shortEdge; simpl.
  replace ((100 - 0) * (100 - 0) + (0 - 0) * (0 - 0)) with (100 * 100) by ring.
  apply sqrt_square. lra.
Qed.

Lemma findBorderPosition_circular_straight_witness :
  let p := _findBorderPositionBezier straight_getPoint shortEdge (be_from shortEdge) tt tt in
  Rabs (chord (centre (be_from shortEdge)) (mkPoint (ptx p) (pty p)) - (10 + 0)) < 0.2.
Proof.
  assert (Hc : circular (probedNode shortEdge (be_from shortEdge)) 10)
    by (intros ? ?; reflexivity).
  assert (HL : 0 < edgeLength shortEdge) by (rewrite shortEdge_length; lra).
  assert (Ht : 0 <= 10 + effectiveOffset shortEdge (be_from shortEdge)
               <= edgeLength shortEdge)
    by (rewrite shortEdge_length;
        change (effectiveOffset shortEdge (be_from shortEdge)) with 0; lra).
  pose proof (findBorderPosition_circular_straight unit shortEdge
                (be_from shortEdge) tt 10 Hc HL Ht) as (_ & _ & _ & H).
  apply H. rewrite shortEdge_length. unfold Q2R; simpl. lra.
Defined.

(** The claim as stated fails on the long edge: the edge crosses the
    border of the circular from node at distance 10, and the search stops
    at the iteration cap on the point at distance 20. *)
Lemma findBorderPosition_long_edge_misses :
  circular (probedNode longEdge (be_from longEdge)) 10 /\
  0 < 10 <= edgeLength longEdge /\
  snd (findBorderSearch straight_getPoint longEdge (be_from longEdge) tt tt) = 10%nat /\
  let p := _findBorderPositionBezier straight_getPoint longEdge (be_from longEdge) tt tt in
  p = mkPointT 20 0 (1 / 1024) /\
  ~ Rabs (chord (centre (be_from longEdge)) (mkPoint (ptx p) (pty p)) - 10) <= 0.2.
Proof.
  split; [intros ? ?; reflexivity|].
  split; [rewrite longEdge_length; lra|].
  unfold _findBorderPositionBezier. rewrite longEdge_search.
  split; [reflexivity|]. split; [reflexivity|].
  cbn [ptx pty]. unfold chord, centre, longEdge; simpl.
  replace ((20 - 0) * (20 - 0) + (0 - 0) * (0 - 0)) with (20 * 20) by ring.
  rewrite sqrt_square by lra.
  rewrite Rabs_pos_eq by lra. unfold Q2R; simpl. lra.
Qed.

(** *** The sampling loop of the distance to a curved edge *)

Section BezierDistanceFacts.

(** [this._getDistanceToLine], any implementation. *)
Variable distanceToLine : R -> R -> R -> R -> R -> R -> R.

Lemma distanceLoop_fold (from via to query : Point) (fuel : nat) :
  forall (i : nat) (m lastX lastY : R),
    (1 <= i <= 10)%nat -> (10 - i < fuel)%nat ->
    distanceLoop distanceToLine (px from) (py from) (px to) (py to) (px query) (py query) via
                 fuel i m lastX lastY
    = fold_left keepLeast
        (map (distanceToSegment distanceToLine query)
             (consecutivePairs
                (mkPoint lastX lastY ::
                 map (fun i => quadraticPoint from via to (0.1 * INR i))
                     (seq i (10 - i)))))
        m.
Proof.
  induction fuel as [|fuel IH]; intros i m lastX lastY Hi Hfuel; [lia|].
  cbn [distanceLoop].
  destruct (Nat.ltb_spec i 10) as [Hlt|Hge].
  - destruct (Nat.ltb_spec 0 i) as [_|?]; [|lia].
    replace (10 - i)%nat with (S (10 - S i)) by lia.
    cbn [seq map consecutivePairs fold_left].
    rewrite IH by lia. reflexivity.
  - replace (10 - i)%nat with 0%nat by lia. reflexivity.
Qed.

(** What the loop computes: the running minimum, started at 1e9, over the
    segments joining the from point and the nine inner samples. *)
Lemma _getDistanceToBezierEdge_unfold (from via to query : Point) :
  _getDistanceToBezierEdge distanceToLine (px from) (py from) (px to) (py to) (px query) (py query) via
  = fold_left keepLeast
      (map (distanceToSegment distanceToLine query)
           (consecutivePairs (from :: innerSamples from via to)))
      1e9.
Proof.
  unfold _getDistanceToBezierEdge. rewrite distanceLoop_fold by lia.
  destruct from; reflexivity.
Qed.

End BezierDistanceFacts.

Lemma _getDistanceToLine_nonneg (x1 y1 x2 y2 x3 y3 : R) :
  0 <= _getDistanceToLine x1 y1 x2 y2 x3 y3.
Proof. apply sqrt_pos. Qed.

(** A query point on the x axis, to the right of a segment of the axis. *)
Lemma _getDistanceToLine_axis_right (a b q : R) :
  a < b -> b <= q -> _getDistanceToLine a 0 b 0 q 0 = q - b.
Proof.
  intros Hab Hbq. unfold _getDistanceToLine.
  assert (Hu : 1 <= ((q - a) * (b - a) + (0 - 0) * (0 - 0)) /
                    ((b - a) * (b - a) + (0 - 0) * (0 - 0))).
  { replace (((q - a) * (b - a) + (0 - 0) * (0 - 0)) /
             ((b - a) * (b - a) + (0 - 0) * (0 - 0)))
      with ((q - a) / (b - a)) by (field; lra).
    apply (Rmult_le_reg_r (b - a)); [lra|].
    unfold Rdiv. rewrite Rmult_assoc, Rinv_l by lra. lra. }
  set (u0 := _ / _) in *.
  assert (Hclamp : (if decide (1 < u0) then 1
                    else if decide (u0 < 0) then 0 else u0) = 1).
  { destruct (decide (1 < u0)); [reflexivity|].
    destruct (decide (u0 < 0)); lra. }
  rewrite Hclamp.
  replace ((a + 1 * (b - a) - q) * (a + 1 * (b - a) - q) +
           (0 + 1 * (0 - 0) - 0) * (0 + 1 * (0 - 0) - 0))
    with ((q - b) * (q - b)) by ring.
  apply sqrt_square. lra.
Qed.

(** A query point that is the end of the segment. *)
Lemma _getDistanceToLine_end (a b : R) :
  a < b -> _getDistanceToLine a 0 b 0 b 0 = 0.
Proof.
  intros Hab. rewrite _getDistanceToLine_axis_right by lra. ring.
Qed.

Lemma tenth_mult (v : R) : 0.1 * v = v / 10.
Proof. unfold Q2R; simpl. lra. Qed.

(** The path from (0, 0) over the control point (5, 0) to (10, 0) runs
    along the x axis at unit speed: the sample at t is (10 t, 0). *)
Lemma axisPath_sample (i : nat) :
  quadraticPoint (mkPoint 0 0) (mkPoint 5 0) (mkPoint 10 0) (0.1 * INR i)
  = mkPoint (INR i) 0.
Proof.
  unfold quadraticPoint, Math_pow2; simpl. rewrite tenth_mult.
  f_equal; field.
Qed.

Lemma axisPath_loop (fuel : nat) :
  forall (i : nat) (m : R),
    (1 <= i <= 10)%nat -> (10 - i < fuel)%nat -> 11 - INR i <= m ->
    distanceLoop _getDistanceToLine 0 0 10 0 10 0 (mkPoint 5 0)
                 fuel i m (INR (i - 1)) 0
    = if (i <? 10)%nat then 1 else m.
Proof.
  induction fuel as [|fuel IH]; intros i m Hi Hfuel Hm; [lia|].
  cbn [distanceLoop px py].
  destruct (Nat.ltb_spec i 10) as [Hlt|Hge]; [|reflexivity].
  destruct (Nat.ltb_spec 0 i) as [_|?]; [|lia].
  pose proof (axisPath_sample i) as Hs.
  unfold quadraticPoint in Hs. cbn [px py] in Hs.
  injection Hs as Hx Hy. rewrite Hx, Hy.
  assert (Hprev : INR (i - 1) = INR i - 1).
  { rewrite minus_INR by lia. reflexivity. }
  assert (Hi10 : INR i <= 9).
  { replace 9 with (INR 9) by (simpl; lra). apply le_INR. lia. }
  rewrite _getDistanceToLine_axis_right by lra.
  destruct (decide (10 - INR i < m)) as [_|?]; [|lra].
  replace (INR i) with (INR (S i - 1)) at 2 by (f_equal; lia).
  rewrite IH; [| lia | lia | rewrite S_INR; lra].
  destruct (Nat.ltb_spec (S i) 10) as [_|Hlast]; [reflexivity|].
  assert (i = 9%nat) as -> by lia. simpl. lra.
Qed.

(** C4.  On the path from (0, 0) over (5, 0) to (10, 0) and the query
    point (10, 0), which is the to end of the path, the loop returns 1: it
    measures the nine segments that end at t = 0.1, ..., 0.9 and never the
    segment from t = 0.9 to t = 1.  The minimum over every consecutive
    pair of the sampled path, both end points included, is 0. *)
Theorem distanceToBezierEdge_misses_last_segment :
  _getDistanceToBezierEdge _getDistanceToLine 0 0 10 0 10 0 (mkPoint 5 0) = 1 /\
  distanceToEdge_spec _getDistanceToLine
    (mkPoint 0 0) (mkPoint 5 0) (mkPoint 10 0) (mkPoint 10 0) = 0.
Proof.
  split.
  - unfold _getDistanceToBezierEdge.
    change 0 with (INR (1 - 1)) at 5.
    rewrite axisPath_loop; [reflexivity | lia | lia | simpl; lra].
  - unfold distanceToEdge_spec, sampledPath, innerSamples.
    cbn [seq map]. rewrite !axisPath_sample.
    cbn [app consecutivePairs map leastOf fold_left].
    unfold distanceToSegment; cbn [fst snd px py].
    assert (Hlast : _getDistanceToLine (INR 9) 0 10 0 10 0 = 0).
    { replace (INR 9) with 9 by (simpl; lra). apply _getDistanceToLine_end. lra. }
    rewrite Hlast.
    apply Rmin_right.
    repeat (apply Rmin_glb; [|apply _getDistanceToLine_nonneg]).
    apply _getDistanceToLine_nonneg.
Qed.

(** *** The bisection, whatever the curve and the node *)

Lemma search_contract (Ctx Via : Type)
    (getPoint : BezierEdge Ctx -> R -> Via -> Point)
    (this : BezierEdge Ctx) (ctx : Ctx) (via : Via) (node : VNode Ctx)
    (from : bool) (off : R) (fuel : nat) :
  forall (iteration : nat) (low high : R),
    0 <= low -> low < high -> high <= 1 ->
    (iteration < maxIterations)%nat ->
    (maxIterations - iteration <= S fuel)%nat ->
    let '(pos, middle, iterations) :=
      search getPoint this ctx via node from off fuel iteration low high in
    pos = getPoint this middle via /\
    low < middle < high /\
    (iteration <= iterations <= maxIterations)%nat /\
    (Rabs (difference_at getPoint this ctx via node off middle) < threshold \/
     iterations = maxIterations).
Proof.
  induction fuel as [|fuel IH]; intros iteration low high Hlow Hlt Hhigh Hit Hfuel.
  - cbn [search]. rewrite half_mult.
    destruct (decide (Rabs _ < threshold)) as [Hd|Hd].
    + split; [reflexivity|]. split; [lra|]. split; [lia|]. left; exact Hd.
    + destruct (if decide (_ < 0)
            then if from then (low, _) else (_, high)
            else if from then (_, high) else (low, _)) as [low' high'].
      split; [reflexivity|]. split; [lra|]. split; [lia|].
      right. unfold maxIterations in *. lia.
  - cbn [search]. rewrite half_mult.
    set (middle := (low + high) / 2).
    destruct (decide (Rabs _ < threshold)) as [Hd|Hd].
    + split; [reflexivity|]. split; [unfold middle; lra|]. split; [lia|]. left; exact Hd.
    + assert (Hb : exists low' high',
                (if decide (difference_at getPoint this ctx via node off middle < 0)
                 then if from then (low, middle) else (middle, high)
                 else if from then (middle, high) else (low, middle)) = (low', high')
                /\ low <= low' /\ low' < high' /\ high' <= high).
      { destruct (decide (_ < 0)), from; eexists _, _; (split; [reflexivity|]);
          unfold middle; lra. }
      destruct Hb as (low' & high' & -> & H1 & H2 & H3).
      destruct (decide (low' <= high')) as [_|Hn]; [|lra].
      destruct (decide (S iteration < maxIterations)%nat) as [Hs|Hs].
      * specialize (IH (S iteration) low' high').
        destruct (search getPoint this ctx via node from off fuel (S iteration) low' high')
          as [[pos m] its].
        destruct IH as (Hp & Hm & Hi & Hr); try lra; try lia.
        split; [assumption|]. split; [lra|]. split; [lia|]. exact Hr.
      * split; [reflexivity|]. split; [unfold middle; lra|]. split; [lia|]. right. lia.
Qed.

(** X1.  Whatever the curve ([getPoint]) and whatever the border of the
    probed node, [_findBorderPositionBezier] returns the point of the
    curve at the parameter it returns, that parameter lies strictly
    between 0 and 1 (the ends of the curve are never returned), at most 10
    points are probed, and either the returned point is within the
    threshold 0.2 of the border or the loop was ended by the cap of 10
    iterations. *)
Theorem findBorderPosition_best_effort (Ctx Via : Type)
    (getPoint : BezierEdge Ctx -> R -> Via -> Point)
    (this : BezierEdge Ctx) (nearNode : VNode Ctx) (ctx : Ctx) (viaNode : Via) :
  let p := _findBorderPositionBezier getPoint this nearNode ctx viaNode in
  let iterations := snd (findBorderSearch getPoint this nearNode ctx viaNode) in
  mkPoint (ptx p) (pty p) = getPoint this (ptt p) viaNode /\
  0 < ptt p < 1 /\
  (iterations <= 10)%nat /\
  (Rabs (difference_at getPoint this ctx viaNode (probedNode this nearNode)
           (effectiveOffset this nearNode) (ptt p)) < 0.2 \/
   iterations = 10%nat).
Proof.
  cbv zeta. unfold _findBorderPositionBezier, findBorderSearch.
  pose proof (search_contract Ctx Via getPoint this ctx viaNode (probedNode this nearNode)
                (probesFrom this nearNode) (effectiveOffset this nearNode)
                maxIterations 0%nat 0 1) as H.
  destruct (search getPoint this ctx viaNode (probedNode this nearNode)
              (probesFrom this nearNode) (effectiveOffset this nearNode)
              maxIterations 0 0 1) as [[pos m] its].
  destruct H as (Hp & Hm & Hi & Hr); try lra; try (unfold maxIterations; lia).
  cbn [ptx pty ptt snd]. fold threshold.
  split; [rewrite <- Hp; destruct pos; reflexivity|].
  split; [lra|]. split; [unfold maxIterations in Hi; lia|].
  exact Hr.
Qed.

(** *** The running minimum of the sampling loop *)

Lemma keepLeast_fold (l : list R) :
  forall m : R,
    let d := fold_left keepLeast l m in
    d <= m /\ (forall v, v ∈ l -> d <= v) /\ (d = m \/ d ∈ l).
Proof.
  induction l as [|v l IH]; intros m; cbn [fold_left].
  - split; [lra|]. split; [|left; reflexivity].
    intros v Hv. inversion Hv.
  - specialize (IH (keepLeast m v)). cbv zeta in IH |- *.
    set (d := fold_left keepLeast l (keepLeast m v)) in *.
    destruct IH as (H1 & H2 & H3).
    assert (Hk : keepLeast m v <= m /\ keepLeast m v <= v /\
                 (keepLeast m v = m \/ keepLeast m v = v)).
    { unfold keepLeast. destruct (decide (v < m)); lra. }
    destruct Hk as (K1 & K2 & K3).
    split; [lra|]. split.
    + intros w Hw. apply elem_of_cons in Hw as [->|Hw]; [lra|auto].
    + destruct H3 as [H3|H3].
      * destruct K3 as [K3|K3]; [left; congruence|].
        right. rewrite H3, K3. apply elem_of_cons; left; reflexivity.
      * right. apply elem_of_cons; right; exact H3.
Qed.

(** X2.  Whatever [_getDistanceToLine] is, [_getDistanceToBezierEdge]
    returns the least of 1e9 and the distances to nine segments: the
    segment from the from point to the sample at t = 0.1 and the eight
    segments between consecutive samples up to t = 0.9.  The result never
    exceeds 1e9, it is a lower bound of the nine distances, and it is 1e9
    or one of them. *)
Theorem distanceToBezierEdge_least_of_nine
    (distanceToLine : R -> R -> R -> R -> R -> R -> R)
    (from via to query : Point) :
  let d := _getDistanceToBezierEdge distanceToLine
             (px from) (py from) (px to) (py to) (px query) (py query) via in
  let segments := consecutivePairs (from :: innerSamples from via to) in
  let distances := map (distanceToSegment distanceToLine query) segments in
  length segments = 9%nat /\
  d <= 1e9 /\
  (forall v, v ∈ distances -> d <= v) /\
  (d = 1e9 \/ d ∈ distances).
Proof.
  cbv zeta. rewrite _getDistanceToBezierEdge_unfold.
  split; [reflexivity|].
  apply keepLeast_fold.
Qed.

(** *** The arrow helpers *)

(** X3.  [getArrowPoint3] is the point of the quadratic Bezier curve
    with the control points p0, p1, p2 at the parameter t: the point at
    the fraction t of the segment between the points at the fraction t of
    the segments from p0 to p1 and from p1 to p2 (as [percentPointOnLine]
    gives them).  It starts at p0 (t = 0), ends at p2 (t = 1), is
    (p0 + 2 p1 + p2) / 4 half way, and for t between 0 and 1 each of its
    coordinates lies between the least and the greatest of the three
    control coordinates. *)
Theorem getArrowPoint3_on_curve (p0x p0y p1x p1y p2x p2y t : R) :
  getArrowPoint3 p0x p0y p1x p1y p2x p2y 0 = (p0x, p0y) /\
  getArrowPoint3 p0x p0y p1x p1y p2x p2y 1 = (p2x, p2y) /\
  (let '(ax, ay) := percentPointOnLine p0x p0y p1x p1y t in
   let '(bx, b_y) := percentPointOnLine p1x p1y p2x p2y t in
   getArrowPoint3 p0x p0y p1x p1y p2x p2y t = percentPointOnLine ax ay bx b_y t) /\
  getArrowPoint3 p0x p0y p1x p1y p2x p2y (1 / 2) =
    ((p0x + 2 * p1x + p2x) / 4, (p0y + 2 * p1y + p2y) / 4) /\
  (0 <= t <= 1 ->
   let '(x, y) := getArrowPoint3 p0x p0y p1x p1y p2x p2y t in
   Rmin p0x (Rmin p1x p2x) <= x <= Rmax p0x (Rmax p1x p2x) /\
   Rmin p0y (Rmin p1y p2y) <= y <= Rmax p0y (Rmax p1y p2y)).
Proof.
  unfold getArrowPoint3, percentPointOnLine.
  split; [f_equal; ring|]. split; [f_equal; ring|].
  split; [f_equal; ring|]. split; [f_equal; field|].
  intros Ht.
  assert (Hconv : forall a b c : R,
            Rmin a (Rmin b c) <=
              (1 - t) * (1 - t) * a + 2 * (1 - t) * t * b + t * t * c
            <= Rmax a (Rmax b c)).
  { intros a b c.
    set (m := Rmin a (Rmin b c)). set (M := Rmax a (Rmax b c)).
    assert (Hm : m <= a /\ m <= b /\ m <= c).
    { unfold m. pose proof (Rmin_l a (Rmin b c)). pose proof (Rmin_r a (Rmin b c)).
      pose proof (Rmin_l b c). pose proof (Rmin_r b c). lra. }
    assert (HM : a <= M /\ b <= M /\ c <= M).
    { unfold M. pose proof (Rmax_l a (Rmax b c)). pose proof (Rmax_r a (Rmax b c)).
      pose proof (Rmax_l b c). pose proof (Rmax_r b c). lra. }
    assert (H0 : 0 <= (1 - t) * (1 - t)) by nra.
    assert (H1 : 0 <= 2 * (1 - t) * t) by nra.
    assert (H2 : 0 <= t * t) by nra.
    split; nra. }
  split; apply Hconv.
Qed.

Lemma getArrowPoint3_on_curve_witness :
  let '(x, y) := getArrowPoint3 0 0 1 2 2 0 (1 / 2) in
  Rmin 0 (Rmin 1 2) <= x <= Rmax 0 (Rmax 1 2) /\
  Rmin 0 (Rmin 2 0) <= y <= Rmax 0 (Rmax 2 0).
Proof.
  apply (proj2 (proj2 (proj2 (proj2 (getArrowPoint3_on_curve 0 0 1 2 2 0 (1 / 2)))))). lra.
Defined.

(** X4.  [getArrowPoint5] starts at p0 (t = 0) and ends at p4 (t = 1),
    but its five weights do not add up to 1 in between: applied to five
    copies of one point (cx, cy) it returns (k cx, k cy) with
    k = 1 + 2 (1 - t)^2 t (4 - t), which is greater than 1 for every t
    strictly between 0 and 1. *)
Theorem getArrowPoint5_not_an_average (cx cy t : R) :
  let k := 1 + 2 * (1 - t) * (1 - t) * t * (4 - t) in
  getArrowPoint5 cx cy cx cy cx cy cx cy cx cy t = (k * cx, k * cy) /\
  (0 < t < 1 -> 1 < k) /\
  (forall p0x p0y p1x p1y p2x p2y p3x p3y p4x p4y,
     getArrowPoint5 p0x p0y p1x p1y p2x p2y p3x p3y p4x p4y 0 = (p0x, p0y) /\
     getArrowPoint5 p0x p0y p1x p1y p2x p2y p3x p3y p4x p4y 1 = (p4x, p4y)).
Proof.
  cbv zeta. unfold getArrowPoint5.
  split; [f_equal; ring|]. split.
  - intros Ht.
    assert (0 < (1 - t) * (1 - t)) by nra.
    assert (0 < t * (4 - t)) by nra.
    assert (0 < (1 - t) * (1 - t) * (t * (4 - t))) by (apply Rmult_lt_0_compat; assumption).
    lra.
  - intros. split; f_equal; ring.
Qed.

Lemma getArrowPoint5_not_an_average_witness :
  1 < 1 + 2 * (1 - 1 / 2) * (1 - 1 / 2) * (1 / 2) * (4 - 1 / 2).
Proof.
  apply (proj1 (proj2 (getArrowPoint5_not_an_average 0 0 (1 / 2)))). lra.
Defined.

Lemma sqrt_scale2 (k a b : R) :
  0 <= k -> sqrt ((k * a) * (k * a) + (k * b) * (k * b)) = k * sqrt (a * a + b * b).
Proof.
  intros Hk.
  replace ((k * a) * (k * a) + (k * b) * (k * b)) with ((k * k) * (a * a + b * b)) by ring.
  rewrite sqrt_mult_alt by nra. rewrite sqrt_square by assumption. reflexivity.
Qed.

(** The length of (x, y) when x is not zero, through the slope y / x. *)
Lemma norm_slope (x y : R) :
  x <> 0 -> sqrt (x * x + y * y) = Rabs x * sqrt (1 + (y / x)²).
Proof.
  intros Hx.
  assert (Hne : Rabs x <> 0) by (apply Rabs_no_R0; assumption).
  assert (Hsq : Rabs x * Rabs x = x * x).
  { destruct (Rcase_abs x); [rewrite Rabs_left by lra|rewrite Rabs_right by lra]; ring. }
  replace (x * x + y * y)
    with ((Rabs x * 1) * (Rabs x * 1) + (Rabs x * (y / Rabs x)) * (Rabs x * (y / Rabs x))).
  - rewrite sqrt_scale2 by apply Rabs_pos. f_equal. f_equal.
    unfold Rsqr.
    replace (y / Rabs x * (y / Rabs x)) with (y * y / (Rabs x * Rabs x)) by (field; assumption).
    rewrite Hsq. field. assumption.
  - replace (Rabs x * (y / Rabs x)) with y by (field; assumption). lra.
Qed.

Lemma slope_norm_pos (z : R) : 0 < sqrt (1 + z²).
Proof. apply sqrt_lt_R0. pose proof (Rle_0_sqr z). lra. Qed.

(** [Math.atan2] gives the direction of the vector it is applied to. *)
Lemma Math_atan2_direction (y x : R) :
  let d := sqrt (x * x + y * y) in
  let a := Math_atan2 y x in
  d * cos a = x /\ d * sin a = y /\ - PI < a <= PI.
Proof.
  cbv zeta. unfold Math_atan2.
  pose proof PI_RGT_0 as Hpi.
  destruct (Rlt_dec 0 x) as [Hx|Hx].
  - pose proof (atan_bound (y / x)) as Hb.
    pose proof (slope_norm_pos (y / x)) as Hs.
    rewrite norm_slope by lra. rewrite Rabs_right by lra.
    rewrite cos_atan, sin_atan.
    split; [field; lra|]. split; [field; lra|]. lra.
  - destruct (Rlt_dec x 0) as [Hx'|Hx'].
    + pose proof (atan_bound (y / x)) as Hb.
      pose proof (slope_norm_pos (y / x)) as Hs.
      rewrite norm_slope by lra. rewrite Rabs_left by lra.
      destruct (Rle_dec 0 y) as [Hy|Hy].
      * rewrite neg_cos, neg_sin, cos_atan, sin_atan.
        split; [field; lra|]. split; [field; lra|].
        assert (Hz : y / x <= 0).
        { unfold Rdiv. assert (/ x < 0) by (apply Rinv_lt_0_compat; lra). nra. }
        assert (atan (y / x) <= 0).
        { destruct Hz as [Hz|Hz].
          - pose proof (atan_increasing _ _ Hz) as Hi. rewrite atan_0 in Hi. lra.
          - rewrite Hz, atan_0. lra. }
        lra.
      * replace (atan (y / x) - PI) with (- (PI - atan (y / x))) by ring.
        rewrite cos_neg, sin_neg.
        replace (PI - atan (y / x)) with (- atan (y / x) + PI) by ring.
        rewrite neg_cos, neg_sin, cos_neg, sin_neg, cos_atan, sin_atan.
        split; [field; lra|]. split; [field; lra|].
        assert (Hz : 0 < y / x).
        { unfold Rdiv. assert (/ x < 0) by (apply Rinv_lt_0_compat; lra). nra. }
        pose proof (atan_increasing _ _ Hz) as Hi. rewrite atan_0 in Hi. lra.
    + assert (x = 0) as -> by lra.
      replace (0 * 0 + y * y) with (y * y) by ring.
      destruct (Rlt_dec 0 y) as [Hy|Hy].
      * rewrite sqrt_square by lra. rewrite cos_PI2, sin_PI2. lra.
      * destruct (Rlt_dec y 0) as [Hy'|Hy'].
        -- replace (y * y) with ((- y) * (- y)) by ring.
           rewrite sqrt_square by lra.
           replace (- PI / 2) with (- (PI / 2)) by field.
           rewrite cos_neg, sin_neg, cos_PI2, sin_PI2. lra.
        -- assert (y = 0) as -> by lra.
           rewrite Rmult_0_l, sqrt_0, cos_0, sin_0. lra.
Qed.

(** X5.  [getAngle] returns the direction from the first point to the
    second: the second point is the first one moved by their distance
    along the angle returned, which lies in (-PI, PI]; for two equal
    points the angle is that of [Math.atan2(0, 0)] and the distance is
    0. *)
Theorem getAngle_direction (p0x p0y p1x p1y : R) :
  let d := chord (mkPoint p0x p0y) (mkPoint p1x p1y) in
  let angle := getAngle p0x p0y p1x p1y in
  p1x = p0x + d * cos angle /\
  p1y = p0y + d * sin angle /\
  - PI < angle <= PI.
Proof.
  cbv zeta. unfold getAngle, chord; cbn [px py].
  destruct (Math_atan2_direction (p1y - p0y) (p1x - p0x)) as (Hc & Hs & Hr).
  cbv zeta in Hc, Hs. rewrite Hc, Hs. split; [ring|]. split; [ring|]. exact Hr.
Qed.

(** X6.  For a fraction [per] between 0 and 1, [percentPointOnLine]
    returns the point of the segment from (x1, y1) to (x2, y2) that is at
    the fraction [per] of the length of the segment from its start. *)
Theorem percentPointOnLine_on_segment (x1 y1 x2 y2 per : R) :
  0 <= per <= 1 ->
  let '(x, y) := percentPointOnLine x1 y1 x2 y2 per in
  let length := chord (mkPoint x1 y1) (mkPoint x2 y2) in
  chord (mkPoint x1 y1) (mkPoint x y) = per * length /\
  chord (mkPoint x y) (mkPoint x2 y2) = (1 - per) * length /\
  colinear (mkPoint x1 y1) (mkPoint x2 y2) (mkPoint x y).
Proof.
  intros Hper. unfold percentPointOnLine, chord, colinear; cbn [px py].
  split; [|split].
  - rewrite <- sqrt_scale2 by lra. f_equal. ring.
  - rewrite <- sqrt_scale2 by lra. f_equal. ring.
  - ring.
Qed.

Lemma percentPointOnLine_on_segment_witness :
  let '(x, y) := percentPointOnLine 0 0 10 0 0.9 in
  chord (mkPoint 0 0) (mkPoint x y) = 0.9 * chord (mkPoint 0 0) (mkPoint 10 0).
Proof.
  apply (percentPointOnLine_on_segment 0 0 10 0 0.9).
  unfold Q2R; simpl; lra.
Defined.

Lemma transformArrow_map (points : list Point) (x y angle : R) :
  transformArrow (PointArray points) x y angle = map (transformed x y angle) points.
Proof. reflexivity. Qed.

Lemma transformed_chord (x y angle : R) (p q : Point) :
  chord (transformed x y angle p) (transformed x y angle q) = 18 * chord p q.
Proof.
  unfold chord, transformed; cbn [px py].
  pose proof (sin2_cos2 angle) as Hsc. unfold Rsqr in Hsc.
  set (s := sin angle) in *. set (c := cos angle) in *.
  set (dx := px q - px p). set (dy := py q - py p).
  replace (_ + _) with ((18 * (dx * c - dy * s)) * (18 * (dx * c - dy * s)) +
                        (18 * (dx * s + dy * c)) * (18 * (dx * s + dy * c)))
    by (unfold dx, dy; ring).
  rewrite sqrt_scale2 by lra. f_equal. f_equal.
  replace (dx * dx + dy * dy) with ((dx * dx + dy * dy) * (s * s + c * c))
    by (rewrite Hsc; ring).
  ring.
Qed.

(** X7.  [transformArrow] is a similarity of ratio 18: the array it
    returns has the length of the one it is given, the distance between
    two transformed points is 18 times the distance between the points
    they come from, a transformed point is as far from (x, y) as 18 times
    the distance of its original from the origin, and a single point is
    treated as the array holding it. *)
Theorem transformArrow_similarity (points : list Point) (x y angle : R)
    (i j : nat) (p q : Point) :
  points !! i = Some p ->
  points !! j = Some q ->
  exists p' q',
    transformArrow (PointArray points) x y angle !! i = Some p' /\
    transformArrow (PointArray points) x y angle !! j = Some q' /\
    chord p' q' = 18 * chord p q /\
    chord (mkPoint x y) p' = 18 * chord (mkPoint 0 0) p /\
    length (transformArrow (PointArray points) x y angle) = length points /\
    transformArrow (SinglePoint p) x y angle = [p'].
Proof.
  intros Hi Hj. rewrite transformArrow_map.
  exists (transformed x y angle p), (transformed x y angle q).
  rewrite !list_lookup_fmap, Hi, Hj. cbn [fmap option_fmap option_map].
  split; [reflexivity|]. split; [reflexivity|].
  split; [apply transformed_chord|].
  split.
  - rewrite <- transformed_chord with (x := x) (y := y) (angle := angle).
    f_equal. unfold transformed; cbn [px py]. f_equal; ring.
  - split; [apply length_map|reflexivity].
Qed.

Lemma transformArrow_similarity_witness :
  exists p' q',
    transformArrow (PointArray arrowShape) 5 7 0 !! 0%nat = Some p' /\
    transformArrow (PointArray arrowShape) 5 7 0 !! 2%nat = Some q' /\
    chord p' q' = 18 * chord (mkPoint 0 0) (mkPoint (-0.9) 0).
Proof.
  destruct (transformArrow_similarity arrowShape 5 7 0 0 2 (mkPoint 0 0) (mkPoint (-0.9) 0)
              eq_refl eq_refl) as (p' & q' & H1 & H2 & H3 & _).
  exists p', q'. split; [exact H1|]. split; [exact H2|exact H3].
Defined.

Lemma drawPath_lines (rest : list Point) :
  forall ctx : Canvas,
    fold_left (fun ctx p => ctx ++ [LineTo (px p) (py p)]) rest ctx
    = ctx ++ map (fun p => LineTo (px p) (py p)) rest.
Proof.
  induction rest as [|p rest IH]; intros ctx; cbn [fold_left map].
  - rewrite app_nil_r. reflexivity.
  - rewrite IH, <- app_assoc. reflexivity.
Qed.

Lemma drawPath_closed_form (ctx : Canvas) (first : Point) (rest : list Point) :
  drawPath ctx (first :: rest) =
    Returns (ctx ++ [BeginPath; MoveTo (px first) (py first)]
                 ++ map (fun p => LineTo (px p) (py p)) rest
                 ++ [ClosePath; Fill]).
Proof.
  unfold drawPath. rewrite drawPath_lines. rewrite <- !app_assoc. reflexivity.
Qed.

(** X8.  [drawPath] on an empty array throws once [beginPath] has been
    called and nothing else; on an array of n + 1 points it returns after
    n + 4 calls on the context: [beginPath], [moveTo] the first point,
    one [lineTo] for each further point in the order of the array,
    [closePath] and [fill]. *)
Theorem drawPath_commands (ctx : Canvas) (points : list Point) :
  match points with
  | [] => drawPath ctx points = ThrowsTypeError (ctx ++ [BeginPath])
  | first :: rest =>
      exists drawn,
        drawPath ctx points = Returns (ctx ++ drawn) /\
        drawn = [BeginPath; MoveTo (px first) (py first)]
                ++ map (fun p => LineTo (px p) (py p)) rest
                ++ [ClosePath; Fill] /\
        length drawn = (length rest + 4)%nat
  end.
Proof.
  destruct points as [|first rest]; [reflexivity|].
  eexists. split; [apply drawPath_closed_form|]. split; [reflexivity|].
  cbn [app length]. rewrite length_app, length_map. cbn [length]. lia.
Qed.

(** The path of the arrow head: the tip, a barb, the notch, the other
    barb. *)
Lemma drawArrow_path (ctx : Canvas) (x y angle : R) :
  drawArrow ctx x y angle =
    Returns (ctx ++ [BeginPath;
                     MoveTo x y;
                     LineTo (x + 18 * (- cos angle - 3 / 10 * sin angle))
                            (y + 18 * (- sin angle + 3 / 10 * cos angle));
                     LineTo (x - 81 / 5 * cos angle) (y - 81 / 5 * sin angle);
                     LineTo (x + 18 * (- cos angle + 3 / 10 * sin angle))
                            (y + 18 * (- sin angle - 3 / 10 * cos angle));
                     ClosePath; Fill]).
Proof.
  unfold drawArrow, arrowShape. cbn [transformArrow map px py].
  rewrite drawPath_closed_form. cbn [map px py app].
  f_equal. f_equal. f_equal.
  unfold Q2R; cbn [QArith_base.Qnum QArith_base.Qden].
  repeat (f_equal; try lra).
Qed.

(** X9.  [drawArrow] never throws.  It draws one closed, filled path of
    four vertices that starts at the tip (x, y); the notch lies behind the
    tip, against the angle, at distance 16.2; and the two barbs are mirror
    images of each other: they are at the same distance from the tip and
    at the same distance from the notch. *)
Theorem drawArrow_shape (ctx : Canvas) (x y angle : R) :
  exists barb1 notch barb2 : Point,
    drawArrow ctx x y angle =
      Returns (ctx ++ [BeginPath; MoveTo x y;
                       LineTo (px barb1) (py barb1);
                       LineTo (px notch) (py notch);
                       LineTo (px barb2) (py barb2);
                       ClosePath; Fill]) /\
    notch = mkPoint (x - 81 / 5 * cos angle) (y - 81 / 5 * sin angle) /\
    chord (mkPoint x y) notch = 81 / 5 /\
    chord (mkPoint x y) barb1 = chord (mkPoint x y) barb2 /\
    chord notch barb1 = chord notch barb2.
Proof.
  eexists (transformed x y angle (mkPoint (-1) (3 / 10))),
          (transformed x y angle (mkPoint (- (9 / 10)) 0)),
          (transformed x y angle (mkPoint (-1) (- (3 / 10)))).
  assert (Htip : mkPoint x y = transformed x y angle (mkPoint 0 0)).
  { unfold transformed; cbn [px py]. f_equal; ring. }
  split; [|split; [|split; [|split]]].
  - rewrite drawArrow_path. unfold transformed; cbn [px py].
    repeat (f_equal; try lra).
  - unfold transformed; cbn [px py]. f_equal; lra.
  - rewrite Htip, transformed_chord. unfold chord; cbn [px py].
    replace ((- (9 / 10) - 0) * (- (9 / 10) - 0) + (0 - 0) * (0 - 0))
      with ((9 / 10) * (9 / 10)) by lra.
    rewrite sqrt_square by lra. lra.
  - rewrite Htip, !transformed_chord. f_equal. unfold chord; cbn [px py]. f_equal. lra.
  - rewrite !transformed_chord. f_equal. unfold chord; cbn [px py]. f_equal. lra.
Qed.

(** *** The curve renderer *)

(** X10.  An edge with one via point and no eventual point is drawn as
    the straight line from the from point to the to point, whatever the
    via point is.  The line is stroked, then the arrow head is drawn with
    its tip at nine tenths of the way from the from point to the to point
    and its axis along the edge (the notch lies on the line through both
    points, 16.2 behind the tip), and last the background and the shadow
    are painted around a final stroke. *)
Theorem bezierCurve_unary_arrow (Values : Type)
    (drawBackground enableShadow disableShadow : Canvas -> Values -> Canvas)
    (from to viaNode1 : Point) (ctx : Canvas) (values : Values) :
  exists tip barb1 notch barb2 : Point,
    _bezierCurve Values drawBackground enableShadow disableShadow
                 (mkCurvePoints from (Some to) None) ctx values (Some viaNode1) None
    = Returns
        (disableShadow
           (enableShadow
              (drawBackground
                 (ctx ++ [BeginPath; MoveTo (px from) (py from);
                          LineTo (px to) (py to); Stroke;
                          BeginPath; MoveTo (px tip) (py tip);
                          LineTo (px barb1) (py barb1);
                          LineTo (px notch) (py notch);
                          LineTo (px barb2) (py barb2);
                          ClosePath; Fill])
                 values)
              values ++ [Stroke])
           values) /\
    tip = vadd from (vscale (9 / 10) (vsub to from)) /\
    vscale (chord from to) (vsub tip notch) = vscale (81 / 5) (vsub to from) /\
    colinear from to notch /\
    chord tip barb1 = chord tip barb2.
Proof.
  unfold _bezierCurve, curvePath; cbn [fromPoint toPoint eventualPoint].
  unfold percentPointOnLine.
  assert (E9 : 0.9 = 9 / 10) by (unfold Q2R; simpl; lra). rewrite E9.
  set (tipx := px from + (px to - px from) * (9 / 10)).
  set (tipy := py from + (py to - py from) * (9 / 10)).
  set (angle := getAngle (px from) (py from) (px to) (py to)).
  exists (mkPoint tipx tipy),
         (transformed tipx tipy angle (mkPoint (-1) (3 / 10))),
         (transformed tipx tipy angle (mkPoint (- (9 / 10)) 0)),
         (transformed tipx tipy angle (mkPoint (-1) (- (3 / 10)))).
  assert (Htip : mkPoint tipx tipy = transformed tipx tipy angle (mkPoint 0 0)).
  { unfold transformed; cbn [px py]. f_equal; ring. }
  destruct (Math_atan2_direction (py to - py from) (px to - px from)) as (Hx & Hy & _).
  cbv zeta in Hx, Hy. fold (getAngle (px from) (py from) (px to) (py to)) in Hx, Hy.
  fold angle in Hx, Hy. fold (chord from to) in Hx, Hy.
  set (d := chord from to) in *. set (c := cos angle) in *. set (s := sin angle) in *.
  split; [|split; [|split; [|split]]].
  - rewrite drawArrow_path. rewrite <- !app_assoc. cbn [app].
    unfold transformed; cbn [px py]. fold c s.
    repeat (f_equal; try lra).
  - unfold vadd, vscale, vsub, tipx, tipy; cbn [px py]. f_equal; ring.
  - unfold vscale, vsub, transformed; cbn [px py]. fold c s. f_equal; nra.
  - unfold colinear, transformed, tipx, tipy; cbn [px py]. fold c s.
    replace (px to - px from) with (d * c) by lra.
    replace (py to - py from) with (d * s) by lra.
    ring.
  - rewrite Htip, !transformed_chord. f_equal. unfold chord; cbn [px py]. f_equal. lra.
Qed.

(** X11.  An edge with one via point and an eventual point is drawn as
    two quadratic curves, the first ending at the to point and the second
    at the eventual point, whose control points are those of
    [getControlPoints] and not the via point.  The two control points and
    the to point lie on one line, so the two curves join without a kink.
    The tip of the arrow head is the point of the second curve at
    t = 0.95, and its notch is 16.2 away from it. *)
Theorem bezierCurve_chained (Values : Type)
    (drawBackground enableShadow disableShadow : Canvas -> Values -> Canvas)
    (from to eventual viaNode1 : Point) (ctx : Canvas) (values : Values) :
  let ct1 := fst (controlPoints from to eventual) in
  let ct2 := snd (controlPoints from to eventual) in
  exists tip barb1 notch barb2 : Point,
    _bezierCurve Values drawBackground enableShadow disableShadow
                 (mkCurvePoints from (Some to) (Some eventual)) ctx values
                 (Some viaNode1) None
    = Returns
        (disableShadow
           (enableShadow
              (drawBackground
                 (ctx ++ [BeginPath; MoveTo (px from) (py from);
                          QuadraticCurveTo (px ct1) (py ct1) (px to) (py to); Stroke;
                          QuadraticCurveTo (px ct2) (py ct2) (px eventual) (py eventual);
                          Stroke;
                          BeginPath; MoveTo (px tip) (py tip);
                          LineTo (px barb1) (py barb1);
                          LineTo (px notch) (py notch);
                          LineTo (px barb2) (py barb2);
                          ClosePath; Fill])
                 values)
              values ++ [Stroke])
           values) /\
    colinear ct1 to ct2 /\
    (px tip, py tip) =
      getArrowPoint3 (px to) (py to) (px ct2) (py ct2) (px eventual) (py eventual) 0.95 /\
    chord tip notch = 81 / 5.
Proof.
  cbv zeta.
  unfold _bezierCurve, curvePath, controlPoints; cbn [fromPoint toPoint eventualPoint].
  change tension with 0.5.
  destruct (getControlPoints (px from) (py from) (px to) (py to)
              (px eventual) (py eventual) 0.5) as [[[ct1x ct1y] ct2x] ct2y] eqn:Hcp.
  cbn [fst snd px py].
  destruct (getArrowPoint3 (px to) (py to) ct2x ct2y (px eventual) (py eventual) 0.93)
    as [arrow0x arrow0y].
  destruct (getArrowPoint3 (px to) (py to) ct2x ct2y (px eventual) (py eventual) 0.95)
    as [arrow1x arrow1y].
  set (angle := getAngle arrow0x arrow0y arrow1x arrow1y).
  exists (mkPoint arrow1x arrow1y),
         (transformed arrow1x arrow1y angle (mkPoint (-1) (3 / 10))),
         (transformed arrow1x arrow1y angle (mkPoint (- (9 / 10)) 0)),
         (transformed arrow1x arrow1y angle (mkPoint (-1) (- (3 / 10)))).
  split; [|split; [|split]].
  - rewrite drawArrow_path. rewrite <- !app_assoc. cbn [app].
    unfold transformed; cbn [px py].
    repeat (f_equal; try lra).
  - unfold getControlPoints in Hcp. injection Hcp as <- <- <- <-.
    unfold colinear; cbn [px py]. ring.
  - reflexivity.
  - replace (mkPoint arrow1x arrow1y) with (transformed arrow1x arrow1y angle (mkPoint 0 0))
      by (unfold transformed; cbn [px py]; f_equal; ring).
    rewrite transformed_chord. unfold chord; cbn [px py].
    replace ((- (9 / 10) - 0) * (- (9 / 10) - 0) + (0 - 0) * (0 - 0))
      with ((9 / 10) * (9 / 10)) by lra.
    rewrite sqrt_square by lra. lra.
Qed.

(** *** The border of an ellipse *)

Lemma ellipse_radial_bounds (a b angle : R) :
  0 < a -> 0 < b ->
  let d := (a * b) / sqrt ((sin angle * a) * (sin angle * a) + (cos angle * b) * (cos angle * b)) in
  Rmin a b <= d <= Rmax a b.
Proof.
  intros Ha Hb. cbv zeta.
  pose proof (ellipse_divisor_pos a b angle Ha Hb) as HD.
  pose proof (sin2_cos2 angle) as Hsc. unfold Rsqr in Hsc.
  set (D := _ + _) in *.
  pose proof (sqrt_lt_R0 D HD) as Hs.
  pose proof (sqrt_sqrt D (Rlt_le _ _ HD)) as Hss.
  set (s := sqrt D) in *.
  set (m := Rmin a b). set (M := Rmax a b).
  assert (Hm : 0 < m /\ m <= a /\ m <= b /\ a <= M /\ b <= M /\ a * b = m * M).
  { unfold m, M. unfold Rmin, Rmax. destruct (Rle_dec a b); repeat split; try lra. }
  destruct Hm as (Hm0 & Hma & Hmb & HaM & HbM & Hab).
  assert (Hsin : 0 <= sin angle * sin angle) by nra.
  assert (Hcos : 0 <= cos angle * cos angle) by nra.
  assert (HDM : D <= M * M).
  { unfold D.
    replace (M * M) with (sin angle * sin angle * (M * M) + cos angle * cos angle * (M * M))
      by (replace (M * M) with ((sin angle * sin angle + cos angle * cos angle) * (M * M)) at 3
            by (rewrite Hsc; ring); ring).
    assert (a * a <= M * M) by nra. assert (b * b <= M * M) by nra. nra. }
  assert (HDm : m * m <= D).
  { unfold D.
    replace (m * m) with (sin angle * sin angle * (m * m) + cos angle * cos angle * (m * m))
      by (replace (m * m) with ((sin angle * sin angle + cos angle * cos angle) * (m * m)) at 3
            by (rewrite Hsc; ring); ring).
    assert (m * m <= a * a) by nra. assert (m * m <= b * b) by nra. nra. }
  assert (HsM : s <= M) by nra.
  assert (Hsm : m <= s) by nra.
  rewrite Hab. split.
  - apply (Rmult_le_reg_r s); [assumption|].
    unfold Rdiv. rewrite Rmult_assoc, Rinv_l by lra. nra.
  - apply (Rmult_le_reg_r s); [assumption|].
    unfold Rdiv. rewrite Rmult_assoc, Rinv_l by lra. nra.
Qed.

(** X12.  When the width and the height [distanceToBorder] works with
    (those of the node, or those the resize sets from the label when a
    context is given and the node needs a refresh) are positive, the
    result lies between the smaller and the greater semi-axis; it is half
    the width along the horizontal axis (sin angle = 0) and half the
    height along the vertical one (cos angle = 0); it is the radius for
    every angle when width and height are equal; and it takes the same
    value at the opposite angle and at the mirrored angle. *)
Theorem distanceToBorder_between_semi_axes (Ctx : Type)
    (needsRefresh : Ellipse -> bool -> bool -> bool)
    (getDimensionsFromLabel : Ellipse -> Ctx -> bool -> bool -> Dimensions)
    (this : Ellipse) (ctx : option Ctx) (angle : R) :
  let d := fst (distanceToBorder Ctx needsRefresh getDimensionsFromLabel this ctx angle) in
  let this' := snd (distanceToBorder Ctx needsRefresh getDimensionsFromLabel this ctx angle) in
  let size := usedSize Ctx needsRefresh getDimensionsFromLabel this ctx in
  0 < fst size -> 0 < snd size ->
  Rmin (fst size / 2) (snd size / 2) <= d <= Rmax (fst size / 2) (snd size / 2) /\
  (sin angle = 0 -> d = fst size / 2) /\
  (cos angle = 0 -> d = snd size / 2) /\
  (fst size = snd size -> d = fst size / 2) /\
  fst (distanceToBorder Ctx needsRefresh getDimensionsFromLabel this' None (angle + PI)) = d /\
  fst (distanceToBorder Ctx needsRefresh getDimensionsFromLabel this' None (- angle)) = d.
Proof.
  pose proof (resized_usedSize Ctx needsRefresh getDimensionsFromLabel this ctx) as Hsize.
  unfold distanceToBorder; cbn [fst snd]; cbv zeta in *.
  set (e := match ctx with
             | Some c => resize Ctx needsRefresh getDimensionsFromLabel this c
             | None => this
             end) in *.
  destruct Hsize as [<- <-].
  intros Hw Hh.
  rewrite !half_mult.
  set (a := width e / 2). set (b := height e / 2).
  assert (Ha : 0 < a) by (unfold a; lra).
  assert (Hb : 0 < b) by (unfold b; lra).
  pose proof (sin2_cos2 angle) as Hsc. unfold Rsqr in Hsc.
  split; [apply (ellipse_radial_bounds a b angle Ha Hb)|].
  split; [|split; [|split; [|split]]].
  - intros Hs. rewrite Hs in *.
    replace (0 * a * (0 * a) + cos angle * b * (cos angle * b))
      with ((Rabs (cos angle) * b) * (Rabs (cos angle) * b)).
    + assert (Hc : Rabs (cos angle) = 1).
      { assert (cos angle * cos angle = 1) by lra.
        destruct (Rcase_abs (cos angle));
          [rewrite Rabs_left by lra|rewrite Rabs_right by lra]; nra. }
      rewrite Hc, Rmult_1_l, sqrt_square by lra. field. lra.
    + assert (Rabs (cos angle) * Rabs (cos angle) = cos angle * cos angle).
      { destruct (Rcase_abs (cos angle));
          [rewrite Rabs_left by lra|rewrite Rabs_right by lra]; ring. }
      nra.
  - intros Hc. rewrite Hc in *.
    replace (sin angle * a * (sin angle * a) + 0 * b * (0 * b))
      with ((Rabs (sin angle) * a) * (Rabs (sin angle) * a)).
    + assert (Hs : Rabs (sin angle) = 1).
      { assert (sin angle * sin angle = 1) by lra.
        destruct (Rcase_abs (sin angle));
          [rewrite Rabs_left by lra|rewrite Rabs_right by lra]; nra. }
      rewrite Hs, Rmult_1_l, sqrt_square by lra. field. lra.
    + assert (Rabs (sin angle) * Rabs (sin angle) = sin angle * sin angle).
      { destruct (Rcase_abs (sin angle));
          [rewrite Rabs_left by lra|rewrite Rabs_right by lra]; ring. }
      nra.
  - intros Heq. assert (Hab : b = a) by (unfold a, b; lra). rewrite Hab.
    replace (sin angle * a * (sin angle * a) + cos angle * a * (cos angle * a))
      with (a * a) by (replace (a * a) with ((sin angle * sin angle + cos angle * cos angle) * (a * a))
                         by (rewrite Hsc; ring); ring).
    rewrite sqrt_square by lra. field. lra.
  - rewrite neg_sin, neg_cos. f_equal. f_equal. ring.
  - rewrite sin_neg, cos_neg. f_equal. f_equal. ring.
Qed.

Lemma distanceToBorder_between_semi_axes_witness :
  let this := mkEllipse 10 10 5 false false in
  let d := fst (distanceToBorder unit (fun _ _ _ => true)
                  (fun _ _ _ _ => mkDimensions 3 1) this (Some tt) 1) in
  Rmin ((3 + 1) / 2) (2 * 1 / 2) <= d <= Rmax ((3 + 1) / 2) (2 * 1 / 2).
Proof.
  pose proof (distanceToBorder_between_semi_axes unit (fun _ _ _ => true)
                (fun _ _ _ _ => mkDimensions 3 1)
                (mkEllipse 10 10 5 false false) (Some tt) 1) as H.
  cbv zeta in H. cbn [usedSize fst snd selected hover dim_width dim_height] in H.
  destruct H as (H1 & _); [lra | lra |].
  exact H1.
Defined.

(** X13.  [Ellipse.draw] returns if and only if the body holds a node
    under [options.labelOfNode].  Otherwise it throws on reading the
    selected flag of that node, once the shape has been resized and
    placed around (x, y) and before anything is drawn; this is the case
    of every shape without a [labelOfNode] in a body that has no node
    called undefined. *)
Theorem draw_needs_labelled_node (Ctx Values : Type)
    (needsRefresh : Ellipse -> bool -> bool -> bool)
    (getDimensionsFromLabel : Ellipse -> Ctx -> bool -> bool -> Dimensions)
    (initContextForDraw : EllipseShape -> Ctx -> Values -> Ctx)
    (drawRoundRect : Ctx -> R -> R -> R -> R -> R -> Ctx)
    (ctx_stroke : Ctx -> Ctx)
    (updateBoundingBox : EllipseShape -> R -> R -> Ctx -> bool -> bool -> EllipseShape)
    (labelModule_draw : EllipseShape -> Ctx -> R -> R -> bool -> bool -> EllipseShape * Ctx)
    (this : EllipseShape) (ctx : Ctx) (x y : R) (selected hover : bool) (values : Values) :
  let result :=
    draw Ctx Values needsRefresh getDimensionsFromLabel initContextForDraw drawRoundRect
         ctx_stroke updateBoundingBox labelModule_draw this ctx x y selected hover values in
  let ellipse := resize_flags Ctx needsRefresh getDimensionsFromLabel
                   (es_ellipse this) ctx selected hover in
  ((exists state, result = Returns state) <-> is_Some (labelledNode this)) /\
  (labelledNode this = None ->
   result = ThrowsTypeError
              (mkEllipseShape ellipse (x - width ellipse / 2) (y - height ellipse / 2)
                              (es_options this) (es_body_nodes this), ctx)) /\
  (so_labelOfNode (es_options this) = None ->
   es_body_nodes this !! "undefined" = None ->
   exists state, result = ThrowsTypeError state).
Proof.
  cbv zeta. unfold draw.
  assert (Hsame : forall e l t,
            labelledNode (mkEllipseShape e l t (es_options this) (es_body_nodes this))
            = labelledNode this) by reflexivity.
  destruct (labelledNode this) as [node|] eqn:Hnode.
  - split; [|split].
    + split; [intros _; eexists; reflexivity|intros _].
      destruct (so_isLabelNode (es_options this)); cbv beta iota zeta;
        rewrite Hsame; eexists; reflexivity.
    + intros H; discriminate H.
    + intros Hl Hu. unfold labelledNode in Hnode. rewrite Hl in Hnode.
      cbn [default] in Hnode. rewrite Hu in Hnode. discriminate Hnode.
  - assert (Hif : (if so_isLabelNode (es_options this) then (x, y) else (x, y)) = (x, y))
      by (destruct (so_isLabelNode (es_options this)); reflexivity).
    rewrite Hif. cbv beta iota zeta. rewrite Hsame, !half_mult.
    split; [|split].
    + split; [intros [state H]; discriminate H|intros [? H]; discriminate H].
    + intros _. reflexivity.
    + intros _ _. eexists; reflexivity.
Qed.

Lemma draw_needs_labelled_node_witness :
  exists state,
    draw unit unit (fun _ _ _ => false) (fun _ _ _ _ => mkDimensions 0 0)
         (fun _ ctx _ => ctx) (fun ctx _ _ _ _ _ => ctx) (fun ctx => ctx)
         (fun this _ _ _ _ _ => this) (fun this ctx _ _ _ _ => (this, ctx))
         (mkEllipseShape (mkEllipse 10 10 5 false false) 0 0
                         (mkShapeOptions false None None) ∅)
         tt 0 0 false false tt
    = ThrowsTypeError state.
Proof.
  apply (proj2 (proj2 (draw_needs_labelled_node unit unit
           (fun _ _ _ => false) (fun _ _ _ _ => mkDimensions 0 0)
           (fun _ ctx _ => ctx) (fun ctx _ _ _ _ _ => ctx) (fun ctx => ctx)
           (fun this _ _ _ _ _ => this) (fun this ctx _ _ _ _ => (this, ctx))
           (mkEllipseShape (mkEllipse 10 10 5 false false) 0 0
                           (mkShapeOptions false None None) ∅)
           tt 0 0 false false tt))).
  - reflexivity.
  - reflexivity.
Defined.

(** *** The bounding box of a ShapeBase *)

(** X14.  For a size that is not negative, [updateBoundingBox] leaves a
    box that contains the square of half side [size] around (x, y), whose
    top is y - size, and whose left is not right of its right and top not
    below its bottom.  The box does not depend on the box before the
    call: whatever that box was, the result is the same.  Without a label
    of positive width the box is the square; with one, the left side is
    the lesser of x - size and the left of the label, the right side the
    greater of x + size and the right of the label, and the bottom the
    greater of y + size and y + size plus the height of the label. *)
Theorem updateBoundingBox_contains_shape (this : ShapeBase) (x y : R) :
  0 <= sb_options_size this ->
  let size := sb_options_size this in
  let label := sb_labelModule_size this in
  let box := sb_boundingBox (updateBoundingBox this x y) in
  bb_left box <= x - size /\ x + size <= bb_right box /\
  bb_top box = y - size /\ y + size <= bb_bottom box /\
  bb_left box <= bb_right box /\ bb_top box <= bb_bottom box /\
  updateBoundingBox (updateBoundingBox this x y) x y = updateBoundingBox this x y /\
  (forall before : BoundingBox,
     sb_boundingBox
       (updateBoundingBox
          (mkShapeBase size (sb_options_label this) label before) x y) = box) /\
  (sb_options_label this = None \/ ls_width label <= 0 ->
   box = mkBoundingBox (y - size) (x - size) (x + size) (y + size)) /\
  (sb_options_label this <> None -> 0 < ls_width label ->
   box = mkBoundingBox (y - size)
                       (Rmin (x - size) (ls_left label))
                       (Rmax (x + size) (ls_left label + ls_width label))
                       (Rmax (y + size) (y + size + ls_height label))).
Proof.
  intros Hsize. cbv zeta. unfold updateBoundingBox; cbn [sb_boundingBox sb_options_size sb_options_label sb_labelModule_size].
  set (size := sb_options_size this) in *.
  set (ls := sb_labelModule_size this).
  destruct (bool_decide (sb_options_label this <> None) &&
            bool_decide (0 < ls_width ls)) eqn:Hc; cbn [bb_left bb_right bb_top bb_bottom].
  - pose proof (Rmin_l (x - size) (ls_left ls)).
    pose proof (Rmax_l (x + size) (ls_left ls + ls_width ls)).
    pose proof (Rmax_l (y + size) (y + size + ls_height ls)).
    repeat (split; [lra|]).
    split; [reflexivity|]. split; [reflexivity|].
    apply andb_true_iff in Hc as [Hc1 Hc2].
    apply bool_decide_eq_true in Hc1. apply bool_decide_eq_true in Hc2.
    split; [intros [Hl|Hw]; [contradiction|lra]|]. reflexivity.
  - repeat (split; [lra|]).
    split; [reflexivity|]. split; [reflexivity|].
    split; [reflexivity|]. intros Hl Hw.
    rewrite (bool_decide_eq_true_2 _ Hl), (bool_decide_eq_true_2 _ Hw) in Hc.
    discriminate Hc.
Qed.

Lemma updateBoundingBox_contains_shape_witness :
  let this := mkShapeBase 10 (Some "label") (mkLabelSize (-20) 40 14)
                          (mkBoundingBox 0 0 0 0) in
  let box := sb_boundingBox (updateBoundingBox this 0 0) in
  bb_left box <= 0 - 10 /\ 0 + 10 <= bb_right box /\ bb_top box = 0 - 10 /\
  forall before : BoundingBox,
    sb_boundingBox
      (updateBoundingBox
         (mkShapeBase 10 (Some "label") (mkLabelSize (-20) 40 14) before) 0 0) = box.
Proof.
  pose proof (updateBoundingBox_contains_shape
                (mkShapeBase 10 (Some "label") (mkLabelSize (-20) 40 14)
                             (mkBoundingBox 0 0 0 0)) 0 0) as H.
  cbn [sb_options_size sb_options_label sb_labelModule_size] in H.
  destruct H as (H1 & H2 & H3 & _ & _ & _ & _ & H8 & _); [lra|].
  split; [exact H1|]. split; [exact H2|]. split; [exact H3|exact H8].
Defined.

End GeometryFacts.

(** ** Properties of the handler *)

Module SelectionFacts.

Import Geometry Selection.

(** ** Properties of the hit test *)

Section EdgeAt.

Variables (canvasPos : Point) (h : Handler).

(** An edge is measured only if it is connected. *)
Lemma edgeDistance_connected (edgeId : Id) (d : R) :
  edgeDistance canvasPos edgeId h = Some d ->
  exists edge, body_edges h !! edgeId = Some edge /\ edge_connected edge = true.
Proof.
  unfold edgeDistance. intros Hd.
  destruct (body_edges h !! edgeId) as [edge|]; [|discriminate].
  destruct (edge_connected edge) eqn:Hc; [|discriminate].
  exists edge. split; [reflexivity | assumption].
Qed.

Lemma edgeDistance_not_connected (edgeId : Id) (edge : Edge) :
  body_edges h !! edgeId = Some edge -> edge_connected edge = false ->
  edgeDistance canvasPos edgeId h = None.
Proof. unfold edgeDistance. intros -> ->. reflexivity. Qed.

Lemma edgeAtLoop_invariant (l : list Id) (st0 : option Id * R) :
  edgeAtInvariant canvasPos h l st0 (edgeAtLoop canvasPos h l st0).
Proof.
  unfold edgeAtLoop.
  induction l as [|x l IH] using rev_ind.
  { split; [intros e d He; inversion He | left; reflexivity]. }
  rewrite fold_left_app. cbn [fold_left].
  set (st := fold_left (edgeAtStep canvasPos h) l st0) in *.
  destruct IH as [Hlow Hsel].
  assert (Hmono : (snd st <= snd st0)%R).
  { destruct Hsel as [->|(l1 & e & l2 & d & _ & -> & _ & Hd & _)]; simpl; lra. }
  unfold edgeAtStep.
  destruct (edgeDistance canvasPos x h) as [dist|] eqn:Hx.
  - destruct (decide (dist < snd st)%R) as [Hlt|Hge].
    + split.
      * intros e d He Hd. cbn [snd].
        apply elem_of_app in He as [He|He].
        -- specialize (Hlow e d He Hd). lra.
        -- apply list_elem_of_singleton in He as ->.
           rewrite Hx in Hd. injection Hd as ->. lra.
      * right. exists l, x, [], dist.
        split; [reflexivity|]. split; [reflexivity|]. split; [assumption|].
        split; [lra|].
        intros e' d' He' Hd'. specialize (Hlow e' d' He' Hd'). lra.
    + split.
      * intros e d He Hd.
        apply elem_of_app in He as [He|He]; [eauto|].
        apply list_elem_of_singleton in He as ->.
        rewrite Hx in Hd. injection Hd as ->. lra.
      * destruct Hsel as [->|(l1 & e & l2 & d & -> & -> & He & Hd & Hfirst)];
          [left; reflexivity|right].
        exists l1, e, (l2 ++ [x]), d.
        rewrite <- app_assoc. repeat split; assumption.
  - split.
    + intros e d He Hd.
      apply elem_of_app in He as [He|He]; [eauto|].
      apply list_elem_of_singleton in He as ->. congruence.
    + destruct Hsel as [->|(l1 & e & l2 & d & -> & -> & He & Hd & Hfirst)];
        [left; reflexivity|right].
      exists l1, e, (l2 ++ [x]), d.
      rewrite <- app_assoc. repeat split; assumption.
Qed.

End EdgeAt.

Lemma oneEdgeBody_distance (y : R) :
  (0 <= y)%R ->
  edgeDistance (mkPoint 50 y) "e" oneEdgeBody = Some y.
Proof.
  intros Hy. unfold edgeDistance, oneEdgeBody; cbn [body_edges body_nodes].
  rewrite lookup_insert_eq. cbn [straightEdge edge_connected edge_fromId edge_toId].
  rewrite lookup_insert_eq.
  rewrite lookup_insert_ne by discriminate. rewrite lookup_insert_eq.
  cbn [plainNode straightEdge node_x node_y edge_getDistanceToEdge px py].
  f_equal. unfold _getDistanceToLine.
  replace (((50 - 0) * (100 - 0) + (y - 0) * (0 - 0)) /
           ((100 - 0) * (100 - 0) + (0 - 0) * (0 - 0)))%R with (1 / 2)%R by (field; lra).
  destruct (decide (1 < 1 / 2)%R); [lra|].
  destruct (decide (1 / 2 < 0)%R); [lra|].
  replace ((0 + 1 / 2 * (100 - 0) - 50) * (0 + 1 / 2 * (100 - 0) - 50) +
           (0 + 1 / 2 * (0 - 0) - y) * (0 + 1 / 2 * (0 - 0) - y))%R
    with (y * y)%R by field.
  apply sqrt_square. assumption.
Qed.

Lemma oneEdgeBody_hit (y : R) :
  (0 <= y < 10)%R -> fst (getEdgeAt (mkPointer 50 y) oneEdgeBody) = Some "e".
Proof.
  intros Hy.
  unfold getEdgeAt, edgeAtLoop; cbn [fst fold_left body_edgeIndices record oneEdgeBody].
  unfold edgeAtStep.
  change (edgeDistance _ "e" _) with (edgeDistance (mkPoint 50 y) "e" oneEdgeBody).
  rewrite oneEdgeBody_distance by lra.
  cbn [snd]. destruct (decide (y < 10)%R); [reflexivity|lra].
Qed.

Lemma oneEdgeBody_miss (y : R) :
  (10 <= y)%R -> fst (getEdgeAt (mkPointer 50 y) oneEdgeBody) = None.
Proof.
  intros Hy.
  unfold getEdgeAt, edgeAtLoop; cbn [fst fold_left body_edgeIndices record oneEdgeBody].
  unfold edgeAtStep.
  change (edgeDistance _ "e" _) with (edgeDistance (mkPoint 50 y) "e" oneEdgeBody).
  rewrite oneEdgeBody_distance by lra.
  cbn [snd]. destruct (decide (y < 10)%R); [lra|reflexivity].
Qed.

(** The distance the loop of [getEdgeAt] computes for an edge is its
    distance as a connected edge. *)
Lemma edgeDistance_connectedDistance (canvasPos : Point) (h : Handler) (e : Id) (d : R) :
  edgeDistance canvasPos e h = Some d <-> connectedDistance canvasPos h e d.
Proof.
  unfold edgeDistance, connectedDistance. split.
  - intros Hd.
    destruct (body_edges h !! e) as [edge|]; [|discriminate].
    destruct (edge_connected edge) eqn:Hc; [|discriminate].
    destruct (body_nodes h !! edge_fromId edge) as [from|] eqn:Hf; [|discriminate].
    destruct (body_nodes h !! edge_toId edge) as [to|] eqn:Ht; [|discriminate].
    exists edge, from, to. injection Hd as <-. repeat split; assumption.
  - intros (edge & from & to & -> & -> & -> & -> & ->). reflexivity.
Qed.

(** C6.  In a body whose edge indices all lead to an edge, and whose
    connected edges have both end nodes, [getEdgeAt] returns an edge
    exactly when some connected edge of [edgeIndices] is at a distance
    below 10 from the canvas position of the pointer, the distance being
    that of the edge's own [getDistanceToEdge]; it then returns the first
    edge, in the order of [edgeIndices], whose distance is the minimum
    over the connected edges, and otherwise undefined.  Edges that are not
    connected are passed over, and every connected edge is measured.  On
    a straight edge, a pointer 9 units from the midpoint hits it and a
    pointer 11 units away does not. *)
Theorem getEdgeAt_closest_within_tolerance (pointer : Pointer) (h : Handler) :
  edgesWellFormed h ->
  let canvasPos := canvas_DOMtoCanvas h pointer in
  let dist := connectedDistance canvasPos h in
  (forall e, fst (getEdgeAt pointer h) = Some e ->
     exists l1 l2 d,
       body_edgeIndices h = l1 ++ e :: l2 /\ dist e d /\ (d < 10)%R /\
       (forall e' d', e' ∈ body_edgeIndices h -> dist e' d' -> (d <= d')%R) /\
       (forall e' d', e' ∈ l1 -> dist e' d' -> (d < d')%R)) /\
  (is_Some (fst (getEdgeAt pointer h)) <->
     exists e d, e ∈ body_edgeIndices h /\ dist e d /\ (d < 10)%R) /\
  (fst (getEdgeAt pointer h) = None <->
     forall e d, e ∈ body_edgeIndices h -> dist e d -> (10 <= d)%R) /\
  (forall e edge, e ∈ body_edgeIndices h -> body_edges h !! e = Some edge ->
     if edge_connected edge then exists d, dist e d
     else forall d, ~ dist e d) /\
  fst (getEdgeAt (mkPointer 50 9) oneEdgeBody) = Some "e" /\
  fst (getEdgeAt (mkPointer 50 11) oneEdgeBody) = None.
Proof.
  intros Hwf canvasPos dist.
  assert (Hinv := edgeAtLoop_invariant canvasPos (record (CallGetEdgeAt pointer) h)
                    (body_edgeIndices h) (None, 10%R)).
  assert (Hfst : fst (getEdgeAt pointer h) =
                 fst (edgeAtLoop canvasPos (record (CallGetEdgeAt pointer) h)
                        (body_edgeIndices h) (None, 10%R))) by reflexivity.
  assert (Hdist : forall e d, edgeDistance canvasPos e (record (CallGetEdgeAt pointer) h)
                              = Some d <-> dist e d).
  { intros e d. apply (edgeDistance_connectedDistance canvasPos h e d). }
  destruct Hinv as [Hlow Hsel]. rewrite Hfst.
  destruct (edgeAtLoop canvasPos (record (CallGetEdgeAt pointer) h)
              (body_edgeIndices h) (None, 10%R)) as [o m].
  cbn [fst snd] in *.
  assert (Hsome : is_Some o <->
            exists e d, e ∈ body_edgeIndices h /\ dist e d /\ (d < 10)%R).
  { split.
    - intros [e ->].
      destruct Hsel as [Heq|(l1 & e' & l2 & d & Hl & Heq & Hd & Hlt & Hfirst)];
        [discriminate|].
      injection Heq as -> ->.
      exists e', d. rewrite Hl. apply (proj1 (Hdist _ _)) in Hd.
      split; [apply elem_of_app; right; apply elem_of_cons; left; reflexivity|].
      split; assumption.
    - intros (e & d & He & Hd & Hlt). apply (proj2 (Hdist _ _)) in Hd.
      destruct Hsel as [Heq|(l1 & e' & l2 & d' & Hl & Heq & _)].
      + injection Heq as -> ->. specialize (Hlow e d He Hd). lra.
      + injection Heq as -> ->. eexists; reflexivity. }
  split; [|split; [exact Hsome|split; [|split]]].
  - intros e ->.
    destruct Hsel as [Heq|(l1 & e' & l2 & d & Hl & Heq & Hd & Hlt & Hfirst)];
      [discriminate|].
    injection Heq as -> ->.
    exists l1, l2, d. apply (proj1 (Hdist _ _)) in Hd.
    split; [assumption|]. split; [assumption|]. split; [assumption|].
    split.
    + intros e2 d2 He2 Hd2. apply (proj2 (Hdist _ _)) in Hd2. exact (Hlow e2 d2 He2 Hd2).
    + intros e2 d2 He2 Hd2. apply (proj2 (Hdist _ _)) in Hd2. exact (Hfirst e2 d2 He2 Hd2).
  - rewrite <- not_eq_None_Some in Hsome. split.
    + intros Hnone e d He Hd.
      destruct (Rle_or_lt 10 d) as [Hle|Hlt]; [exact Hle|].
      exfalso. apply (proj2 Hsome); [|exact Hnone]. exists e, d. repeat split; assumption.
    + intros Hall. destruct o as [e|]; [|reflexivity].
      exfalso. destruct (proj1 Hsome) as (e' & d & He & Hd & Hlt); [congruence|].
      specialize (Hall e' d He Hd). lra.
  - intros e edge He Hedge.
    destruct (Hwf e He) as (edge' & Hedge' & Hends).
    rewrite Hedge in Hedge'. injection Hedge' as <-.
    destruct (edge_connected edge) eqn:Hc.
    + destruct (Hends eq_refl) as [[from Hfrom] [to Hto]].
      eexists. exists edge, from, to. repeat split; eassumption.
    + intros d (edge' & from & to & Hedge' & Hc' & _).
      rewrite Hedge in Hedge'. injection Hedge' as <-. congruence.
  - split; [apply oneEdgeBody_hit; lra | apply oneEdgeBody_miss; lra].
Qed.

Lemma oneEdgeBody_wellFormed : edgesWellFormed oneEdgeBody.
Proof.
  intros e He. unfold oneEdgeBody in He; cbn [body_edgeIndices] in He.
  apply list_elem_of_singleton in He as ->.
  exists (straightEdge "e" "a" "b"). split; [reflexivity|].
  intros _. split; eexists; reflexivity.
Qed.

Lemma getEdgeAt_closest_within_tolerance_witness :
  is_Some (fst (getEdgeAt (mkPointer 50 9) oneEdgeBody)) <->
  exists e d, e ∈ body_edgeIndices oneEdgeBody /\
              connectedDistance (canvas_DOMtoCanvas oneEdgeBody (mkPointer 50 9))
                                oneEdgeBody e d /\ (d < 10)%R.
Proof.
  apply (proj1 (proj2 (getEdgeAt_closest_within_tolerance (mkPointer 50 9) oneEdgeBody
                         oneEdgeBody_wellFormed))).
Defined.

(** ** The order of the steps of selectOnPoint *)

Lemma objectAt_log (pointer : Pointer) (h : Handler) :
  log (snd (objectAt pointer h)) =
    log h ++ CallGetNodeAt pointer ::
      match fst (getNodeAt pointer h) with
      | Some _ => []
      | None => [CallGetEdgeAt pointer]
      end.
Proof.
  unfold objectAt.
  destruct (getNodeAt pointer h) as [node h1] eqn:Hn.
  assert (Hlog : log h1 = log h ++ [CallGetNodeAt pointer])
    by (unfold getNodeAt in Hn; injection Hn as _ <-; reflexivity).
  cbn [fst]. destruct node as [id|]; cbn [snd].
  - assumption.
  - destruct (getEdgeAt pointer h1) as [edge h2] eqn:He.
    unfold getEdgeAt in He. injection He as _ <-.
    cbn [snd record log]. rewrite Hlog, <- app_assoc. reflexivity.
Qed.

Lemma objectAt_result (pointer : Pointer) (h : Handler) :
  fst (objectAt pointer h) =
    match fst (getNodeAt pointer h) with
    | Some id => Some (NodeRef id)
    | None => EdgeRef <$> fst (getEdgeAt pointer h)
    end.
Proof.
  unfold objectAt, getNodeAt. cbn [fst].
  destruct (last _); reflexivity.
Qed.

Lemma selectOnPoint_log (pointer : Pointer) (h : Handler) :
  selectable (options h) = true ->
  log (snd (selectOnPoint pointer h)) =
    log h
    ++ CallGetNodeAt pointer ::
         match fst (getNodeAt pointer h) with
         | Some _ => []
         | None => [CallGetEdgeAt pointer]
         end
    ++ [CallUnselectAll]
    ++ match fst (objectAt pointer h) with
       | Some o =>
           [CallSelectObject (Some o);
            Emit "selectedNodes"
                 (PIds (Some <$> getSelectedNodeIds (snd (selectOnPoint pointer h))))]
       | None => []
       end
    ++ [Emit "_requestRedraw" PNone].
Proof.
  intros Hsel. unfold selectOnPoint. rewrite Hsel.
  pose proof (objectAt_log pointer h) as Hlog.
  destruct (objectAt pointer h) as [obj h1]. cbn [fst snd] in *.
  destruct obj as [o|].
  - unfold selectObject.
    destruct o as [id|id];
      [destruct (selectConnectedEdges (options (record _ (unselectAll h1))))|];
      cbn [snd fst log emit record set_accumulator unselectAll];
      rewrite Hlog; rewrite <- !app_assoc; reflexivity.
  - cbn [snd fst log emit record set_accumulator unselectAll].
    rewrite Hlog, <- !app_assoc. reflexivity.
Qed.

Lemma loggedBefore_cons (a b x : Action) (l : list Action) :
  loggedBefore a b (x :: l) -> (x = a /\ b ∈ l) \/ loggedBefore a b l.
Proof.
  intros (l1 & l2 & l3 & H). destruct l1 as [|y l1]; simpl in H.
  - injection H as -> ->. left. split; [reflexivity|].
    apply elem_of_app. right. left.
  - injection H as -> ->. right. exists l1, l2, l3. reflexivity.
Qed.

Lemma loggedBefore_elem (a b : Action) (l : list Action) :
  loggedBefore a b l -> b ∈ l.
Proof.
  intros (l1 & l2 & l3 & ->).
  apply elem_of_app. right. right. apply elem_of_app. right. left.
Qed.

(** The steps of [selectOnPoint] on the body with one edge, for a pointer
    9 units from the midpoint of the edge. *)
Lemma oneEdgeBody_selectOnPoint :
  log (snd (selectOnPoint (mkPointer 50 9) oneEdgeBody)) =
    [CallGetNodeAt (mkPointer 50 9); CallGetEdgeAt (mkPointer 50 9);
     CallUnselectAll; CallSelectObject (Some (EdgeRef "e"));
     Emit "selectedNodes" (PIds []); Emit "_requestRedraw" PNone].
Proof.
  assert (Hhit := oneEdgeBody_hit 9 ltac:(lra)).
  assert (Hn : fst (getNodeAt (mkPointer 50 9) oneEdgeBody) = None) by reflexivity.
  assert (Ho : fst (objectAt (mkPointer 50 9) oneEdgeBody) = Some (EdgeRef "e"))
    by (rewrite objectAt_result, Hn, Hhit; reflexivity).
  assert (Hs : getSelectedNodeIds (snd (selectOnPoint (mkPointer 50 9) oneEdgeBody)) = []).
  { unfold selectOnPoint. cbn [options oneEdgeBody selectable defaultOptions].
    destruct (objectAt (mkPointer 50 9) _) as [o h1]. cbn [fst] in Ho. subst o.
    reflexivity. }
  rewrite (selectOnPoint_log (mkPointer 50 9) oneEdgeBody eq_refl).
  rewrite Hn, Ho, Hs. reflexivity.
Qed.

(** C7 (as amended).  With selection enabled, [selectOnPoint] first runs
    the hit test at the pointer (a node, falling back to an edge), on the
    state as it is before anything is unselected; then unselects
    everything; then selects the hit object, if any; then requests a
    redraw.  Among the steps of the call the hit test comes before the
    clear of the selection, never after it. *)
Theorem selectOnPoint_order (pointer : Pointer) (h : Handler) :
  selectable (options h) = true ->
  exists steps,
    log (snd (selectOnPoint pointer h)) = log h ++ steps /\
    steps =
      CallGetNodeAt pointer ::
        match fst (getNodeAt pointer h) with
        | Some _ => []
        | None => [CallGetEdgeAt pointer]
        end
      ++ [CallUnselectAll]
      ++ match fst (objectAt pointer h) with
         | Some o =>
             [CallSelectObject (Some o);
              Emit "selectedNodes"
                   (PIds (Some <$> getSelectedNodeIds (snd (selectOnPoint pointer h))))]
         | None => []
         end
      ++ [Emit "_requestRedraw" PNone] /\
    loggedBefore (CallGetNodeAt pointer) CallUnselectAll steps /\
    ~ loggedBefore CallUnselectAll (CallGetNodeAt pointer) steps.
Proof.
  intros Hsel. eexists. split; [apply (selectOnPoint_log pointer h Hsel)|].
  split; [reflexivity|]. split.
  - exists [], (match fst (getNodeAt pointer h) with
                | Some _ => []
                | None => [CallGetEdgeAt pointer]
                end). eexists. reflexivity.
  - intros Hb. apply loggedBefore_cons in Hb as [[Heq _]|Hb]; [discriminate|].
    apply loggedBefore_elem in Hb.
    repeat (apply elem_of_app in Hb as [Hb|Hb]).
    + destruct (fst (getNodeAt pointer h)); [inversion Hb|].
      apply list_elem_of_singleton in Hb. discriminate.
    + apply list_elem_of_singleton in Hb. discriminate.
    + destruct (fst (objectAt pointer h)); [|inversion Hb].
      apply elem_of_cons in Hb as [Hb|Hb]; [discriminate|].
      apply list_elem_of_singleton in Hb. discriminate.
    + apply list_elem_of_singleton in Hb. discriminate.
Qed.

Lemma selectOnPoint_order_witness :
  exists steps,
    log (snd (selectOnPoint (mkPointer 50 9) oneEdgeBody)) = log oneEdgeBody ++ steps /\
    loggedBefore (CallGetNodeAt (mkPointer 50 9)) CallUnselectAll steps.
Proof.
  destruct (selectOnPoint_order (mkPointer 50 9) oneEdgeBody eq_refl)
    as (steps & Hlog & _ & Hbefore & _).
  exists steps. split; assumption.
Defined.

(** The claim as stated fails: on the body with one edge the selection is
    cleared after the hit test, not before it. *)
Lemma selectOnPoint_clears_after_hit_test :
  selectable (options oneEdgeBody) = true /\
  ~ loggedBefore CallUnselectAll (CallGetNodeAt (mkPointer 50 9))
      (log (snd (selectOnPoint (mkPointer 50 9) oneEdgeBody))).
Proof.
  split; [reflexivity|]. rewrite oneEdgeBody_selectOnPoint. intros Hb.
  repeat (apply loggedBefore_cons in Hb as [[Heq Hb]|Hb]; [try discriminate|]).
  - repeat (apply elem_of_cons in Hb as [Hb|Hb]; [discriminate|]). inversion Hb.
  - destruct Hb as (l1 & l2 & l3 & Hb). destruct l1; discriminate.
Qed.

(** ** Commit and emit *)

Lemma positive_length_nonempty {A : Type} (l : list A) :
  0 < length l <-> l ≠ [].
Proof. destruct l; simpl; split; intros; try lia; congruence. Qed.

Ltac decide_with H :=
  first [ rewrite (bool_decide_eq_true_2 _ H)
        | rewrite (bool_decide_eq_false_2 _ H) ].

(** What [generateClickEvent] emits for an event that is not a click,
    with the selection taken from the accumulator. *)
Lemma generateClickEvent_emits (name : string) (event : UIEvent) (pointer : Pointer)
    (old : option (list Id * list Id)) (h : Handler) :
  name ≠ "click" ->
  generateClickEvent name event pointer old false h =
    record (Emit name
              (PProperties
                 (mkProperties (Some (pointer, canvas_DOMtoCanvas h pointer)) event
                    (Some (getSelectedNodeIds h)) (Some (getSelectedEdgeIds h))
                    old None (event_controlEdge event) None None))) h.
Proof.
  intros Hname. unfold generateClickEvent, emit, clickProperties, _initBaseEvent, getSelection.
  destruct (decide (name = "click")) as [E|_]; [contradiction|].
  cbn [fst snd].
  destruct old as [old|]; destruct (event_controlEdge event); reflexivity.
Qed.

(** A commit keeps the current selection. *)
Lemma commit_current (a : SelectionAccumulator) :
  getNodes (snd (commit a)) = getNodes a /\ getEdges (snd (commit a)) = getEdges a.
Proof. destruct a as [[cn nn] [ce ne]]. split; reflexivity. Qed.

(** C3.  [commitAndEmit] commits the accumulator and then emits, in this
    order: deselectEdge iff edges were deleted, deselectNode iff nodes
    were deleted, selectNode iff nodes were added, selectEdge iff edges
    were added, and select iff one of the four was emitted.  Nothing else
    is emitted.  Every event carries the pointer, the event and the
    selection as it is after the commit; the two deselect events carry as
    previousSelection the committed node and edge sets from before the
    commit, and the three select events carry none. *)
Theorem commitAndEmit_events (pointer : Pointer) (event : UIEvent) (h : Handler) :
  let before := _selectionAccumulator h in
  let changes := fst (commit before) in
  let committedBefore := (committedNodes before, committedEdges before) in
  let properties := fun previousSelection =>
    mkProperties (Some (pointer, canvas_DOMtoCanvas h pointer)) event
                 (Some (getSelectedNodeIds h)) (Some (getSelectedEdgeIds h))
                 previousSelection None (event_controlEdge event) None None in
  log (commitAndEmit pointer event h) =
    log h
    ++ (if bool_decide (deleted (snd changes) ≠ [])
        then [Emit "deselectEdge" (PProperties (properties (Some committedBefore)))] else [])
    ++ (if bool_decide (deleted (fst changes) ≠ [])
        then [Emit "deselectNode" (PProperties (properties (Some committedBefore)))] else [])
    ++ (if bool_decide (added (fst changes) ≠ [])
        then [Emit "selectNode" (PProperties (properties None))] else [])
    ++ (if bool_decide (added (snd changes) ≠ [])
        then [Emit "selectEdge" (PProperties (properties None))] else [])
    ++ (if bool_decide (deleted (snd changes) ≠ [] \/ deleted (fst changes) ≠ [] \/
                        added (fst changes) ≠ [] \/ added (snd changes) ≠ [])
        then [Emit "select" (PProperties (properties None))] else [])
  /\ _selectionAccumulator (commitAndEmit pointer event h) = snd (commit before)
  /\ deleted (fst changes) = filter (fun id => id ∉ getNodes before) (committedNodes before)
  /\ deleted (snd changes) = filter (fun id => id ∉ getEdges before) (committedEdges before)
  /\ added (fst changes) = filter (fun id => id ∉ committedNodes before) (getNodes before)
  /\ added (snd changes) = filter (fun id => id ∉ committedEdges before) (getEdges before).
Proof.
  intros before changes committedBefore properties.
  assert (Hprev : (previous (fst changes), previous (snd changes)) = committedBefore)
    by reflexivity.
  destruct (commit_current before) as [Hnodes Hedges].
  assert (Hemit : forall name old l,
            name ≠ "click" ->
            generateClickEvent name event pointer old false
              (mkHandler (body_nodes h) (body_nodeIndices h) (body_edges h)
                 (body_edgeIndices h) (canvas_DOMtoCanvas h) (snd (commit before))
                 (hoverObj_nodes h) (hoverObj_edges h) (options h) (lastHoveredNodes h)
                 (window_isUserDragging h) (window_wasUserDragging h) l) =
            mkHandler (body_nodes h) (body_nodeIndices h) (body_edges h)
                 (body_edgeIndices h) (canvas_DOMtoCanvas h) (snd (commit before))
                 (hoverObj_nodes h) (hoverObj_edges h) (options h) (lastHoveredNodes h)
                 (window_isUserDragging h) (window_wasUserDragging h)
                 (l ++ [Emit name (PProperties (properties old))])).
  { intros name old l Hname. rewrite (generateClickEvent_emits name) by exact Hname.
    unfold record, properties, getSelectedNodeIds, getSelectedEdgeIds.
    cbn [body_nodes body_nodeIndices body_edges body_edgeIndices canvas_DOMtoCanvas
         _selectionAccumulator hoverObj_nodes hoverObj_edges options lastHoveredNodes
         window_isUserDragging window_wasUserDragging log].
    fold before. rewrite Hnodes, Hedges. reflexivity. }
  unfold commitAndEmit. fold before. fold changes. rewrite Hprev.
  unfold set_accumulator. fold before.
  destruct (decide (0 < length (deleted (snd changes)))) as [H1|H1];
    destruct (decide (0 < length (deleted (fst changes)))) as [H2|H2];
    destruct (decide (0 < length (added (fst changes)))) as [H3|H3];
    destruct (decide (0 < length (added (snd changes)))) as [H4|H4];
    rewrite positive_length_nonempty in H1, H2, H3, H4;
    decide_with H1; decide_with H2; decide_with H3; decide_with H4;
    first [ rewrite bool_decide_eq_true_2
              by (first [ left; assumption
                        | right; left; assumption
                        | right; right; left; assumption
                        | right; right; right; assumption ])
          | rewrite bool_decide_eq_false_2 by (intros [?|[?|[?|?]]]; contradiction) ];
    rewrite ?Hemit by discriminate;
    cbn [log _selectionAccumulator app];
    (split; [rewrite <- ?app_assoc, ?app_nil_r; reflexivity|]);
    (split; [reflexivity|]); repeat split.
Qed.

(** ** setSelection and the committed selection *)

Lemma sameCommitted_refl (h : Handler) : sameCommitted h h.
Proof. repeat split. Qed.

Lemma sameCommitted_trans (h1 h2 h3 : Handler) :
  sameCommitted h1 h2 -> sameCommitted h2 h3 -> sameCommitted h1 h3.
Proof.
  intros (A1 & A2 & A3 & A4) (B1 & B2 & B3 & B4).
  repeat split; congruence.
Qed.

Lemma unselectAll_sameCommitted (h : Handler) : sameCommitted h (unselectAll h).
Proof. repeat split. Qed.

Lemma selectObject_sameCommitted (obj : option ObjRef) (highlightEdges : option bool)
    (h : Handler) :
  sameCommitted h (snd (selectObject obj highlightEdges h)).
Proof.
  unfold selectObject.
  destruct obj as [[id|id]|]; [|repeat split..].
  destruct (match highlightEdges with
            | Some b => b
            | None => selectConnectedEdges (options (record (CallSelectObject (Some (NodeRef id))) h))
            end); repeat split.
Qed.

Lemma selectNodeIds_outcome (ids : list Id) (highlightEdges : option bool) :
  forall h : Handler,
    let '(c, h') := selectNodeIds ids highlightEdges h in
    sameCommitted h h' /\
    ((c = Normal /\ forall id, id ∈ ids -> is_Some (body_nodes h !! id)) \/
     (exists id, c = Thrown (nodeNotFound id) /\ id ∈ ids /\ body_nodes h !! id = None)).
Proof.
  induction ids as [|id rest IH]; intros h; cbn [selectNodeIds].
  { split; [apply sameCommitted_refl|]. left. split; [reflexivity|].
    intros id Hid. inversion Hid. }
  destruct (body_nodes h !! id) as [node|] eqn:Hnode.
  - set (h1 := if node_isLabelNode node then h
               else snd (selectObject (Some (NodeRef id)) highlightEdges h)).
    assert (Hsame : sameCommitted h h1).
    { unfold h1. destruct (node_isLabelNode node);
        [apply sameCommitted_refl | apply selectObject_sameCommitted]. }
    specialize (IH h1). destruct (selectNodeIds rest highlightEdges h1) as [c h'].
    destruct IH as [Hsame' Hc].
    split; [eapply sameCommitted_trans; eassumption|].
    destruct Hsame as (Hn & _). rewrite Hn in Hc.
    destruct Hc as [[-> Hall]|(bad & -> & Hin & Hbad)].
    + left. split; [reflexivity|]. intros x Hx.
      apply elem_of_cons in Hx as [->|Hx]; [rewrite Hnode; eauto | auto].
    + right. exists bad. split; [reflexivity|]. split; [|assumption].
      apply elem_of_cons. right. assumption.
  - split; [apply sameCommitted_refl|]. right. exists id.
    split; [reflexivity|]. split; [left | assumption].
Qed.

Lemma selectEdgeIds_outcome (ids : list Id) :
  forall h : Handler,
    let '(c, h') := selectEdgeIds ids h in
    sameCommitted h h' /\
    ((c = Normal /\ forall id, id ∈ ids -> is_Some (body_edges h !! id)) \/
     (exists id, c = Thrown (edgeNotFound id) /\ id ∈ ids /\ body_edges h !! id = None)).
Proof.
  induction ids as [|id rest IH]; intros h; cbn [selectEdgeIds].
  { split; [apply sameCommitted_refl|]. left. split; [reflexivity|].
    intros id Hid. inversion Hid. }
  destruct (body_edges h !! id) as [edge|] eqn:Hedge.
  - set (h1 := snd (selectObject (Some (EdgeRef id)) None h)).
    assert (Hsame : sameCommitted h h1) by apply selectObject_sameCommitted.
    specialize (IH h1). destruct (selectEdgeIds rest h1) as [c h'].
    destruct IH as [Hsame' Hc].
    split; [eapply sameCommitted_trans; eassumption|].
    destruct Hsame as (_ & He & _). rewrite He in Hc.
    destruct Hc as [[-> Hall]|(bad & -> & Hin & Hbad)].
    + left. split; [reflexivity|]. intros x Hx.
      apply elem_of_cons in Hx as [->|Hx]; [rewrite Hedge; eauto | auto].
    + right. exists bad. split; [reflexivity|]. split; [|assumption].
      apply elem_of_cons. right. assumption.
  - split; [apply sameCommitted_refl|]. right. exists id.
    split; [reflexivity|]. split; [left | assumption].
Qed.

(** C2.  [setSelection] throws the malformed-argument error (a TypeError)
    when its argument lacks both a nodes and an edges property, and then
    changes nothing; it throws an unknown-id error (a RangeError) when a
    supplied node or edge id is absent from the graph, and then the
    committed node and edge sets are the ones from before the call. *)
Theorem setSelection_errors (selection : option SelectionArg)
    (opts : SetSelectionOptions) (h : Handler) :
  (malformed selection ->
   setSelection selection opts h = (Thrown malformedSelection, h)) /\
  (forall s, selection = Some s -> hasUnknownId s h ->
   exists message h',
     setSelection selection opts h = (Thrown (RangeError message), h') /\
     committedNodes (_selectionAccumulator h') = committedNodes (_selectionAccumulator h) /\
     committedEdges (_selectionAccumulator h') = committedEdges (_selectionAccumulator h)).
Proof.
  split.
  - destruct selection as [s|]; cbn [malformed setSelection]; [|reflexivity].
    intros [-> ->]. reflexivity.
  - intros s -> Hunknown. cbn [setSelection].
    set (h0 := match opt_unselectAll opts with
               | Some true | None => unselectAll h
               | Some false => h
               end).
    assert (H0 : sameCommitted h h0).
    { unfold h0. destruct (opt_unselectAll opts) as [[]|];
        first [apply unselectAll_sameCommitted | apply sameCommitted_refl]. }
    assert (Hbody : (exists x, sel_nodes s = Some x) \/ (exists x, sel_edges s = Some x)).
    { destruct Hunknown as [(ids & _ & -> & _)|(ids & _ & -> & _)]; eauto. }
    assert (Hnodes :
      let '(c, h1) := match sel_nodes s with
                      | Some ids => selectNodeIds ids (opt_highlightEdges opts) h0
                      | None => (Normal, h0)
                      end in
      sameCommitted h h1 /\
      ((c = Normal /\ forall ids id, sel_nodes s = Some ids -> id ∈ ids ->
                        is_Some (body_nodes h !! id)) \/
       (exists id, c = Thrown (nodeNotFound id)))).
    { destruct (sel_nodes s) as [ids|].
      - pose proof (selectNodeIds_outcome ids (opt_highlightEdges opts) h0) as Hout.
        destruct (selectNodeIds ids (opt_highlightEdges opts) h0) as [c h1].
        destruct Hout as [Hsame Hc].
        split; [eapply sameCommitted_trans; eassumption|].
        destruct H0 as (Hn & _). rewrite Hn in Hc.
        destruct Hc as [[-> Hall]|(bad & -> & _)]; [left|right; eauto].
        split; [reflexivity|]. intros ids' id [= <-]. apply Hall.
      - split; [assumption|]. left. split; [reflexivity|]. discriminate. }
    destruct (match sel_nodes s with
              | Some ids => selectNodeIds ids (opt_highlightEdges opts) h0
              | None => (Normal, h0)
              end) as [c h1].
    destruct Hnodes as [H1 Hc].
    assert (Hgoal :
      exists message h',
        match c with
        | Thrown e => (Thrown e, h1)
        | Normal =>
            let '(c, h) := match sel_edges s with
                           | Some ids => selectEdgeIds ids h1
                           | None => (Normal, h1)
                           end in
            match c with
            | Thrown e => (Thrown e, h)
            | Normal => (Normal, commitWithoutEmitting (emit "_requestRedraw" PNone h))
            end
        end = (Thrown (RangeError message), h') /\
        sameCommitted h h').
    { destruct Hc as [[-> Hall]|(bad & ->)]; [|eexists _, h1; split; [reflexivity|assumption]].
      destruct Hunknown as [(ids & id & Hs & Hin & Hnone)|(ids & id & Hs & Hin & Hnone)].
      { destruct (Hall ids id Hs Hin) as [x Hx]. congruence. }
      rewrite Hs.
      pose proof (selectEdgeIds_outcome ids h1) as Hout.
      destruct (selectEdgeIds ids h1) as [c2 h2].
      destruct Hout as [H2 Hc2].
      destruct H1 as (Hn1 & He1 & Hcn1 & Hce1). rewrite He1 in Hc2.
      destruct Hc2 as [[-> Hall2]|(bad & -> & _)].
      - destruct (Hall2 id Hin) as [x Hx]. congruence.
      - eexists _, h2. split; [reflexivity|].
        eapply sameCommitted_trans; [|eassumption]. repeat split; assumption. }
    destruct Hgoal as (message & h' & Heq & (_ & _ & Hcn & Hce)).
    exists message, h'.
    split; [|split; assumption].
    destruct (sel_nodes s), (sel_edges s); try exact Heq.
    destruct Hbody as [[? ?]|[? ?]]; discriminate.
Qed.

Lemma setSelection_errors_witness :
  exists message h',
    setSelection (Some (mkSelectionArg (Some ["missing"]) None))
                 (mkSetSelectionOptions None None) oneEdgeBody
    = (Thrown (RangeError message), h') /\
    committedNodes (_selectionAccumulator h') = committedNodes (_selectionAccumulator oneEdgeBody) /\
    committedEdges (_selectionAccumulator h') = committedEdges (_selectionAccumulator oneEdgeBody).
Proof.
  apply (proj2 (setSelection_errors (Some (mkSelectionArg (Some ["missing"]) None))
                  (mkSetSelectionOptions None None) oneEdgeBody)
               _ eq_refl).
  left. exists ["missing"], "missing".
  split; [reflexivity|]. split; [left|reflexivity].
Defined.

(** ** Connected-edge highlighting *)

(** The index loop over [this.body.nodes] never runs its body. *)
Lemma body_nodes_length_not_a_number (i : nat) (h : Handler) :
  lessThan i (body_nodes_length h) = false.
Proof. unfold body_nodes_length. destruct (body_nodes h !! "length"); reflexivity. Qed.

Lemma hoverIndexedNodes_skip (fuel i : nat) (h : Handler) :
  hoverIndexedNodes (S fuel) i h = Some h.
Proof. cbn [hoverIndexedNodes]. rewrite body_nodes_length_not_a_number. reflexivity. Qed.

Lemma _hoverConnectedEdges_result (fuel : nat) (node : Id) (h : Handler) :
  _hoverConnectedEdges (S fuel) node h = Some (hoverEdgesOf (edgesOf node h) h).
Proof. unfold _hoverConnectedEdges. rewrite hoverIndexedNodes_skip. reflexivity. Qed.

(** The loop over the incident edges writes no node and leaves the node
    hover map alone. *)
Lemma hoverEdgesOf_nodes (edges : list Id) :
  forall h : Handler,
    body_nodes (hoverEdgesOf edges h) = body_nodes h /\
    hoverObj_nodes (hoverEdgesOf edges h) = hoverObj_nodes h /\
    log (hoverEdgesOf edges h) = log h /\
    options (hoverEdgesOf edges h) = options h /\
    window_isUserDragging (hoverEdgesOf edges h) = window_isUserDragging h /\
    window_wasUserDragging (hoverEdgesOf edges h) = window_wasUserDragging h.
Proof.
  induction edges as [|e edges IH]; intros h; [repeat split|].
  cbn [hoverEdgesOf fold_left].
  specialize (IH (_addToHover (EdgeRef e) (setHover (EdgeRef e) true h))).
  exact IH.
Qed.

(** It flags every edge of the list that the body holds, and enters
    every edge of the list in the edge hover map. *)
Lemma hoverEdgesOf_flags (edges : list Id) :
  forall (h : Handler) (e : Id),
    (e ∈ edges \/ (edge_hover <$> body_edges h !! e = Some true)) ->
    is_Some (body_edges h !! e) ->
    edge_hover <$> body_edges (hoverEdgesOf edges h) !! e = Some true.
Proof.
  induction edges as [|x edges IH]; intros h e He Hsome.
  { destruct He as [He|He]; [inversion He | exact He]. }
  cbn [hoverEdgesOf fold_left].
  apply IH.
  - destruct (decide (e = x)) as [->|Hne].
    + right. cbn [_addToHover setHover set_hoverObj_edges set_body_edges body_edges].
      rewrite lookup_alter_eq. destruct Hsome as [edge ->]. reflexivity.
    + destruct He as [He|He].
      * apply elem_of_cons in He as [?|He]; [contradiction | left; assumption].
      * right. cbn [_addToHover setHover set_hoverObj_edges set_body_edges body_edges].
        rewrite lookup_alter_ne by congruence. assumption.
  - cbn [_addToHover setHover set_hoverObj_edges set_body_edges body_edges].
    destruct (decide (e = x)) as [->|Hne].
    + rewrite lookup_alter_eq. destruct Hsome as [edge ->]. eauto.
    + rewrite lookup_alter_ne by congruence. assumption.
Qed.

Lemma hoverEdgesOf_map (edges : list Id) :
  forall (h : Handler) (e : Id),
    (e ∈ edges \/ hoverObj_edges h !! e = Some e) ->
    hoverObj_edges (hoverEdgesOf edges h) !! e = Some e.
Proof.
  induction edges as [|x edges IH]; intros h e He.
  { destruct He as [He|He]; [inversion He | exact He]. }
  cbn [hoverEdgesOf fold_left]. apply IH.
  cbn [_addToHover setHover set_hoverObj_edges set_body_edges hoverObj_edges].
  destruct (decide (e = x)) as [->|Hne].
  - right. apply lookup_insert_eq.
  - destruct He as [He|He].
    + apply elem_of_cons in He as [?|He]; [contradiction | left; assumption].
    + right. rewrite lookup_insert_ne by congruence. assumption.
Qed.

(** The connected-edge step flags the incident edges and no node. *)
Lemma _hoverConnectedEdges_effect (fuel : nat) (node : Id) (h : Handler) :
  exists h',
    _hoverConnectedEdges (S fuel) node h = Some h' /\
    body_nodes h' = body_nodes h /\
    hoverObj_nodes h' = hoverObj_nodes h /\
    forall e, e ∈ edgesOf node h -> is_Some (body_edges h !! e) ->
              edge_hover <$> body_edges h' !! e = Some true /\
              hoverObj_edges h' !! e = Some e.
Proof.
  exists (hoverEdgesOf (edgesOf node h) h).
  split; [apply _hoverConnectedEdges_result|].
  destruct (hoverEdgesOf_nodes (edgesOf node h) h) as (Hn & Hm & _).
  split; [assumption|]. split; [assumption|].
  intros e He Hsome. split.
  - apply hoverEdgesOf_flags; [left|]; assumption.
  - apply hoverEdgesOf_map. left. assumption.
Qed.

(** C9.  On the body with the nodes a and b joined by the edge e, with
    a as the hover hit and the option enabled, the connected-edge step
    flags the edge e and enters it in the edge hover map, and it flags no
    node: b, and a itself, are as unhovered as before, and the node hover
    map stays empty.  The loop meant to flag every node is bounded by
    [this.body.nodes.length], which is undefined on the table of nodes. *)
Theorem hoverConnectedEdges_flags_no_node :
  hoverConnectedEdges (options oneEdgeBody) = true /\
  exists h',
    _hoverConnectedEdges 1 "a" oneEdgeBody = Some h' /\
    edge_hover <$> body_edges h' !! "e" = Some true /\
    hoverObj_edges h' !! "e" = Some "e" /\
    node_hover <$> body_nodes h' !! "b" = Some false /\
    node_hover <$> body_nodes h' !! "a" = Some false /\
    hoverObj_nodes h' = ∅.
Proof.
  split; [reflexivity|].
  destruct (_hoverConnectedEdges_effect 0 "a" oneEdgeBody)
    as (h' & Hrun & Hnodes & Hmap & Hedges).
  exists h'. split; [assumption|].
  assert (He : "e" ∈ edgesOf "a" oneEdgeBody).
  { unfold edgesOf, oneEdgeBody; cbn [body_nodes].
    rewrite lookup_insert_eq. left. }
  assert (Hsome : is_Some (body_edges oneEdgeBody !! "e")).
  { unfold oneEdgeBody; cbn [body_edges]. rewrite lookup_insert_eq. eauto. }
  destruct (Hedges "e" He Hsome) as [Hflag Hin].
  split; [assumption|]. split; [assumption|].
  rewrite Hnodes, Hmap. unfold oneEdgeBody; cbn [body_nodes hoverObj_nodes].
  split; [|split; [|reflexivity]].
  - rewrite lookup_insert_ne by discriminate. rewrite lookup_insert_eq. reflexivity.
  - rewrite lookup_insert_eq. reflexivity.
Qed.

(** ** Hover reconciliation and the subordinate chain *)

Lemma eventsNamed_app (name : string) (l1 l2 : list Action) :
  eventsNamed name (l1 ++ l2) = eventsNamed name l1 ++ eventsNamed name l2.
Proof. apply omap_app. Qed.

Lemma quiet_refl (h : Handler) : quiet h h.
Proof.
  repeat split. exists []. split; [rewrite app_nil_r|]; reflexivity.
Qed.

Lemma quiet_trans (h1 h2 h3 : Handler) : quiet h1 h2 -> quiet h2 h3 -> quiet h1 h3.
Proof.
  intros (A1 & A2 & A3 & n1 & L1 & E1) (B1 & B2 & B3 & n2 & L2 & E2).
  split; [congruence|]. split; [congruence|]. split; [congruence|].
  exists (n1 ++ n2). split.
  - rewrite L2, L1, app_assoc. reflexivity.
  - rewrite eventsNamed_app, E1, E2. reflexivity.
Qed.

Lemma quiet_record (a : Action) (h : Handler) :
  eventsNamed "hoveredNodes" [a] = [] -> quiet h (record a h).
Proof.
  intros Ha. repeat split. exists [a]. split; [reflexivity | assumption].
Qed.

Lemma fmap_alter_invariant {A B : Type} (f : A -> B) (g : A -> A)
    (k : Id) (m : gmap Id A) :
  (forall x, f (g x) = f x) -> f <$> alter g k m = f <$> m.
Proof.
  intros Hfg. apply map_eq. intros i. rewrite !lookup_fmap.
  destruct (decide (i = k)) as [->|Hne].
  - rewrite lookup_alter_eq. destruct (m !! k); simpl; [rewrite Hfg|]; reflexivity.
  - rewrite lookup_alter_ne by congruence. reflexivity.
Qed.

Lemma quiet_setHover (o : ObjRef) (b : bool) (h : Handler) : quiet h (setHover o b h).
Proof.
  destruct o as [id|id]; cbn [setHover].
  - split; [apply fmap_alter_invariant; reflexivity|].
    repeat split. exists []. split; [rewrite app_nil_r|]; reflexivity.
  - split; [reflexivity|].
    split; [apply fmap_alter_invariant; reflexivity|].
    repeat split. exists []. split; [rewrite app_nil_r|]; reflexivity.
Qed.

Lemma quiet_addToHover (o : ObjRef) (h : Handler) : quiet h (_addToHover o h).
Proof.
  destruct o; repeat split; exists []; (split; [rewrite app_nil_r|]; reflexivity).
Qed.

Lemma quiet_set_hoverObj_nodes (f : gmap Id Id -> gmap Id Id) (h : Handler) :
  quiet h (set_hoverObj_nodes f h).
Proof. repeat split; exists []; (split; [rewrite app_nil_r|]; reflexivity). Qed.

Lemma quiet_set_hoverObj_edges (f : gmap Id Id -> gmap Id Id) (h : Handler) :
  quiet h (set_hoverObj_edges f h).
Proof. repeat split; exists []; (split; [rewrite app_nil_r|]; reflexivity). Qed.

Lemma quiet_emitBlurEvent (event : UIEvent) (pointer : Pointer) (o : ObjRef) (h : Handler) :
  quiet h (emitBlurEvent event pointer o h).
Proof.
  unfold emitBlurEvent.
  destruct (hoverOf o h) as [[|]|]; try apply quiet_refl.
  eapply quiet_trans; [apply (quiet_setHover o false)|].
  destruct o; apply quiet_record; reflexivity.
Qed.

Lemma quiet_emitHoverEvent (event : UIEvent) (pointer : Pointer) (o : ObjRef) (h : Handler) :
  quiet h (snd (emitHoverEvent event pointer o h)).
Proof.
  unfold emitHoverEvent.
  destruct (hoverOf o h) as [[|]|]; try apply quiet_refl.
  assert (Hq : quiet h (_addToHover o (setHover o true h))).
  { eapply quiet_trans; [apply (quiet_setHover o true) | apply quiet_addToHover]. }
  destruct o; cbn [snd]; (eapply quiet_trans; [exact Hq|]);
    apply quiet_record; reflexivity.
Qed.

Lemma quiet_blurNodes (event : UIEvent) (pointer : Pointer) (object : option ObjRef)
    (entries : list (Id * Id)) :
  forall (hoverChanged : bool) (h : Handler),
    quiet h (snd (fold_left (blurNodesStep event pointer object) entries (hoverChanged, h))).
Proof.
  induction entries as [|[nodeId node] entries IH]; intros hoverChanged h;
    [apply quiet_refl|].
  cbn [fold_left]. unfold blurNodesStep at 2.
  destruct (match object with
            | None => true
            | Some (NodeRef id) => bool_decide (id ≠ nodeId)
            | Some (EdgeRef _) => true
            end); [|apply IH].
  eapply quiet_trans; [|apply IH].
  eapply quiet_trans; [apply quiet_emitBlurEvent | apply quiet_set_hoverObj_nodes].
Qed.

Lemma quiet_blurEdges (event : UIEvent) (pointer : Pointer) (object : option ObjRef)
    (entries : list (Id * Id)) :
  forall (hoverChanged : bool) (h : Handler),
    quiet h (snd (fold_left (blurEdgesStep event pointer object) entries (hoverChanged, h))).
Proof.
  induction entries as [|[edgeId edge] entries IH]; intros hoverChanged h;
    [apply quiet_refl|].
  cbn [fold_left]. unfold blurEdgesStep at 2.
  destruct hoverChanged.
  { eapply quiet_trans; [|apply IH].
    eapply quiet_trans; [apply quiet_setHover | apply quiet_set_hoverObj_edges]. }
  destruct (match object with
            | None => true
            | Some (EdgeRef id) => bool_decide (id ≠ edgeId)
            | Some (NodeRef id) => negb (default false (hoverOf (NodeRef id) h))
            end); [|apply IH].
  eapply quiet_trans; [|apply IH].
  eapply quiet_trans; [apply quiet_emitBlurEvent | apply quiet_set_hoverObj_edges].
Qed.

Lemma quiet_hoverEdgesOf (edges : list Id) :
  forall h : Handler, quiet h (hoverEdgesOf edges h).
Proof.
  induction edges as [|e edges IH]; intros h; [apply quiet_refl|].
  cbn [hoverEdgesOf fold_left].
  eapply quiet_trans; [|apply IH].
  eapply quiet_trans; [apply quiet_setHover | apply quiet_addToHover].
Qed.

Lemma quiet_hoverSubordinates (event : UIEvent) (pointer : Pointer)
    (subordinate_nodes : list (option Id)) :
  forall h : Handler, quiet h (hoverSubordinates event pointer subordinate_nodes h).
Proof.
  induction subordinate_nodes as [|sub rest IH]; intros h; [apply quiet_refl|].
  cbn [hoverSubordinates fold_left].
  destruct (body_nodes h !! propertyKey sub); [|apply IH].
  eapply quiet_trans; [apply quiet_emitHoverEvent | apply IH].
Qed.

Lemma quiet_objectAt (pointer : Pointer) (h : Handler) :
  quiet h (snd (objectAt pointer h)).
Proof.
  unfold objectAt, getNodeAt.
  destruct (last _); cbn [snd].
  - apply quiet_record. reflexivity.
  - unfold getEdgeAt. cbn [snd].
    eapply quiet_trans; apply quiet_record; reflexivity.
Qed.




Lemma quiet_lookup_level (h h' : Handler) (k : Id) :
  quiet h h' ->
  node_level <$> body_nodes h' !! k = node_level <$> body_nodes h !! k.
Proof. intros (Hn & _). rewrite <- !lookup_fmap, Hn. reflexivity. Qed.

Lemma quiet_lookup_links (h h' : Handler) (k : Id) :
  quiet h h' ->
  edgeLinks <$> body_edges h' !! k = edgeLinks <$> body_edges h !! k.
Proof. intros (_ & He & _). rewrite <- !lookup_fmap, He. reflexivity. Qed.

(** ** The node under the pointer *)

Lemma last_filter_split {A : Type} (P : A -> Prop) `{!forall x, Decision (P x)}
    (l : list A) (x : A) :
  last (filter P l) = Some x <->
  exists l1 l2, l = l1 ++ x :: l2 /\ P x /\ forall y, y ∈ l2 -> ~ P y.
Proof.
  induction l as [|y l IH] using rev_ind.
  - split; [discriminate|]. intros (l1 & l2 & Heq & _). destruct l1; discriminate.
  - rewrite filter_app, filter_cons, filter_nil.
    destruct (decide (P y)) as [Hy|Hy].
    + rewrite last_snoc. split.
      * intros [= ->]. exists l, []. split; [reflexivity|]. split; [assumption|].
        intros z Hz. inversion Hz.
      * intros (l1 & l2 & Heq & Hx & Hno).
        destruct l2 as [|z l2] using rev_ind.
        -- apply app_inj_tail in Heq as [_ ->]. reflexivity.
        -- clear IHl2. rewrite app_comm_cons, app_assoc in Heq.
           apply app_inj_tail in Heq as [_ ->].
           exfalso. apply (Hno z); [|assumption].
           apply elem_of_app. right. left.
    + rewrite app_nil_r, IH. split.
      * intros (l1 & l2 & -> & Hx & Hno). exists l1, (l2 ++ [y]).
        rewrite <- app_assoc. split; [reflexivity|]. split; [assumption|].
        intros z Hz. apply elem_of_app in Hz as [Hz|Hz]; [auto|].
        apply list_elem_of_singleton in Hz as ->. assumption.
      * intros (l1 & l2 & Heq & Hx & Hno).
        destruct l2 as [|z l2] using rev_ind.
        -- apply app_inj_tail in Heq as [_ ->]. contradiction.
        -- clear IHl2. rewrite app_comm_cons, app_assoc in Heq.
           apply app_inj_tail in Heq as [-> ->].
           exists l1, l2. split; [reflexivity|]. split; [assumption|].
           intros w Hw. apply Hno. apply elem_of_app. left. assumption.
Qed.

Lemma last_filter_none {A : Type} (P : A -> Prop) `{!forall x, Decision (P x)}
    (l : list A) :
  last (filter P l) = None <-> forall y, y ∈ l -> ~ P y.
Proof.
  rewrite last_None. split.
  - intros Hnil y Hy HP.
    assert (Hin : y ∈ filter P l) by (apply list_elem_of_filter; split; assumption).
    rewrite Hnil in Hin. inversion Hin.
  - intros Hno. destruct (filter P l) as [|z r] eqn:Hf; [reflexivity|].
    assert (Hin : z ∈ filter P l) by (rewrite Hf; left).
    apply list_elem_of_filter in Hin as [Hz Hin]. exfalso. exact (Hno z Hin Hz).
Qed.

Lemma overlapsWith_overlaps (object : Rect) (h : Handler) (id : Id) :
  overlapsWith object h id = true <-> overlaps object h id.
Proof.
  unfold overlapsWith, overlaps. destruct (body_nodes h !! id) as [node|].
  - split; [intros H; exists node; split; [reflexivity|assumption]|].
    intros (n & [= <-] & H). assumption.
  - split; [discriminate|]. intros (n & H & _). discriminate.
Qed.

(** X15.  In a body whose node indices all lead to a node, [getNodeAt]
    probes the rectangle of 2 by 2 around the canvas position of the
    pointer and returns the node that comes last in [nodeIndices] among
    those overlapping it, the one drawn on top: it returns [id] exactly
    when [id] occurs in [nodeIndices], overlaps, and no index after that
    occurrence overlaps; and it returns undefined exactly when no node of
    [nodeIndices] overlaps. *)
Theorem getNodeAt_topmost (pointer : Pointer) (h : Handler) :
  (forall id, id ∈ body_nodeIndices h -> is_Some (body_nodes h !! id)) ->
  let canvasPos := canvas_DOMtoCanvas h pointer in
  let object := mkRect (px canvasPos - 1) (py canvasPos + 1)
                       (px canvasPos + 1) (py canvasPos - 1) in
  (forall id,
     fst (getNodeAt pointer h) = Some id <->
     exists below above,
       body_nodeIndices h = below ++ id :: above /\
       overlaps object h id /\
       forall other, other ∈ above -> ~ overlaps object h other) /\
  (fst (getNodeAt pointer h) = None <->
   forall id, id ∈ body_nodeIndices h -> ~ overlaps object h id).
Proof.
  intros _. cbv zeta.
  unfold getNodeAt, _getAllNodesOverlappingWith, _pointerToPositionObject.
  cbn [fst body_nodeIndices canvas_DOMtoCanvas record].
  set (object := mkRect _ _ _ _).
  split.
  - intros id. rewrite last_filter_split.
    split; intros (l1 & l2 & Heq & Hx & Hno); exists l1, l2;
      (split; [exact Heq|]); (split; [apply overlapsWith_overlaps; exact Hx|]);
      intros y Hy Hov; apply (Hno y Hy); apply overlapsWith_overlaps; exact Hov.
  - rewrite last_filter_none.
    split; intros Hno y Hy Hov; apply (Hno y Hy); apply overlapsWith_overlaps; exact Hov.
Qed.

Lemma getNodeAt_topmost_witness :
  fst (getNodeAt (mkPointer 0 0) chainBody) = Some "top" <->
  exists below above,
    body_nodeIndices chainBody = below ++ "top" :: above /\
    overlaps (mkRect (0 - 1) (0 + 1) (0 + 1) (0 - 1)) chainBody "top" /\
    forall other, other ∈ above ->
      ~ overlaps (mkRect (0 - 1) (0 + 1) (0 + 1) (0 - 1)) chainBody other.
Proof.
  apply (proj1 (getNodeAt_topmost (mkPointer 0 0) chainBody
                  ltac:(intros id Hid; unfold chainBody in *; cbn [body_nodeIndices body_nodes] in *;
                        repeat (apply elem_of_cons in Hid as [->|Hid]);
                        [ rewrite lookup_insert_ne by discriminate; rewrite lookup_insert_eq; eauto
                        | rewrite lookup_insert_ne by discriminate;
                          rewrite lookup_insert_ne by discriminate;
                          rewrite lookup_insert_eq; eauto
                        | rewrite lookup_insert_eq; eauto
                        | inversion Hid ])) "top").
Defined.

(** ** Hover and blur events *)

Lemma hoverOf_setHover (o : ObjRef) (b : bool) (h : Handler) :
  is_Some (hoverOf o h) -> hoverOf o (setHover o b h) = Some b.
Proof.
  destruct o as [id|id]; cbn [hoverOf setHover set_body_nodes set_body_edges body_nodes body_edges];
    rewrite lookup_alter_eq; intros [x Hx];
    [destruct (body_nodes h !! id)|destruct (body_edges h !! id)];
    try discriminate; reflexivity.
Qed.

Lemma setNodeHover_restore (n : Node) (b : bool) :
  setNodeHover (node_hover n) (setNodeHover b n) = n.
Proof. destruct n; reflexivity. Qed.

Lemma setEdgeHover_restore (e : Edge) (b : bool) :
  setEdgeHover (edge_hover e) (setEdgeHover b e) = e.
Proof. destruct e; reflexivity. Qed.

Lemma alter_restore {A : Type} (f g : A -> A) (k : Id) (m : gmap Id A) :
  (forall x, m !! k = Some x -> g (f x) = x) ->
  alter g k (alter f k m) = m.
Proof.
  intros Hfg. apply map_eq. intros i.
  destruct (decide (i = k)) as [->|Hne].
  - rewrite !lookup_alter_eq. destruct (m !! k) as [x|] eqn:Hx; [|reflexivity].
    cbn. rewrite Hfg; reflexivity.
  - rewrite !lookup_alter_ne by congruence. reflexivity.
Qed.

(** X16.  For an object of the body, [emitHoverEvent] reports a change
    exactly when the object was not hovered; it then flags the object,
    enters it in the hover map under its id and emits one hoverNode or
    hoverEdge event; otherwise it changes nothing.  Called a second time
    right away it reports no change, emits nothing and leaves the state as
    it is. *)
Theorem emitHoverEvent_idempotent (event : UIEvent) (pointer : Pointer) (object : ObjRef)
    (h : Handler) :
  is_Some (hoverOf object h) ->
  let hoverChanged := fst (emitHoverEvent event pointer object h) in
  let h1 := snd (emitHoverEvent event pointer object h) in
  emitHoverEvent event pointer object h1 = (false, h1) /\
  (hoverChanged = true <-> hoverOf object h = Some false) /\
  (hoverChanged = true ->
   hoverOf object h1 = Some true /\
   match object with
   | NodeRef id => hoverObj_nodes h1 !! id = Some id
   | EdgeRef id => hoverObj_edges h1 !! id = Some id
   end /\
   exists properties,
     log h1 = log h ++ [Emit (if isNode object then "hoverNode" else "hoverEdge")
                             (PProperties properties)]) /\
  (hoverChanged = false -> h1 = h).
Proof.
  intros _. cbv zeta.
  destruct (hoverOf object h) as [[|]|] eqn:Hh.
  - assert (E : emitHoverEvent event pointer object h = (false, h))
      by (unfold emitHoverEvent; rewrite Hh; reflexivity).
    rewrite !E. cbn [fst snd]. rewrite E.
    split; [reflexivity|]. split; [split; discriminate|]. split; [discriminate|reflexivity].
  - assert (Hafter : hoverOf object (_addToHover object (setHover object true h)) = Some true).
    { rewrite <- (hoverOf_setHover object true h) by (rewrite Hh; eauto).
      destruct object; reflexivity. }
    destruct object as [id|id].
    + assert (E : emitHoverEvent event pointer (NodeRef id) h =
                  (true, emit "hoverNode"
                              (PProperties (with_node id (_initBaseEvent event pointer h)))
                              (_addToHover (NodeRef id) (setHover (NodeRef id) true h))))
        by (unfold emitHoverEvent; rewrite Hh; reflexivity).
      rewrite !E. cbn [fst snd isNode].
      split.
      * unfold emitHoverEvent.
        change (hoverOf (NodeRef id) (emit _ _ (_addToHover (NodeRef id) (setHover (NodeRef id) true h))))
          with (hoverOf (NodeRef id) (_addToHover (NodeRef id) (setHover (NodeRef id) true h))).
        rewrite Hafter. reflexivity.
      * split; [split; reflexivity|]. split; [|discriminate].
        intros _. split; [exact Hafter|]. split; [apply lookup_insert_eq|].
        eexists. reflexivity.
    + assert (E : emitHoverEvent event pointer (EdgeRef id) h =
                  (true, emit "hoverEdge"
                              (PProperties (with_edge id (_initBaseEvent event pointer h)))
                              (_addToHover (EdgeRef id) (setHover (EdgeRef id) true h))))
        by (unfold emitHoverEvent; rewrite Hh; reflexivity).
      rewrite !E. cbn [fst snd isNode].
      split.
      * unfold emitHoverEvent.
        change (hoverOf (EdgeRef id) (emit _ _ (_addToHover (EdgeRef id) (setHover (EdgeRef id) true h))))
          with (hoverOf (EdgeRef id) (_addToHover (EdgeRef id) (setHover (EdgeRef id) true h))).
        rewrite Hafter. reflexivity.
      * split; [split; reflexivity|]. split; [|discriminate].
        intros _. split; [exact Hafter|]. split; [apply lookup_insert_eq|].
        eexists. reflexivity.
  - assert (E : emitHoverEvent event pointer object h = (false, h))
      by (unfold emitHoverEvent; rewrite Hh; reflexivity).
    rewrite !E. cbn [fst snd]. rewrite E.
    split; [reflexivity|]. split; [split; discriminate|]. split; [discriminate|reflexivity].
Qed.

Lemma emitHoverEvent_idempotent_witness :
  let h1 := snd (emitHoverEvent (mkUIEvent None) (mkPointer 0 0) (NodeRef "a") oneEdgeBody) in
  emitHoverEvent (mkUIEvent None) (mkPointer 0 0) (NodeRef "a") h1 = (false, h1).
Proof.
  apply (emitHoverEvent_idempotent (mkUIEvent None) (mkPointer 0 0) (NodeRef "a") oneEdgeBody).
  unfold oneEdgeBody; cbn [hoverOf body_nodes]. rewrite lookup_insert_eq. eauto.
Defined.

(** X17.  [emitBlurEvent] after [emitHoverEvent] on an object that was
    not hovered restores the nodes and the edges of the body, flag
    included, and logs the hover event followed by the blur event; but it
    leaves the hover maps as [emitHoverEvent] left them, with the object
    still entered: removing the entry is left to the caller.  A second
    [emitBlurEvent] changes nothing. *)
Theorem emitBlurEvent_undoes_hover (event : UIEvent) (pointer : Pointer) (object : ObjRef)
    (h : Handler) :
  hoverOf object h = Some false ->
  let h1 := snd (emitHoverEvent event pointer object h) in
  let h2 := emitBlurEvent event pointer object h1 in
  body_nodes h2 = body_nodes h /\
  body_edges h2 = body_edges h /\
  hoverOf object h2 = Some false /\
  hoverObj_nodes h2 = hoverObj_nodes h1 /\
  hoverObj_edges h2 = hoverObj_edges h1 /\
  match object with
  | NodeRef id => hoverObj_nodes h2 !! id = Some id
  | EdgeRef id => hoverObj_edges h2 !! id = Some id
  end /\
  (exists hovered blurred,
     log h2 = log h ++ [Emit (if isNode object then "hoverNode" else "hoverEdge")
                             (PProperties hovered);
                        Emit (if isNode object then "blurNode" else "blurEdge")
                             (PProperties blurred)]) /\
  emitBlurEvent event pointer object h2 = h2.
Proof.
  intros Hh. cbv zeta.
  assert (Hafter : hoverOf object (_addToHover object (setHover object true h)) = Some true).
  { rewrite <- (hoverOf_setHover object true h) by (rewrite Hh; eauto).
    destruct object; reflexivity. }
  destruct object as [id|id].
  - assert (E1 : snd (emitHoverEvent event pointer (NodeRef id) h) =
                 emit "hoverNode"
                      (PProperties (with_node id (_initBaseEvent event pointer h)))
                      (_addToHover (NodeRef id) (setHover (NodeRef id) true h)))
      by (unfold emitHoverEvent; rewrite Hh; reflexivity).
    rewrite E1. set (h1 := emit _ _ _).
    assert (H1 : hoverOf (NodeRef id) h1 = Some true) by exact Hafter.
    assert (E2 : emitBlurEvent event pointer (NodeRef id) h1 =
                 emit "blurNode"
                      (PProperties (with_node id (_initBaseEvent event pointer h1)))
                      (setHover (NodeRef id) false h1))
      by (unfold emitBlurEvent; rewrite H1; reflexivity).
    rewrite E2. set (h2 := emit _ _ (setHover _ _ h1)).
    cbn [hoverOf] in Hh.
    destruct (body_nodes h !! id) as [n|] eqn:Hn; [|discriminate].
    cbn in Hh. injection Hh as Hh.
    assert (Hbody : body_nodes h2 = body_nodes h).
    { unfold h2, h1.
      cbn [setHover _addToHover emit record set_body_nodes set_hoverObj_nodes body_nodes].
      apply alter_restore. intros x Hx. rewrite Hn in Hx. injection Hx as <-.
      rewrite <- Hh. apply setNodeHover_restore. }
    assert (H2 : hoverOf (NodeRef id) h2 = Some false).
    { cbn [hoverOf]. rewrite Hbody, Hn. cbn. rewrite Hh. reflexivity. }
    cbn [isNode].
    split; [exact Hbody|]. split; [reflexivity|]. split; [exact H2|].
    split; [reflexivity|]. split; [reflexivity|]. split; [apply lookup_insert_eq|].
    split; [eexists _, _; unfold h2, h1; cbn [log emit record setHover set_body_nodes
               _addToHover set_hoverObj_nodes]; rewrite <- app_assoc; reflexivity|].
    unfold emitBlurEvent. rewrite H2. reflexivity.
  - assert (E1 : snd (emitHoverEvent event pointer (EdgeRef id) h) =
                 emit "hoverEdge"
                      (PProperties (with_edge id (_initBaseEvent event pointer h)))
                      (_addToHover (EdgeRef id) (setHover (EdgeRef id) true h)))
      by (unfold emitHoverEvent; rewrite Hh; reflexivity).
    rewrite E1. set (h1 := emit _ _ _).
    assert (H1 : hoverOf (EdgeRef id) h1 = Some true) by exact Hafter.
    assert (E2 : emitBlurEvent event pointer (EdgeRef id) h1 =
                 emit "blurEdge"
                      (PProperties (with_edge id (_initBaseEvent event pointer h1)))
                      (setHover (EdgeRef id) false h1))
      by (unfold emitBlurEvent; rewrite H1; reflexivity).
    rewrite E2. set (h2 := emit _ _ (setHover _ _ h1)).
    cbn [hoverOf] in Hh.
    destruct (body_edges h !! id) as [n|] eqn:Hn; [|discriminate].
    cbn in Hh. injection Hh as Hh.
    assert (Hbody : body_edges h2 = body_edges h).
    { unfold h2, h1.
      cbn [setHover _addToHover emit record set_body_edges set_hoverObj_edges body_edges].
      apply alter_restore. intros x Hx. rewrite Hn in Hx. injection Hx as <-.
      rewrite <- Hh. apply setEdgeHover_restore. }
    assert (H2 : hoverOf (EdgeRef id) h2 = Some false).
    { cbn [hoverOf]. rewrite Hbody, Hn. cbn. rewrite Hh. reflexivity. }
    cbn [isNode].
    split; [reflexivity|]. split; [exact Hbody|]. split; [exact H2|].
    split; [reflexivity|]. split; [reflexivity|]. split; [apply lookup_insert_eq|].
    split; [eexists _, _; unfold h2, h1; cbn [log emit record setHover set_body_edges
               _addToHover set_hoverObj_edges]; rewrite <- app_assoc; reflexivity|].
    unfold emitBlurEvent. rewrite H2. reflexivity.
Qed.

Lemma emitBlurEvent_undoes_hover_witness :
  let h1 := snd (emitHoverEvent (mkUIEvent None) (mkPointer 0 0) (NodeRef "a") oneEdgeBody) in
  let h2 := emitBlurEvent (mkUIEvent None) (mkPointer 0 0) (NodeRef "a") h1 in
  body_nodes h2 = body_nodes oneEdgeBody /\ hoverObj_nodes h2 !! "a" = Some "a".
Proof.
  pose proof (emitBlurEvent_undoes_hover (mkUIEvent None) (mkPointer 0 0) (NodeRef "a")
                oneEdgeBody) as H.
  destruct H as (H1 & _ & _ & _ & _ & H6 & _).
  - unfold oneEdgeBody; cbn [hoverOf body_nodes]. rewrite lookup_insert_eq. reflexivity.
  - split; [exact H1|exact H6].
Defined.

(** ** Hovering over nothing *)

Lemma blurFrame_refl (h : Handler) : blurFrame h h.
Proof.
  repeat split; try reflexivity.
  - exists []. split; [rewrite app_nil_r; reflexivity|constructor].
  - auto.
Qed.

Lemma blurFrame_trans (h1 h2 h3 : Handler) :
  blurFrame h1 h2 -> blurFrame h2 h3 -> blurFrame h1 h3.
Proof.
  intros (A1 & A2 & A3 & (n1 & L1 & F1) & A5) (B1 & B2 & B3 & (n2 & L2 & F2) & B5).
  split; [congruence|]. split; [congruence|]. split; [congruence|]. split.
  - exists (n1 ++ n2). split; [rewrite L2, L1, app_assoc; reflexivity|].
    apply Forall_app; split; assumption.
  - auto.
Qed.

Lemma hoverOf_setHover_other (o o' : ObjRef) (b : bool) (h : Handler) :
  o' <> o -> hoverOf o' (setHover o b h) = hoverOf o' h.
Proof.
  intros Hne. destruct o as [id|id], o' as [id'|id']; cbn [hoverOf setHover set_body_nodes set_body_edges body_nodes body_edges];
    try reflexivity; rewrite lookup_alter_ne by congruence; reflexivity.
Qed.

Lemma hoverOf_setHover_false (o o' : ObjRef) (h : Handler) :
  hoverOf o' (setHover o false h) = Some true -> hoverOf o' h = Some true.
Proof.
  destruct o as [id|id], o' as [id'|id'];
    cbn [hoverOf setHover set_body_nodes set_body_edges body_nodes body_edges];
    try (intros H; exact H).
  - destruct (decide (id' = id)) as [->|Hne].
    + rewrite lookup_alter_eq. destruct (body_nodes h !! id); discriminate.
    + rewrite lookup_alter_ne by congruence. auto.
  - destruct (decide (id' = id)) as [->|Hne].
    + rewrite lookup_alter_eq. destruct (body_edges h !! id); discriminate.
    + rewrite lookup_alter_ne by congruence. auto.
Qed.

Lemma blurFrame_setHover_false (o : ObjRef) (h : Handler) :
  blurFrame h (setHover o false h).
Proof.
  split; [destruct o; reflexivity|]. split; [destruct o; reflexivity|].
  split; [destruct o; reflexivity|]. split.
  - exists []. split; [rewrite app_nil_r; destruct o; reflexivity|constructor].
  - intros o'. apply hoverOf_setHover_false.
Qed.

Lemma blurFrame_set_hoverObj_nodes (f : gmap Id Id -> gmap Id Id) (h : Handler) :
  blurFrame h (set_hoverObj_nodes f h).
Proof.
  repeat split; try reflexivity.
  - exists []. split; [rewrite app_nil_r; reflexivity|constructor].
  - intros [?|?]; auto.
Qed.

Lemma blurFrame_set_hoverObj_edges (f : gmap Id Id -> gmap Id Id) (h : Handler) :
  blurFrame h (set_hoverObj_edges f h).
Proof.
  repeat split; try reflexivity.
  - exists []. split; [rewrite app_nil_r; reflexivity|constructor].
  - intros [?|?]; auto.
Qed.

Lemma blurFrame_emitBlurEvent (event : UIEvent) (pointer : Pointer) (o : ObjRef) (h : Handler) :
  blurFrame h (emitBlurEvent event pointer o h).
Proof.
  unfold emitBlurEvent.
  destruct (hoverOf o h) as [[|]|]; try apply blurFrame_refl.
  eapply blurFrame_trans; [apply (blurFrame_setHover_false o)|].
  destruct o as [id|id].
  - repeat split; try reflexivity.
    + eexists [_]. split; [reflexivity|]. constructor; [|constructor].
      eexists. left. reflexivity.
    + intros [?|?]; auto.
  - repeat split; try reflexivity.
    + eexists [_]. split; [reflexivity|]. constructor; [|constructor].
      eexists. right. reflexivity.
    + intros [?|?]; auto.
Qed.

Lemma emitBlurEvent_flag (event : UIEvent) (pointer : Pointer) (o : ObjRef) (h : Handler) :
  hoverOf o (emitBlurEvent event pointer o h) <> Some true.
Proof.
  unfold emitBlurEvent.
  destruct (hoverOf o h) as [[|]|] eqn:Hh; try congruence.
  intros H.
  assert (H' : hoverOf o (setHover o false h) = Some true) by (destruct o; exact H).
  rewrite hoverOf_setHover in H' by (rewrite Hh; eauto). discriminate.
Qed.

Lemma fold_delete_lookup (l : list (Id * Id)) :
  forall (m : gmap Id Id) (i : Id),
    fold_left (fun m e => delete e.1 m) l m !! i
    = if decide (i ∈ l.*1) then None else m !! i.
Proof.
  induction l as [|[k v] l IH]; intros m i; cbn [fold_left fmap list_fmap].
  - destruct (decide (i ∈ [])) as [Hin|_]; [inversion Hin|reflexivity].
  - rewrite IH. cbn [fst].
    destruct (decide (i ∈ l.*1)) as [Hin|Hnin].
    + destruct (decide (i ∈ k :: l.*1)) as [_|Hn]; [reflexivity|].
      exfalso. apply Hn. right. assumption.
    + destruct (decide (i = k)) as [->|Hne].
      * rewrite lookup_delete_eq.
        destruct (decide (k ∈ k :: l.*1)) as [_|Hn]; [reflexivity|].
        exfalso. apply Hn. left.
      * rewrite lookup_delete_ne by congruence.
        destruct (decide (i ∈ k :: l.*1)) as [Hin|_]; [|reflexivity].
        apply elem_of_cons in Hin as [?|?]; contradiction.
Qed.

Lemma fold_delete_all (m : gmap Id Id) :
  fold_left (fun m e => delete e.1 m) (map_to_list m) m = ∅.
Proof.
  apply map_eq. intros i. rewrite fold_delete_lookup, lookup_empty.
  destruct (decide (i ∈ (map_to_list m).*1)) as [_|Hnin]; [reflexivity|].
  destruct (m !! i) as [x|] eqn:Hx; [|reflexivity].
  exfalso. apply Hnin. apply list_elem_of_fmap. exists (i, x).
  split; [reflexivity|]. apply elem_of_map_to_list. assumption.
Qed.

Lemma blurNodes_nothing_hit (event : UIEvent) (pointer : Pointer) (l : list (Id * Id)) :
  forall (hoverChanged : bool) (h : Handler),
    let r := fold_left (blurNodesStep event pointer None) l (hoverChanged, h) in
    fst r = match l with [] => hoverChanged | _ => true end /\
    hoverObj_nodes (snd r) = fold_left (fun m e => delete e.1 m) l (hoverObj_nodes h) /\
    hoverObj_edges (snd r) = hoverObj_edges h /\
    blurFrame h (snd r) /\
    (forall k v, (k, v) ∈ l -> hoverOf (NodeRef v) (snd r) <> Some true).
Proof.
  induction l as [|[k v] l IH]; intros hc h; cbn [fold_left].
  - cbn [fst snd]. split; [reflexivity|]. split; [reflexivity|]. split; [reflexivity|].
    split; [apply blurFrame_refl|]. intros k v Hin. inversion Hin.
  - change (blurNodesStep event pointer None (hc, h) (k, v))
      with (true, set_hoverObj_nodes (delete k) (emitBlurEvent event pointer (NodeRef v) h)).
    set (h1 := set_hoverObj_nodes (delete k) (emitBlurEvent event pointer (NodeRef v) h)).
    specialize (IH true h1). cbv zeta in IH |- *.
    destruct IH as (I1 & I2 & I3 & I4 & I5).
    assert (F1 : blurFrame h h1).
    { eapply blurFrame_trans; [apply blurFrame_emitBlurEvent|apply blurFrame_set_hoverObj_nodes]. }
    assert (M1 : hoverObj_edges h1 = hoverObj_edges h).
    { unfold h1, emitBlurEvent. destruct (hoverOf (NodeRef v) h) as [[|]|]; reflexivity. }
    assert (M2 : hoverObj_nodes h1 = delete k (hoverObj_nodes h)).
    { unfold h1, emitBlurEvent. destruct (hoverOf (NodeRef v) h) as [[|]|]; reflexivity. }
    split; [rewrite I1; destruct l; reflexivity|].
    split; [rewrite I2, M2; reflexivity|].
    split; [rewrite I3, M1; reflexivity|].
    split; [eapply blurFrame_trans; eassumption|].
    intros k' v' Hin. apply elem_of_cons in Hin as [[= -> ->]|Hin]; [|eauto].
    intros Hflag. destruct I4 as (_ & _ & _ & _ & Hno). apply Hno in Hflag.
    apply (emitBlurEvent_flag event pointer (NodeRef v) h). exact Hflag.
Qed.

Lemma blurEdges_nothing_hit (event : UIEvent) (pointer : Pointer) (l : list (Id * Id)) :
  forall (hoverChanged : bool) (h : Handler),
    let r := fold_left (blurEdgesStep event pointer None) l (hoverChanged, h) in
    fst r = match l with [] => hoverChanged | _ => true end /\
    hoverObj_edges (snd r) = fold_left (fun m e => delete e.1 m) l (hoverObj_edges h) /\
    hoverObj_nodes (snd r) = hoverObj_nodes h /\
    blurFrame h (snd r) /\
    (forall k v, (k, v) ∈ l -> hoverOf (EdgeRef v) (snd r) <> Some true).
Proof.
  induction l as [|[k v] l IH]; intros hc h; cbn [fold_left].
  - cbn [fst snd]. split; [reflexivity|]. split; [reflexivity|]. split; [reflexivity|].
    split; [apply blurFrame_refl|]. intros k v Hin. inversion Hin.
  - set (h1 := if hc
               then set_hoverObj_edges (delete k) (setHover (EdgeRef v) false h)
               else set_hoverObj_edges (delete k) (emitBlurEvent event pointer (EdgeRef v) h)).
    assert (Hstep : blurEdgesStep event pointer None (hc, h) (k, v) = (true, h1)).
    { unfold blurEdgesStep, h1. destruct hc; reflexivity. }
    rewrite Hstep. specialize (IH true h1). cbv zeta in IH |- *.
    destruct IH as (I1 & I2 & I3 & I4 & I5).
    assert (F1 : blurFrame h h1).
    { unfold h1. destruct hc.
      - eapply blurFrame_trans; [apply blurFrame_setHover_false|apply blurFrame_set_hoverObj_edges].
      - eapply blurFrame_trans; [apply blurFrame_emitBlurEvent|apply blurFrame_set_hoverObj_edges]. }
    assert (M1 : hoverObj_nodes h1 = hoverObj_nodes h).
    { unfold h1, emitBlurEvent. destruct hc; [reflexivity|].
      destruct (hoverOf (EdgeRef v) h) as [[|]|]; reflexivity. }
    assert (M2 : hoverObj_edges h1 = delete k (hoverObj_edges h)).
    { unfold h1, emitBlurEvent. destruct hc; [reflexivity|].
      destruct (hoverOf (EdgeRef v) h) as [[|]|]; reflexivity. }
    assert (Hflag1 : hoverOf (EdgeRef v) h1 <> Some true).
    { unfold h1. destruct hc.
      - cbn [hoverOf set_hoverObj_edges setHover set_body_edges body_edges].
        rewrite lookup_alter_eq. destruct (body_edges h !! v); discriminate.
      - apply (emitBlurEvent_flag event pointer (EdgeRef v) h). }
    split; [rewrite I1; destruct l; reflexivity|].
    split; [rewrite I2, M2; reflexivity|].
    split; [rewrite I3, M1; reflexivity|].
    split; [eapply blurFrame_trans; eassumption|].
    intros k' v' Hin. apply elem_of_cons in Hin as [[= -> ->]|Hin]; [|eauto].
    intros Hflag. destruct I4 as (_ & _ & _ & _ & Hno). apply Hno in Hflag.
    contradiction.
Qed.

Lemma blurEvent_not_named (name : string) (new : list Action) :
  name <> "blurNode" -> name <> "blurEdge" ->
  Forall blurEvent new -> eventsNamed name new = [].
Proof.
  intros H1 H2 Hall.
  induction Hall as [|a new [p [->| ->]] _ IH]; [reflexivity| |].
  - change (Emit "blurNode" p :: new) with ([Emit "blurNode" p] ++ new).
    rewrite eventsNamed_app, IH, app_nil_r. unfold eventsNamed. simpl.
    destruct (decide ("blurNode" = name)); [congruence|reflexivity].
  - change (Emit "blurEdge" p :: new) with ([Emit "blurEdge" p] ++ new).
    rewrite eventsNamed_app, IH, app_nil_r. unfold eventsNamed. simpl.
    destruct (decide ("blurEdge" = name)); [congruence|reflexivity].
Qed.

Lemma objectAt_fields (pointer : Pointer) (h : Handler) :
  let h0 := snd (objectAt pointer h) in
  body_nodes h0 = body_nodes h /\
  body_edges h0 = body_edges h /\
  hoverObj_nodes h0 = hoverObj_nodes h /\
  hoverObj_edges h0 = hoverObj_edges h /\
  lastHoveredNodes h0 = lastHoveredNodes h /\
  window_isUserDragging h0 = window_isUserDragging h /\
  window_wasUserDragging h0 = window_wasUserDragging h /\
  exists new, log h0 = log h ++ new /\ forall name, eventsNamed name new = [].
Proof.
  cbv zeta. unfold objectAt, getNodeAt.
  destruct (last _); cbn [snd]; repeat split.
  - exists [CallGetNodeAt pointer]. split; reflexivity.
  - exists [CallGetNodeAt pointer; CallGetEdgeAt pointer].
    split; [|reflexivity]. unfold getEdgeAt. cbn [snd log record].
    rewrite <- app_assoc. reflexivity.
Qed.

(** [hoverObject] when the pointer hits nothing. *)
Lemma hoverObject_miss (fuel : nat) (event : UIEvent) (pointer : Pointer)
    (h : Handler) :
  fst (objectAt pointer h) = None ->
  exists h' new,
    hoverObject fuel event pointer h = Some h' /\
    log h' = log h ++ new /\
    hoverObj_nodes h' = ∅ /\
    hoverObj_edges h' = ∅ /\
    (forall k v, hoverObj_nodes h !! k = Some v -> hoverOf (NodeRef v) h' <> Some true) /\
    (forall k v, hoverObj_edges h !! k = Some v -> hoverOf (EdgeRef v) h' <> Some true) /\
    lastHoveredNodes h' = [] /\
    eventsNamed "hoveredNodes" new =
      (if decide (lastHoveredNodes h = []) then [] else [PIds []]) /\
    eventsNamed "_requestRedraw" new =
      (if decide (hoverObj_nodes h = ∅ /\ hoverObj_edges h = ∅) then [] else [PNone]) /\
    window_wasUserDragging h' = window_isUserDragging h.
Proof.
  intros Hmiss. unfold hoverObject.
  pose proof (objectAt_fields pointer h) as F0.
  destruct (objectAt pointer h) as [object h0]. cbn [fst snd] in Hmiss, F0. subst object.
  cbv zeta in F0.
  destruct F0 as (_ & _ & N0 & E0 & L0 & D0 & W0 & new0 & Log0 & Ev0).
  set (h1 := if decide (0 < length (lastHoveredNodes h0))
             then set_lastHoveredNodes [] (emit "hoveredNodes" (PIds []) h0)
             else h0).
  assert (F1 : hoverObj_nodes h1 = hoverObj_nodes h /\
               hoverObj_edges h1 = hoverObj_edges h /\
               lastHoveredNodes h1 = [] /\
               window_isUserDragging h1 = window_isUserDragging h /\
               (forall o, hoverOf o h1 = hoverOf o h0) /\
               exists new1, log h1 = log h0 ++ new1 /\
                 eventsNamed "hoveredNodes" new1 =
                   (if decide (lastHoveredNodes h = []) then [] else [PIds []]) /\
                 eventsNamed "_requestRedraw" new1 = []).
  { unfold h1. rewrite L0. destruct (lastHoveredNodes h) as [|x rest] eqn:Hl.
    - destruct (decide (0 < length [])) as [Hlt|_]; [cbn in Hlt; lia|].
      split; [assumption|]. split; [assumption|]. split; [assumption|].
      split; [assumption|]. split; [reflexivity|].
      exists []. rewrite app_nil_r. split; [reflexivity|].
      destruct (decide ([] = [])); [|congruence]. split; reflexivity.
    - destruct (decide (0 < length (x :: rest))) as [_|Hn]; [|cbn in Hn; lia].
      split; [assumption|]. split; [assumption|]. split; [reflexivity|].
      split; [assumption|]. split; [intros [?|?]; reflexivity|].
      exists [Emit "hoveredNodes" (PIds [])]. split; [reflexivity|].
      destruct (decide (x :: rest = [])); [congruence|]. split; reflexivity. }
  destruct F1 as (N1 & E1 & L1 & D1 & Hov1 & new1 & Log1 & Ev1 & Rd1).
  pose proof (blurNodes_nothing_hit event pointer (map_to_list (hoverObj_nodes h1)) false h1)
    as B2.
  destruct (fold_left (blurNodesStep event pointer None)
              (map_to_list (hoverObj_nodes h1)) (false, h1)) as [hc2 h2].
  cbv zeta in B2. cbn [fst snd] in B2.
  destruct B2 as (C2 & N2 & E2 & F2 & Fl2).
  rewrite fold_delete_all in N2.
  pose proof (blurEdges_nothing_hit event pointer (map_to_list (hoverObj_edges h2)) hc2 h2)
    as B3.
  destruct (fold_left (blurEdgesStep event pointer None)
              (map_to_list (hoverObj_edges h2)) (hc2, h2)) as [hc3 h3].
  cbv zeta in B3. cbn [fst snd] in B3.
  destruct B3 as (C3 & E3 & N3 & F3 & Fl3).
  rewrite fold_delete_all in E3.
  destruct F2 as (L2 & D2 & W2 & (new2 & Log2 & Bl2) & No2).
  destruct F3 as (L3 & D3 & W3 & (new3 & Log3 & Bl3) & No3).
  assert (Hc3 : hc3 = negb (bool_decide (hoverObj_nodes h = ∅ /\ hoverObj_edges h = ∅))).
  { rewrite C3, C2, E2, N1, E1.
    destruct (map_to_list (hoverObj_edges h)) as [|e es] eqn:He.
    - apply map_to_list_empty_iff in He.
      destruct (map_to_list (hoverObj_nodes h)) as [|n ns] eqn:Hn.
      + apply map_to_list_empty_iff in Hn.
        rewrite bool_decide_eq_true_2 by (split; assumption). reflexivity.
      + rewrite bool_decide_eq_false_2; [reflexivity|].
        intros [Hn' _]. rewrite Hn', map_to_list_empty in Hn. discriminate.
    - rewrite bool_decide_eq_false_2; [reflexivity|].
      intros [_ He']. rewrite He', map_to_list_empty in He. discriminate. }
  eexists _, (new0 ++ new1 ++ new2 ++ new3 ++ (if hc3 then [Emit "_requestRedraw" PNone] else [])).
  split; [reflexivity|].
  split.
  { destruct hc3; cbn [log set_wasUserDragging emit record];
      rewrite Log3, Log2, Log1, Log0, <- ?app_assoc; [reflexivity|].
    rewrite app_nil_r. reflexivity. }
  split; [destruct hc3; cbn [hoverObj_nodes set_wasUserDragging emit record]; congruence|].
  split; [destruct hc3; cbn [hoverObj_edges set_wasUserDragging emit record]; congruence|].
  assert (Hflag : forall o, hoverOf o (set_wasUserDragging
                     (window_isUserDragging (if hc3 then emit "_requestRedraw" PNone h3 else h3))
                     (if hc3 then emit "_requestRedraw" PNone h3 else h3)) = hoverOf o h3).
  { intros [?|?]; destruct hc3; reflexivity. }
  split.
  { intros k v Hkv. rewrite Hflag. intros Hf. apply No3 in Hf.
    apply (Fl2 k v); [|assumption].
    apply elem_of_map_to_list. rewrite N1. assumption. }
  split.
  { intros k v Hkv. rewrite Hflag.
    apply (Fl3 k v). apply elem_of_map_to_list. rewrite E2, E1. assumption. }
  split; [destruct hc3; cbn [lastHoveredNodes set_wasUserDragging emit record]; congruence|].
  split.
  { rewrite !eventsNamed_app, Ev0, Ev1.
    rewrite (blurEvent_not_named "hoveredNodes" new2) by (discriminate || assumption).
    rewrite (blurEvent_not_named "hoveredNodes" new3) by (discriminate || assumption).
    destruct hc3; rewrite ?app_nil_r; reflexivity. }
  split.
  { rewrite !eventsNamed_app, Ev0, Rd1.
    rewrite (blurEvent_not_named "_requestRedraw" new2) by (discriminate || assumption).
    rewrite (blurEvent_not_named "_requestRedraw" new3) by (discriminate || assumption).
    rewrite Hc3.
    destruct (decide (hoverObj_nodes h = ∅ /\ hoverObj_edges h = ∅)) as [Hd|Hd].
    - rewrite bool_decide_eq_true_2 by assumption. reflexivity.
    - rewrite bool_decide_eq_false_2 by assumption. reflexivity. }
  destruct hc3; cbn [window_wasUserDragging window_isUserDragging set_wasUserDragging emit record];
    congruence.
Qed.

(** X18.  When the pointer hits neither a node nor an edge, [hoverObject]
    returns whatever the fuel; it empties both hover maps and leaves no
    object that was entered in them flagged as hovered; it emits one
    hoveredNodes event with the empty list if [lastHoveredNodes] was not
    empty and none otherwise, and leaves [lastHoveredNodes] empty, so that
    the empty list is sent once; it requests a redraw exactly when a hover
    map was not empty; and it records the drag flag of the frame. *)
Theorem hoverObject_nothing_hit (fuel : nat) (event : UIEvent) (pointer : Pointer)
    (h : Handler) :
  fst (objectAt pointer h) = None ->
  exists h' new,
    hoverObject fuel event pointer h = Some h' /\
    log h' = log h ++ new /\
    hoverObj_nodes h' = ∅ /\
    hoverObj_edges h' = ∅ /\
    (forall k v, hoverObj_nodes h !! k = Some v -> hoverOf (NodeRef v) h' <> Some true) /\
    (forall k v, hoverObj_edges h !! k = Some v -> hoverOf (EdgeRef v) h' <> Some true) /\
    lastHoveredNodes h' = [] /\
    eventsNamed "hoveredNodes" new =
      (if decide (lastHoveredNodes h = []) then [] else [PIds []]) /\
    eventsNamed "_requestRedraw" new =
      (if decide (hoverObj_nodes h = ∅ /\ hoverObj_edges h = ∅) then [] else [PNone]) /\
    window_wasUserDragging h' = window_isUserDragging h.
Proof. apply hoverObject_miss. Qed.

Lemma oneEdgeBody_objectAt_miss :
  fst (objectAt (mkPointer 50 11) oneEdgeBody) = None.
Proof.
  rewrite objectAt_result.
  assert (Hn : fst (getNodeAt (mkPointer 50 11) oneEdgeBody) = None) by reflexivity.
  rewrite Hn, oneEdgeBody_miss by lra. reflexivity.
Qed.

Lemma hoverObject_nothing_hit_witness :
  exists h' new,
    hoverObject 0 (mkUIEvent None) (mkPointer 50 11) oneEdgeBody = Some h' /\
    log h' = log oneEdgeBody ++ new /\
    hoverObj_nodes h' = ∅ /\
    hoverObj_edges h' = ∅.
Proof.
  destruct (hoverObject_nothing_hit 0 (mkUIEvent None) (mkPointer 50 11) oneEdgeBody
              oneEdgeBody_objectAt_miss) as (h' & new & H1 & H2 & H3 & H4 & _).
  exists h', new. split; [exact H1|]. split; [exact H2|]. split; [exact H3|exact H4].
Defined.

(** ** What hover reconciliation leaves alone *)
Lemma hoverFrame_refl (h : Handler) : hoverFrame h h.
Proof. repeat split. exists []. rewrite app_nil_r. reflexivity. Qed.

Lemma hoverFrame_trans (h1 h2 h3 : Handler) :
  hoverFrame h1 h2 -> hoverFrame h2 h3 -> hoverFrame h1 h3.
Proof.
  intros (A1 & A2 & A3 & A4 & A5 & A6 & A7 & n1 & L1)
         (B1 & B2 & B3 & B4 & B5 & B6 & B7 & n2 & L2).
  repeat (split; [congruence|]).
  exists (n1 ++ n2). rewrite L2, L1, app_assoc. reflexivity.
Qed.

Lemma hoverFrame_record (a : Action) (h : Handler) : hoverFrame h (record a h).
Proof. repeat split. exists [a]. reflexivity. Qed.

Lemma hoverFrame_setHover (o : ObjRef) (b : bool) (h : Handler) :
  hoverFrame h (setHover o b h).
Proof.
  destruct o as [id|id]; cbn [setHover].
  - split; [apply fmap_alter_invariant; reflexivity|].
    repeat split. exists []. rewrite app_nil_r. reflexivity.
  - split; [reflexivity|].
    split; [apply fmap_alter_invariant; reflexivity|].
    repeat split. exists []. rewrite app_nil_r. reflexivity.
Qed.

Lemma hoverFrame_addToHover (o : ObjRef) (h : Handler) : hoverFrame h (_addToHover o h).
Proof. destruct o; repeat split; exists []; rewrite app_nil_r; reflexivity. Qed.

Lemma hoverFrame_set_hoverObj_nodes (f : gmap Id Id -> gmap Id Id) (h : Handler) :
  hoverFrame h (set_hoverObj_nodes f h).
Proof. repeat split; exists []; rewrite app_nil_r; reflexivity. Qed.

Lemma hoverFrame_set_hoverObj_edges (f : gmap Id Id -> gmap Id Id) (h : Handler) :
  hoverFrame h (set_hoverObj_edges f h).
Proof. repeat split; exists []; rewrite app_nil_r; reflexivity. Qed.

Lemma hoverFrame_set_lastHoveredNodes (l : list (option Id)) (h : Handler) :
  hoverFrame h (set_lastHoveredNodes l h).
Proof. repeat split; exists []; rewrite app_nil_r; reflexivity. Qed.

Lemma hoverFrame_set_wasUserDragging (b : option bool) (h : Handler) :
  hoverFrame h (set_wasUserDragging b h).
Proof. repeat split; exists []; rewrite app_nil_r; reflexivity. Qed.

Lemma hoverFrame_emitBlurEvent (event : UIEvent) (pointer : Pointer) (o : ObjRef) (h : Handler) :
  hoverFrame h (emitBlurEvent event pointer o h).
Proof.
  unfold emitBlurEvent.
  destruct (hoverOf o h) as [[|]|]; try apply hoverFrame_refl.
  eapply hoverFrame_trans; [apply (hoverFrame_setHover o false)|].
  destruct o; apply hoverFrame_record.
Qed.

Lemma hoverFrame_emitHoverEvent (event : UIEvent) (pointer : Pointer) (o : ObjRef) (h : Handler) :
  hoverFrame h (snd (emitHoverEvent event pointer o h)).
Proof.
  unfold emitHoverEvent.
  destruct (hoverOf o h) as [[|]|]; try apply hoverFrame_refl.
  assert (Hq : hoverFrame h (_addToHover o (setHover o true h))).
  { eapply hoverFrame_trans; [apply (hoverFrame_setHover o true) | apply hoverFrame_addToHover]. }
  destruct o; cbn [snd]; (eapply hoverFrame_trans; [exact Hq|]); apply hoverFrame_record.
Qed.

Lemma hoverFrame_blurNodes (event : UIEvent) (pointer : Pointer) (object : option ObjRef)
    (entries : list (Id * Id)) :
  forall (hoverChanged : bool) (h : Handler),
    hoverFrame h (snd (fold_left (blurNodesStep event pointer object) entries (hoverChanged, h))).
Proof.
  induction entries as [|[nodeId node] entries IH]; intros hoverChanged h;
    [apply hoverFrame_refl|].
  cbn [fold_left]. unfold blurNodesStep at 2.
  destruct (match object with
            | None => true
            | Some (NodeRef id) => bool_decide (id ≠ nodeId)
            | Some (EdgeRef _) => true
            end); [|apply IH].
  eapply hoverFrame_trans; [|apply IH].
  eapply hoverFrame_trans; [apply hoverFrame_emitBlurEvent | apply hoverFrame_set_hoverObj_nodes].
Qed.

Lemma hoverFrame_blurEdges (event : UIEvent) (pointer : Pointer) (object : option ObjRef)
    (entries : list (Id * Id)) :
  forall (hoverChanged : bool) (h : Handler),
    hoverFrame h (snd (fold_left (blurEdgesStep event pointer object) entries (hoverChanged, h))).
Proof.
  induction entries as [|[edgeId edge] entries IH]; intros hoverChanged h;
    [apply hoverFrame_refl|].
  cbn [fold_left]. unfold blurEdgesStep at 2.
  destruct hoverChanged.
  { eapply hoverFrame_trans; [|apply IH].
    eapply hoverFrame_trans; [apply hoverFrame_setHover | apply hoverFrame_set_hoverObj_edges]. }
  destruct (match object with
            | None => true
            | Some (EdgeRef id) => bool_decide (id ≠ edgeId)
            | Some (NodeRef id) => negb (default false (hoverOf (NodeRef id) h))
            end); [|apply IH].
  eapply hoverFrame_trans; [|apply IH].
  eapply hoverFrame_trans; [apply hoverFrame_emitBlurEvent | apply hoverFrame_set_hoverObj_edges].
Qed.

Lemma hoverFrame_hoverEdgesOf (edges : list Id) :
  forall h : Handler, hoverFrame h (hoverEdgesOf edges h).
Proof.
  induction edges as [|e edges IH]; intros h; [apply hoverFrame_refl|].
  cbn [hoverEdgesOf fold_left].
  eapply hoverFrame_trans; [|apply IH].
  eapply hoverFrame_trans; [apply hoverFrame_setHover | apply hoverFrame_addToHover].
Qed.

Lemma hoverFrame_hoverSubordinates (event : UIEvent) (pointer : Pointer)
    (subordinate_nodes : list (option Id)) :
  forall h : Handler, hoverFrame h (hoverSubordinates event pointer subordinate_nodes h).
Proof.
  induction subordinate_nodes as [|sub rest IH]; intros h; [apply hoverFrame_refl|].
  cbn [hoverSubordinates fold_left].
  destruct (body_nodes h !! propertyKey sub); [|apply IH].
  eapply hoverFrame_trans; [apply hoverFrame_emitHoverEvent | apply IH].
Qed.

Lemma hoverFrame_objectAt (pointer : Pointer) (h : Handler) :
  hoverFrame h (snd (objectAt pointer h)).
Proof.
  unfold objectAt, getNodeAt.
  destruct (last _); cbn [snd].
  - apply hoverFrame_record.
  - unfold getEdgeAt. cbn [snd].
    eapply hoverFrame_trans; apply hoverFrame_record.
Qed.

Lemma hoverIndexedNodes_result (fuel i : nat) (h h' : Handler) :
  hoverIndexedNodes fuel i h = Some h' -> h' = h.
Proof.
  destruct fuel as [|fuel]; [discriminate|].
  rewrite hoverIndexedNodes_skip. congruence.
Qed.

Lemma hoverFrame_hoverHit (fuel : nat) (event : UIEvent) (pointer : Pointer)
    (object : ObjRef) (hoverChanged hoverChanged' : bool) (h h' : Handler) :
  hoverHit fuel event pointer object hoverChanged h = Some (hoverChanged', h') ->
  hoverFrame h h'.
Proof.
  unfold hoverHit.
  set (first := hoverChanged || _ || _).
  set (r := if first then _ else (hoverChanged, h)).
  assert (Q1 : hoverFrame h (snd r)).
  { unfold r. destruct first; [|apply hoverFrame_refl].
    destruct object as [id|id]; [destruct (isLabelNodeOf id h); [apply hoverFrame_refl|]|];
      apply hoverFrame_emitHoverEvent. }
  destruct r as [hc1 h1]. cbn [snd] in Q1.
  destruct (if isNode object && hoverConnectedEdges (options h1)
            then _hoverConnectedEdges fuel (ref_id object) h1
            else Some h1) as [h2|] eqn:Hconn;
    [|intros Hx; cbn [mbind option_bind] in Hx; discriminate Hx].
  cbn [mbind option_bind].
  assert (Q2 : hoverFrame h1 h2).
  { destruct (isNode object && hoverConnectedEdges (options h1)).
    - unfold _hoverConnectedEdges in Hconn.
      destruct (hoverIndexedNodes fuel 0 h1) as [h1'|] eqn:Hidx; [|discriminate].
      apply hoverIndexedNodes_result in Hidx. subst h1'.
      cbn [mbind option_bind] in Hconn. injection Hconn as <-.
      apply hoverFrame_hoverEdgesOf.
    - injection Hconn as <-. apply hoverFrame_refl. }
  destruct (_ && _ || _ && _).
  - destruct (find_subordinate_nodes fuel h2 (Some (ref_id object)) []) as [subs|];
      [|intros Hx; cbn [mbind option_bind] in Hx; discriminate Hx].
    cbn [mbind option_bind]. intros [= _ <-].
    eapply hoverFrame_trans; [exact Q1|]. eapply hoverFrame_trans; [exact Q2|].
    eapply hoverFrame_trans; [apply hoverFrame_hoverSubordinates|].
    eapply hoverFrame_trans; [apply hoverFrame_set_lastHoveredNodes|].
    apply hoverFrame_record.
  - intros [= _ <-]. eapply hoverFrame_trans; eassumption.
Qed.

(** X19.  Whenever [hoverObject] returns, it has changed nothing but
    hover flags, the hover maps, [lastHoveredNodes], the drag flag of the
    last frame and the log: the selection, the options, the index lists
    and the drag flag are the same, every node and edge is the same up to
    its hover flag, the body holds the same ids, the log has only grown,
    and the drag flag of the last frame is now the drag flag. *)
Theorem hoverObject_frame (fuel : nat) (event : UIEvent) (pointer : Pointer)
    (h h' : Handler) :
  hoverObject fuel event pointer h = Some h' ->
  hoverFrame h h' /\
  window_wasUserDragging h' = window_isUserDragging h /\
  (forall id, is_Some (body_nodes h' !! id) <-> is_Some (body_nodes h !! id)) /\
  (forall id, is_Some (body_edges h' !! id) <-> is_Some (body_edges h !! id)).
Proof.
  unfold hoverObject.
  pose proof (hoverFrame_objectAt pointer h) as Q0.
  destruct (objectAt pointer h) as [object h0]. cbn [snd] in Q0.
  set (h1 := match object with
             | Some _ => h0
             | None => if decide (0 < length (lastHoveredNodes h0))
                       then set_lastHoveredNodes [] (emit "hoveredNodes" (PIds []) h0)
                       else h0
             end).
  assert (Q1 : hoverFrame h0 h1).
  { unfold h1. destruct object; [apply hoverFrame_refl|].
    destruct (decide _); [|apply hoverFrame_refl].
    eapply hoverFrame_trans; [apply hoverFrame_record|apply hoverFrame_set_lastHoveredNodes]. }
  pose proof (hoverFrame_blurNodes event pointer object
                (map_to_list (hoverObj_nodes h1)) false h1) as Q2.
  destruct (fold_left (blurNodesStep event pointer object)
              (map_to_list (hoverObj_nodes h1)) (false, h1)) as [hc2 h2].
  cbn [snd] in Q2.
  pose proof (hoverFrame_blurEdges event pointer object
                (map_to_list (hoverObj_edges h2)) hc2 h2) as Q3.
  destruct (fold_left (blurEdgesStep event pointer object)
              (map_to_list (hoverObj_edges h2)) (hc2, h2)) as [hc3 h3].
  cbn [snd] in Q3.
  destruct (match object with
            | Some object => hoverHit fuel event pointer object hc3 h3
            | None => Some (hc3, h3)
            end) as [[hc4 h4]|] eqn:Hhit; [|discriminate].
  assert (Q4 : hoverFrame h3 h4).
  { destruct object as [o|].
    - eapply hoverFrame_hoverHit. exact Hhit.
    - injection Hhit as _ <-. apply hoverFrame_refl. }
  intros [= <-].
  assert (Q : hoverFrame h (if hc4 then emit "_requestRedraw" PNone h4 else h4)).
  { eapply hoverFrame_trans; [exact Q0|]. eapply hoverFrame_trans; [exact Q1|].
    eapply hoverFrame_trans; [exact Q2|]. eapply hoverFrame_trans; [exact Q3|].
    eapply hoverFrame_trans; [exact Q4|].
    destruct hc4; [apply hoverFrame_record|apply hoverFrame_refl]. }
  set (h5 := if hc4 then emit "_requestRedraw" PNone h4 else h4) in *.
  assert (Q' : hoverFrame h (set_wasUserDragging (window_isUserDragging h5) h5)).
  { eapply hoverFrame_trans; [exact Q|apply hoverFrame_set_wasUserDragging]. }
  split; [exact Q'|].
  split; [cbn [window_wasUserDragging set_wasUserDragging]; apply Q|].
  destruct Q' as (Hn & He & _).
  split; intros id.
  - rewrite <- (fmap_is_Some unhoveredNode (body_nodes _ !! id)).
    rewrite <- (fmap_is_Some unhoveredNode (body_nodes h !! id)).
    rewrite <- !lookup_fmap, Hn. reflexivity.
  - rewrite <- (fmap_is_Some unhoveredEdge (body_edges _ !! id)).
    rewrite <- (fmap_is_Some unhoveredEdge (body_edges h !! id)).
    rewrite <- !lookup_fmap, He. reflexivity.
Qed.

Lemma hoverObject_frame_witness :
  exists h',
    hoverObject 0 (mkUIEvent None) (mkPointer 50 11) oneEdgeBody = Some h' /\
    hoverFrame oneEdgeBody h' /\
    window_wasUserDragging h' = window_isUserDragging oneEdgeBody.
Proof.
  destruct (hoverObject_miss 0 (mkUIEvent None) (mkPointer 50 11) oneEdgeBody
              oneEdgeBody_objectAt_miss) as (h' & new & Hrun & _).
  exists h'. split; [exact Hrun|].
  destruct (hoverObject_frame 0 (mkUIEvent None) (mkPointer 50 11) oneEdgeBody h' Hrun)
    as (H1 & H2 & _).
  split; [exact H1|exact H2].
Defined.

(** ** The chain walk on any body *)

Lemma find_subordinate_nodes_unfold (fuel : nat) (h : Handler) (node_id : option Id)
    (subordinate_nodes : list (option Id)) :
  find_subordinate_nodes (S fuel) h node_id subordinate_nodes =
    match body_nodes h !! propertyKey node_id with
    | Some node =>
        if decide (node_level node ≠ Some 0%Z) then
          fold_left (walkStep fuel h)
            (filter (fun edge => Some (edge_toId edge) = node_id)
                    (Object_values (body_edges h)))
            (Some subordinate_nodes)
        else Some subordinate_nodes
    | None => Some subordinate_nodes
    end.
Proof. reflexivity. Qed.

Lemma walk_none (fuel : nat) (h : Handler) (l : list Edge) :
  fold_left (walkStep fuel h) l None = None.
Proof. induction l as [|e l IH]; [reflexivity|exact IH]. Qed.

Lemma walk_hits_none (fuel : nat) (h : Handler) (l : list Edge) (e : Edge) :
  e ∈ l ->
  (forall acc, walkStep fuel h acc e = None) ->
  forall acc, fold_left (walkStep fuel h) l acc = None.
Proof.
  intros Hin Hnone. induction l as [|x l IH]; intros acc; [inversion Hin|].
  cbn [fold_left]. apply elem_of_cons in Hin as [<-|Hin].
  - rewrite Hnone. apply walk_none.
  - apply IH. assumption.
Qed.

Lemma edge_of_links (h : Handler) (k : Id) (links : Id * Id * option Id) :
  edgeLinks <$> body_edges h !! k = Some links ->
  exists e, body_edges h !! k = Some e /\ e ∈ Object_values (body_edges h) /\
            edge_fromId e = links.1.1 /\ edge_toId e = links.1.2 /\
            edge_eventualId e = links.2.
Proof.
  destruct (body_edges h !! k) as [e|] eqn:He; [|discriminate].
  intros [= <-]. exists e. split; [reflexivity|]. split; [|repeat split].
  unfold Object_values. apply list_elem_of_fmap. exists (k, e).
  split; [reflexivity|]. apply elem_of_map_to_list. assumption.
Qed.

Lemma find_subordinate_nodes_self_loop (h : Handler) (n k : Id) (level : option Z)
    (eventual : option Id) :
  node_level <$> body_nodes h !! n = Some level ->
  level <> Some 0%Z ->
  edgeLinks <$> body_edges h !! k = Some (n, n, eventual) ->
  forall (fuel : nat) (acc : list (option Id)),
    find_subordinate_nodes fuel h (Some n) acc = None.
Proof.
  intros Hlevel Hnz Hlinks.
  destruct (body_nodes h !! n) as [node|] eqn:Hnode; [|discriminate].
  injection Hlevel as Hlevel.
  destruct (edge_of_links h k _ Hlinks) as (e & He & Hin & Hfrom & Hto & Hev).
  cbn [fst snd] in Hfrom, Hto, Hev.
  induction fuel as [|fuel IH]; intros acc; [reflexivity|].
  rewrite find_subordinate_nodes_unfold.
  change (propertyKey (Some n)) with n. rewrite Hnode.
  destruct (decide (node_level node ≠ Some 0%Z)) as [_|Hn];
    [|exfalso; apply Hn; congruence].
  apply (walk_hits_none fuel h _ e).
  - apply list_elem_of_filter. split; [congruence|assumption].
  - intros [s|]; [|reflexivity]. unfold walkStep. cbn [mbind option_bind].
    rewrite Hfrom, IH. reflexivity.
Qed.

Lemma _hoverConnectedEdges_quiet (fuel : nat) (node : Id) (h h' : Handler) :
  _hoverConnectedEdges fuel node h = Some h' -> quiet h h'.
Proof.
  destruct fuel as [|fuel]; [discriminate|].
  rewrite _hoverConnectedEdges_result. intros [= <-]. apply quiet_hoverEdgesOf.
Qed.

Lemma hoverMemory_refl (h : Handler) : hoverMemory h h.
Proof. split; reflexivity. Qed.

Lemma hoverMemory_trans (h1 h2 h3 : Handler) :
  hoverMemory h1 h2 -> hoverMemory h2 h3 -> hoverMemory h1 h3.
Proof. intros [A1 A2] [B1 B2]. split; congruence. Qed.

Lemma hoverMemory_emitBlurEvent (event : UIEvent) (pointer : Pointer) (o : ObjRef) (h : Handler) :
  hoverMemory h (emitBlurEvent event pointer o h).
Proof.
  unfold emitBlurEvent. destruct (hoverOf o h) as [[|]|]; try apply hoverMemory_refl.
  destruct o; split; reflexivity.
Qed.

Lemma hoverMemory_emitHoverEvent (event : UIEvent) (pointer : Pointer) (o : ObjRef) (h : Handler) :
  hoverMemory h (snd (emitHoverEvent event pointer o h)).
Proof.
  unfold emitHoverEvent. destruct (hoverOf o h) as [[|]|]; try apply hoverMemory_refl.
  destruct o; split; reflexivity.
Qed.

Lemma hoverMemory_blurNodes (event : UIEvent) (pointer : Pointer) (object : option ObjRef)
    (entries : list (Id * Id)) :
  forall (hoverChanged : bool) (h : Handler),
    hoverMemory h (snd (fold_left (blurNodesStep event pointer object) entries (hoverChanged, h))).
Proof.
  induction entries as [|[nodeId node] entries IH]; intros hoverChanged h;
    [apply hoverMemory_refl|].
  cbn [fold_left]. unfold blurNodesStep at 2.
  destruct (match object with
            | None => true
            | Some (NodeRef id) => bool_decide (id ≠ nodeId)
            | Some (EdgeRef _) => true
            end); [|apply IH].
  eapply hoverMemory_trans; [|apply IH].
  eapply hoverMemory_trans; [apply hoverMemory_emitBlurEvent|split; reflexivity].
Qed.

Lemma hoverMemory_blurEdges (event : UIEvent) (pointer : Pointer) (object : option ObjRef)
    (entries : list (Id * Id)) :
  forall (hoverChanged : bool) (h : Handler),
    hoverMemory h (snd (fold_left (blurEdgesStep event pointer object) entries (hoverChanged, h))).
Proof.
  induction entries as [|[edgeId edge] entries IH]; intros hoverChanged h;
    [apply hoverMemory_refl|].
  cbn [fold_left]. unfold blurEdgesStep at 2.
  destruct hoverChanged.
  { eapply hoverMemory_trans; [|apply IH]. split; reflexivity. }
  destruct (match object with
            | None => true
            | Some (EdgeRef id) => bool_decide (id ≠ edgeId)
            | Some (NodeRef id) => negb (default false (hoverOf (NodeRef id) h))
            end); [|apply IH].
  eapply hoverMemory_trans; [|apply IH].
  eapply hoverMemory_trans; [apply hoverMemory_emitBlurEvent|split; reflexivity].
Qed.

Lemma hoverMemory_objectAt (pointer : Pointer) (h : Handler) :
  hoverMemory h (snd (objectAt pointer h)).
Proof.
  unfold objectAt, getNodeAt. destruct (last _); cbn [snd]; split; reflexivity.
Qed.

Lemma hoverMemory_hoverEdgesOf (edges : list Id) :
  forall h : Handler, hoverMemory h (hoverEdgesOf edges h).
Proof.
  induction edges as [|e edges IH]; intros h; [apply hoverMemory_refl|].
  cbn [hoverEdgesOf fold_left].
  eapply hoverMemory_trans; [|apply IH]. split; reflexivity.
Qed.

(** [hoverObject] up to the test that starts the chain walk, when a node
    is hit. *)
Lemma hoverObject_node_hit_steps (fuel : nat) (event : UIEvent) (pointer : Pointer)
    (h : Handler) (n : Id) :
  fst (getNodeAt pointer h) = Some n ->
  exists (hoverChanged : bool) (h5 : Handler),
    quiet h h5 /\ hoverMemory h h5 /\
    hoverObject (S fuel) event pointer h =
      hoverEnd
        (if match window_isUserDragging h with
            | Some true => false
            | _ => true
            end
            || bool_decide (window_wasUserDragging h = Some true) &&
               bool_decide (window_isUserDragging h = Some false)
         then
           subordinate_nodes ← find_subordinate_nodes (S fuel) h5 (Some n) [];
           let h6 := hoverSubordinates event pointer subordinate_nodes h5 in
           let subordinate_nodes := subordinate_nodes ++ [Some n] in
           let h7 := set_lastHoveredNodes subordinate_nodes h6 in
           Some (true, emit "hoveredNodes" (PIds subordinate_nodes) h7)
         else Some (hoverChanged, h5)).
Proof.
  intros Hhit. unfold hoverObject.
  pose proof (quiet_objectAt pointer h) as Q1.
  pose proof (hoverMemory_objectAt pointer h) as M1.
  pose proof (objectAt_result pointer h) as Hobj. rewrite Hhit in Hobj.
  destruct (objectAt pointer h) as [object h1]. cbn [fst snd] in Q1, M1, Hobj.
  subst object. cbv beta iota.
  pose proof (quiet_blurNodes event pointer (Some (NodeRef n))
                (map_to_list (hoverObj_nodes h1)) false h1) as Q2.
  pose proof (hoverMemory_blurNodes event pointer (Some (NodeRef n))
                (map_to_list (hoverObj_nodes h1)) false h1) as M2.
  destruct (fold_left (blurNodesStep event pointer (Some (NodeRef n)))
              (map_to_list (hoverObj_nodes h1)) (false, h1)) as [hc2 h2].
  cbn [snd] in Q2, M2.
  pose proof (quiet_blurEdges event pointer (Some (NodeRef n))
                (map_to_list (hoverObj_edges h2)) hc2 h2) as Q3.
  pose proof (hoverMemory_blurEdges event pointer (Some (NodeRef n))
                (map_to_list (hoverObj_edges h2)) hc2 h2) as M3.
  destruct (fold_left (blurEdgesStep event pointer (Some (NodeRef n)))
              (map_to_list (hoverObj_edges h2)) (hc2, h2)) as [hc3 h3].
  cbn [snd] in Q3, M3.
  unfold hoverHit. cbn [isNode isEdge ref_id andb].
  set (first := hc3 || false ||
                bool_decide (size (hoverObj_edges h3) = 0) &&
                bool_decide (size (hoverObj_nodes h3) = 0)).
  set (r := if first
            then if isLabelNodeOf n h3 then (hc3, h3)
                 else emitHoverEvent event pointer (NodeRef n) h3
            else (hc3, h3)).
  assert (Q4 : quiet h3 (snd r) /\ hoverMemory h3 (snd r)).
  { unfold r. destruct first; [destruct (isLabelNodeOf n h3)|]; cbn [snd];
      try (split; [apply quiet_refl|apply hoverMemory_refl]).
    split; [apply quiet_emitHoverEvent|apply hoverMemory_emitHoverEvent]. }
  destruct r as [hc4 h4]. cbn [snd] in Q4. destruct Q4 as [Q4 M4].
  assert (Q5 : exists h5,
             (if hoverConnectedEdges (options h4)
              then _hoverConnectedEdges (S fuel) n h4
              else Some h4) = Some h5 /\ quiet h4 h5 /\ hoverMemory h4 h5).
  { destruct (hoverConnectedEdges (options h4)).
    - rewrite _hoverConnectedEdges_result.
      eexists; split; [reflexivity|].
      split; [apply quiet_hoverEdgesOf|apply hoverMemory_hoverEdgesOf].
    - eexists; split; [reflexivity|]. split; [apply quiet_refl|apply hoverMemory_refl]. }
  destruct Q5 as (h5 & -> & Q5 & M5). cbn [mbind option_bind].
  assert (Q : quiet h h5).
  { eapply quiet_trans; [exact Q1|]. eapply quiet_trans; [exact Q2|].
    eapply quiet_trans; [exact Q3|]. eapply quiet_trans; [exact Q4 | exact Q5]. }
  assert (M : hoverMemory h h5).
  { eapply hoverMemory_trans; [exact M1|]. eapply hoverMemory_trans; [exact M2|].
    eapply hoverMemory_trans; [exact M3|]. eapply hoverMemory_trans; [exact M4 | exact M5]. }
  exists hc4, h5. split; [exact Q|]. split; [exact M|].
  destruct Q as (_ & _ & Hd & _). destruct M as (Hw & _). rewrite Hd, Hw.
  destruct (_ || _ && _); [|reflexivity].
  destruct (find_subordinate_nodes (S fuel) h5 (Some n) []); reflexivity.
Qed.

(** The state in which [hoverObject] starts the chain walk when a node is
    hit and no drag is in progress: nothing but hover flags, hover maps
    and the log has changed. *)
Lemma hoverObject_node_hit (fuel : nat) (event : UIEvent) (pointer : Pointer)
    (h : Handler) (n : Id) :
  fst (getNodeAt pointer h) = Some n ->
  window_isUserDragging h <> Some true ->
  exists h5,
    quiet h h5 /\
    hoverObject (S fuel) event pointer h =
      (subordinate_nodes ← find_subordinate_nodes (S fuel) h5 (Some n) [];
       let h6 := hoverSubordinates event pointer subordinate_nodes h5 in
       let subordinate_nodes := subordinate_nodes ++ [Some n] in
       let h7 := set_lastHoveredNodes subordinate_nodes h6 in
       let h8 := emit "hoveredNodes" (PIds subordinate_nodes) h7 in
       let h9 := emit "_requestRedraw" PNone h8 in
       Some (set_wasUserDragging (window_isUserDragging h9) h9)).
Proof.
  intros Hhit Hdrag.
  destruct (hoverObject_node_hit_steps fuel event pointer h n Hhit)
    as (hc & h5 & Q & _ & ->).
  exists h5. split; [exact Q|].
  replace (match window_isUserDragging h with
           | Some true => false
           | _ => true
           end) with true
    by (destruct (window_isUserDragging h) as [[|]|]; congruence).
  cbn [orb].
  destruct (find_subordinate_nodes (S fuel) h5 (Some n) []); reflexivity.
Qed.

(** Without fuel nothing is returned. *)
Lemma hoverObject_node_hit_no_fuel (event : UIEvent) (pointer : Pointer)
    (h : Handler) (n : Id) :
  fst (getNodeAt pointer h) = Some n ->
  window_isUserDragging h <> Some true ->
  hoverObject 0 event pointer h = None.
Proof.
  intros Hhit Hdrag. unfold hoverObject.
  pose proof (quiet_objectAt pointer h) as Q1.
  pose proof (objectAt_result pointer h) as Hobj. rewrite Hhit in Hobj.
  destruct (objectAt pointer h) as [object h1]. cbn [fst snd] in Q1, Hobj.
  subst object. cbv beta iota.
  pose proof (quiet_blurNodes event pointer (Some (NodeRef n))
                (map_to_list (hoverObj_nodes h1)) false h1) as Q2.
  destruct (fold_left (blurNodesStep event pointer (Some (NodeRef n)))
              (map_to_list (hoverObj_nodes h1)) (false, h1)) as [hc2 h2].
  cbn [snd] in Q2.
  pose proof (quiet_blurEdges event pointer (Some (NodeRef n))
                (map_to_list (hoverObj_edges h2)) hc2 h2) as Q3.
  destruct (fold_left (blurEdgesStep event pointer (Some (NodeRef n)))
              (map_to_list (hoverObj_edges h2)) (hc2, h2)) as [hc3 h3].
  cbn [snd] in Q3.
  unfold hoverHit. cbn [isNode isEdge ref_id andb].
  set (first := hc3 || false ||
                bool_decide (size (hoverObj_edges h3) = 0) &&
                bool_decide (size (hoverObj_nodes h3) = 0)).
  assert (Q4 : quiet h3 (snd (if first
                              then if isLabelNodeOf n h3 then (hc3, h3)
                                   else emitHoverEvent event pointer (NodeRef n) h3
                              else (hc3, h3)))).
  { destruct first; [destruct (isLabelNodeOf n h3)|]; cbn [snd];
      try apply quiet_refl. apply quiet_emitHoverEvent. }
  destruct (if first
            then if isLabelNodeOf n h3 then (hc3, h3)
                 else emitHoverEvent event pointer (NodeRef n) h3
            else (hc3, h3)) as [hc4 h4].
  cbn [snd] in Q4.
  destruct (hoverConnectedEdges (options h4)); [reflexivity|].
  cbn [mbind option_bind].
  assert (Q : quiet h h4).
  { eapply quiet_trans; [exact Q1|]. eapply quiet_trans; [exact Q2|].
    eapply quiet_trans; [exact Q3|]. exact Q4. }
  assert (Hd5 : window_isUserDragging h4 = window_isUserDragging h) by apply Q.
  rewrite Hd5.
  replace (match window_isUserDragging h with
           | Some true => false
           | _ => true
           end) with true
    by (destruct (window_isUserDragging h) as [[|]|]; congruence).
  reflexivity.
Qed.

(** ** The subordinate chain *)














(** ** A walk that does not end *)

(** X20.  The chain walk keeps no record of the nodes it has visited:
    when the node under the pointer is not of level 0 and has an edge
    from itself to itself, the walk recurses without end.  In the model,
    no amount of fuel makes [find_subordinate_nodes], or [hoverObject]
    when no drag is in progress, return. *)
Theorem hoverObject_self_loop_never_returns (event : UIEvent) (pointer : Pointer)
    (h : Handler) (n k : Id) (level : option Z) (eventual : option Id) :
  fst (getNodeAt pointer h) = Some n ->
  window_isUserDragging h <> Some true ->
  node_level <$> body_nodes h !! n = Some level ->
  level <> Some 0%Z ->
  edgeLinks <$> body_edges h !! k = Some (n, n, eventual) ->
  forall fuel : nat,
    find_subordinate_nodes fuel h (Some n) [] = None /\
    hoverObject fuel event pointer h = None.
Proof.
  intros Hhit Hdrag Hlevel Hnz Hlinks fuel.
  split; [eapply find_subordinate_nodes_self_loop; eassumption|].
  destruct fuel as [|fuel]; [apply (hoverObject_node_hit_no_fuel event pointer h n); assumption|].
  destruct (hoverObject_node_hit fuel event pointer h n Hhit Hdrag) as (h5 & Q & ->).
  rewrite (find_subordinate_nodes_self_loop h5 n k level eventual);
    [reflexivity| |assumption|].
  - rewrite (quiet_lookup_level h h5 _ Q). assumption.
  - rewrite (quiet_lookup_links h h5 _ Q). assumption.
Qed.

Lemma hoverObject_self_loop_never_returns_witness :
  hoverObject 1000 (mkUIEvent None) (mkPointer 0 0) loopBody = None.
Proof.
  apply (hoverObject_self_loop_never_returns (mkUIEvent None) (mkPointer 0 0) loopBody
           "n" "e" (Some 1%Z) None).
  - reflexivity.
  - discriminate.
  - unfold loopBody; cbn [body_nodes]. rewrite lookup_insert_eq. reflexivity.
  - discriminate.
  - unfold loopBody; cbn [body_edges]. rewrite lookup_insert_eq. reflexivity.
Defined.

Lemma walk_some (fuel : nat) (h : Handler) (l : list Edge) :
  (forall e s, e ∈ l -> is_Some (walkStep fuel h (Some s) e)) ->
  forall s, is_Some (fold_left (walkStep fuel h) l (Some s)).
Proof.
  induction l as [|e l IH]; intros Hstep s; [eexists; reflexivity|].
  cbn [fold_left].
  destruct (Hstep e s) as [s' ->]; [left|].
  apply IH. intros e' s0 Hin. apply Hstep. right. assumption.
Qed.

Lemma links_of_edge (h : Handler) (e : Edge) :
  e ∈ Object_values (body_edges h) ->
  exists k, edgeLinks <$> body_edges h !! k
            = Some (edge_fromId e, edge_toId e, edge_eventualId e).
Proof.
  unfold Object_values. intros Hin.
  apply list_elem_of_fmap in Hin as ([k e'] & -> & Hin).
  apply elem_of_map_to_list in Hin. exists k. rewrite Hin. reflexivity.
Qed.

Lemma find_subordinate_nodes_layered (h : Handler) (rank : Id -> nat) :
  layered h rank ->
  forall (fuel : nat) (node_id : option Id) (acc : list (option Id)),
    (0 < fuel)%nat ->
    (forall n, node_id = Some n -> (rank n < fuel)%nat) ->
    is_Some (find_subordinate_nodes fuel h node_id acc).
Proof.
  intros Hlay. induction fuel as [|fuel IH]; intros node_id acc Hpos Hrank; [lia|].
  rewrite find_subordinate_nodes_unfold.
  destruct (body_nodes h !! propertyKey node_id) as [node|] eqn:Hnode; [|eauto].
  destruct (decide (node_level node ≠ Some 0%Z)) as [Hnz|_]; [|eauto].
  apply walk_some. intros e s Hin.
  apply list_elem_of_filter in Hin as [Hto Hin].
  destruct node_id as [n|]; [|discriminate].
  injection Hto as Hto.
  change (propertyKey (Some n)) with n in Hnode.
  destruct (links_of_edge h e Hin) as (k & Hk). rewrite Hto in Hk.
  destruct (Hlay n (node_level node) k (edge_fromId e) (edge_eventualId e))
    as [Hfrom Hev]; [rewrite Hnode; reflexivity|assumption|assumption|].
  specialize (Hrank n eq_refl).
  unfold walkStep. cbn [mbind option_bind].
  destruct (IH (Some (edge_fromId e)) ((s ++ [Some (edge_fromId e)]) ++ [edge_eventualId e]))
    as [s1 ->]; [lia|intros ? [= <-]; lia|].
  cbn [mbind option_bind].
  apply IH; [lia|]. intros ev Hevq. specialize (Hev ev Hevq). lia.
Qed.

Lemma layered_quiet (h h' : Handler) (rank : Id -> nat) :
  quiet h h' -> layered h rank -> layered h' rank.
Proof.
  intros Q Hlay n level k from eventual Hl Hnz Hk.
  rewrite (quiet_lookup_level h h' _ Q) in Hl.
  rewrite (quiet_lookup_links h h' _ Q) in Hk.
  eapply Hlay; eassumption.
Qed.

(** X21.  On a layered body (every edge into a node that is not of
    level 0 comes from nodes of smaller rank) the chain walk ends: with
    fuel above the rank of the node under the pointer, and no drag in
    progress, [hoverObject] returns, emits exactly one hoveredNodes event,
    whose list ends with the id of the hit node and is recorded as
    [lastHoveredNodes], and ends with a redraw request, whether or not
    anything changed. *)
Theorem hoverObject_node_hit_layered (fuel : nat) (event : UIEvent) (pointer : Pointer)
    (h : Handler) (n : Id) (rank : Id -> nat) :
  fst (getNodeAt pointer h) = Some n ->
  window_isUserDragging h <> Some true ->
  layered h rank ->
  (rank n < fuel)%nat ->
  exists h' new subordinate_nodes,
    hoverObject fuel event pointer h = Some h' /\
    log h' = log h ++ new /\
    eventsNamed "hoveredNodes" new = [PIds (subordinate_nodes ++ [Some n])] /\
    lastHoveredNodes h' = subordinate_nodes ++ [Some n] /\
    last new = Some (Emit "_requestRedraw" PNone).
Proof.
  intros Hhit Hdrag Hlay Hrank.
  destruct fuel as [|fuel]; [lia|].
  destruct (hoverObject_node_hit fuel event pointer h n Hhit Hdrag) as (h5 & Q & Hrun).
  destruct (find_subordinate_nodes_layered h5 rank (layered_quiet h h5 rank Q Hlay)
              (S fuel) (Some n) []) as [subs Hsubs];
    [lia|intros ? [= <-]; assumption|].
  rewrite Hsubs in Hrun. cbn [mbind option_bind] in Hrun. cbv zeta in Hrun.
  pose proof (quiet_hoverSubordinates event pointer subs h5) as Q6.
  destruct Q as (_ & _ & _ & new5 & L5 & E5).
  destruct Q6 as (_ & _ & _ & new6 & L6 & E6).
  eexists _, (new5 ++ new6 ++ [Emit "hoveredNodes" (PIds (subs ++ [Some n]));
                               Emit "_requestRedraw" PNone]), subs.
  split; [exact Hrun|].
  cbn [log lastHoveredNodes set_wasUserDragging emit record set_lastHoveredNodes].
  split; [rewrite L6, L5, <- !app_assoc; reflexivity|].
  split; [rewrite !eventsNamed_app, E5, E6; reflexivity|].
  split; [reflexivity|].
  change ([Emit "hoveredNodes" (PIds (subs ++ [Some n])); Emit "_requestRedraw" PNone])
    with ([Emit "hoveredNodes" (PIds (subs ++ [Some n]))] ++ [Emit "_requestRedraw" PNone]).
  rewrite !app_assoc. apply last_snoc.
Qed.

Lemma chainBody_layered :
  layered chainBody (fun id => if decide (id = "top") then 1%nat else 0%nat).
Proof.
  intros n level k from eventual Hn Hnz Hk.
  unfold chainBody in Hk; cbn [body_edges] in Hk.
  destruct (decide (k = "e")) as [->|Hne].
  - rewrite lookup_insert_eq in Hk. injection Hk as <- <- <-.
    split.
    + repeat case_decide; try discriminate; try congruence; lia.
    + intros ev [= <-]. repeat case_decide; try discriminate; try congruence; lia.
  - rewrite lookup_insert_ne in Hk by congruence. rewrite lookup_empty in Hk. discriminate.
Qed.

Lemma hoverObject_node_hit_layered_witness :
  exists h' new subordinate_nodes,
    hoverObject 2 (mkUIEvent None) (mkPointer 0 0) chainBody = Some h' /\
    log h' = log chainBody ++ new /\
    eventsNamed "hoveredNodes" new = [PIds (subordinate_nodes ++ [Some "top"])] /\
    lastHoveredNodes h' = subordinate_nodes ++ [Some "top"] /\
    last new = Some (Emit "_requestRedraw" PNone).
Proof.
  apply (hoverObject_node_hit_layered 2 (mkUIEvent None) (mkPointer 0 0) chainBody "top"
           (fun id => if decide (id = "top") then 1%nat else 0%nat)).
  - reflexivity.
  - discriminate.
  - exact chainBody_layered.
  - case_decide; [lia|congruence].
Defined.

(** X22.  While a drag is in progress, hovering over a node starts no
    chain walk: [hoverObject] returns, emits no "hoveredNodes" event,
    leaves [lastHoveredNodes] as it was and records the drag in
    [window.wasUserDragging]. *)
Theorem hoverObject_node_hit_while_dragging (fuel : nat) (event : UIEvent)
    (pointer : Pointer) (h : Handler) (n : Id) :
  fst (getNodeAt pointer h) = Some n ->
  window_isUserDragging h = Some true ->
  exists h' new,
    hoverObject (S fuel) event pointer h = Some h' /\
    log h' = log h ++ new /\
    eventsNamed "hoveredNodes" new = [] /\
    lastHoveredNodes h' = lastHoveredNodes h /\
    window_wasUserDragging h' = Some true.
Proof.
  intros Hhit Hdrag.
  destruct (hoverObject_node_hit_steps fuel event pointer h n Hhit)
    as (hc & h5 & Q & M & ->).
  rewrite Hdrag. rewrite (bool_decide_eq_false_2 (Some true = Some false)) by discriminate.
  rewrite andb_false_r. cbn [orb]. unfold hoverEnd.
  destruct Q as (_ & _ & Hd & new5 & L5 & E5). destruct M as (_ & Hl).
  eexists _, (new5 ++ (if hc then [Emit "_requestRedraw" PNone] else [])).
  split; [reflexivity|].
  destruct hc; cbn [log lastHoveredNodes window_wasUserDragging window_isUserDragging
                    set_wasUserDragging emit record].
  - split; [rewrite L5, <- app_assoc; reflexivity|].
    split; [rewrite eventsNamed_app, E5; reflexivity|]. split; [exact Hl|congruence].
  - split; [rewrite L5, app_nil_r; reflexivity|].
    split; [rewrite eventsNamed_app, E5; reflexivity|]. split; [exact Hl|congruence].
Qed.

Lemma hoverObject_node_hit_while_dragging_witness :
  exists h' new,
    hoverObject 1 (mkUIEvent None) (mkPointer 0 0) draggingBody = Some h' /\
    log h' = log draggingBody ++ new /\
    eventsNamed "hoveredNodes" new = [] /\
    lastHoveredNodes h' = lastHoveredNodes draggingBody /\
    window_wasUserDragging h' = Some true.
Proof.
  apply (hoverObject_node_hit_while_dragging 0 (mkUIEvent None) (mkPointer 0 0)
           draggingBody "top").
  - reflexivity.
  - reflexivity.
Defined.

(** ** Hovering over an edge *)

(** [hoverObject] up to the test that starts the chain walk, when an
    edge is hit. *)
Lemma hoverObject_edge_hit_steps (fuel : nat) (event : UIEvent) (pointer : Pointer)
    (h : Handler) (e : Id) :
  fst (objectAt pointer h) = Some (EdgeRef e) ->
  exists (hoverChanged : bool) (h4 : Handler),
    quiet h h4 /\ hoverMemory h h4 /\
    hoverObject fuel event pointer h =
      hoverEnd
        (if bool_decide (window_wasUserDragging h = Some true) &&
            bool_decide (window_isUserDragging h = Some false)
         then
           subordinate_nodes ← find_subordinate_nodes fuel h4 (Some e) [];
           let h5 := hoverSubordinates event pointer subordinate_nodes h4 in
           let subordinate_nodes := subordinate_nodes ++ [Some e] in
           let h6 := set_lastHoveredNodes subordinate_nodes h5 in
           Some (true, emit "hoveredNodes" (PIds subordinate_nodes) h6)
         else Some (hoverChanged, h4)).
Proof.
  intros Hhit. unfold hoverObject.
  pose proof (quiet_objectAt pointer h) as Q1.
  pose proof (hoverMemory_objectAt pointer h) as M1.
  destruct (objectAt pointer h) as [object h1]. cbn [fst snd] in Hhit, Q1, M1.
  subst object. cbv beta iota.
  pose proof (quiet_blurNodes event pointer (Some (EdgeRef e))
                (map_to_list (hoverObj_nodes h1)) false h1) as Q2.
  pose proof (hoverMemory_blurNodes event pointer (Some (EdgeRef e))
                (map_to_list (hoverObj_nodes h1)) false h1) as M2.
  destruct (fold_left (blurNodesStep event pointer (Some (EdgeRef e)))
              (map_to_list (hoverObj_nodes h1)) (false, h1)) as [hc2 h2].
  cbn [snd] in Q2, M2.
  pose proof (quiet_blurEdges event pointer (Some (EdgeRef e))
                (map_to_list (hoverObj_edges h2)) hc2 h2) as Q3.
  pose proof (hoverMemory_blurEdges event pointer (Some (EdgeRef e))
                (map_to_list (hoverObj_edges h2)) hc2 h2) as M3.
  destruct (fold_left (blurEdgesStep event pointer (Some (EdgeRef e)))
              (map_to_list (hoverObj_edges h2)) (hc2, h2)) as [hc3 h3].
  cbn [snd] in Q3, M3.
  unfold hoverHit. cbn [isNode isEdge ref_id andb].
  match goal with
  | |- context [if ?c then emitHoverEvent _ _ _ _ else _] => set (first := c)
  end.
  assert (Q4 : quiet h3 (snd (if first
                              then emitHoverEvent event pointer (EdgeRef e) h3
                              else (hc3, h3))) /\
               hoverMemory h3 (snd (if first
                              then emitHoverEvent event pointer (EdgeRef e) h3
                              else (hc3, h3)))).
  { destruct first; cbn [snd];
      [split; [apply quiet_emitHoverEvent|apply hoverMemory_emitHoverEvent]
      |split; [apply quiet_refl|apply hoverMemory_refl]]. }
  destruct (if first
            then emitHoverEvent event pointer (EdgeRef e) h3
            else (hc3, h3)) as [hc4 h4].
  cbn [snd] in Q4. destruct Q4 as [Q4 M4].
  cbn [mbind option_bind orb].
  assert (Q : quiet h h4).
  { eapply quiet_trans; [exact Q1|]. eapply quiet_trans; [exact Q2|].
    eapply quiet_trans; [exact Q3|exact Q4]. }
  assert (M : hoverMemory h h4).
  { eapply hoverMemory_trans; [exact M1|]. eapply hoverMemory_trans; [exact M2|].
    eapply hoverMemory_trans; [exact M3|exact M4]. }
  exists hc4, h4. split; [exact Q|]. split; [exact M|].
  destruct Q as (_ & _ & Hd & _). destruct M as (Hw & _). rewrite Hd, Hw.
  destruct (bool_decide (window_wasUserDragging h = Some true) &&
            bool_decide (window_isUserDragging h = Some false)); [|reflexivity].
  destruct (find_subordinate_nodes fuel h4 (Some e) []); reflexivity.
Qed.

(** X23.  When the pointer hits an edge, [hoverObject] runs the chain
    walk only in the frame after a drag has ended (the drag flag of the
    last frame is true and the drag flag is false).  Otherwise it returns
    without a hoveredNodes event and leaves [lastHoveredNodes] alone.  In
    the frame after a drag, if no node has the id of the edge, it emits a
    hoveredNodes event whose list is the id of the edge, and records that
    list as [lastHoveredNodes]. *)
Theorem hoverObject_edge_hit (fuel : nat) (event : UIEvent) (pointer : Pointer)
    (h : Handler) (e : Id) :
  fst (objectAt pointer h) = Some (EdgeRef e) ->
  (~ (window_wasUserDragging h = Some true /\ window_isUserDragging h = Some false) ->
   exists h' new,
     hoverObject fuel event pointer h = Some h' /\
     log h' = log h ++ new /\
     eventsNamed "hoveredNodes" new = [] /\
     lastHoveredNodes h' = lastHoveredNodes h) /\
  (window_wasUserDragging h = Some true -> window_isUserDragging h = Some false ->
   body_nodes h !! e = None ->
   exists h' new,
     hoverObject (S fuel) event pointer h = Some h' /\
     log h' = log h ++ new /\
     eventsNamed "hoveredNodes" new = [PIds [Some e]] /\
     lastHoveredNodes h' = [Some e]).
Proof.
  intros Hhit. split.
  - intros Hnot.
    destruct (hoverObject_edge_hit_steps fuel event pointer h e Hhit)
      as (hc4 & h4 & Q & M & ->).
    assert (Hc : bool_decide (window_wasUserDragging h = Some true) &&
                 bool_decide (window_isUserDragging h = Some false) = false).
    { apply andb_false_iff.
      destruct (decide (window_wasUserDragging h = Some true)) as [Hw|Hw].
      - right. apply bool_decide_eq_false_2. intros Hd. apply Hnot. split; assumption.
      - left. apply bool_decide_eq_false_2. assumption. }
    rewrite Hc. unfold hoverEnd. cbv beta iota zeta.
    destruct Q as (_ & _ & _ & new4 & L4 & E4). destruct M as (_ & Hl).
    eexists _, (new4 ++ (if hc4 then [Emit "_requestRedraw" PNone] else [])).
    split; [reflexivity|].
    destruct hc4; cbn [log lastHoveredNodes set_wasUserDragging emit record].
    + split; [rewrite L4, <- app_assoc; reflexivity|].
      split; [rewrite eventsNamed_app, E4; reflexivity|exact Hl].
    + split; [rewrite L4, app_nil_r; reflexivity|].
      split; [rewrite eventsNamed_app, E4; reflexivity|exact Hl].
  - intros Hw Hd Hnone.
    destruct (hoverObject_edge_hit_steps (S fuel) event pointer h e Hhit)
      as (hc4 & h4 & Q & M & ->).
    rewrite !bool_decide_eq_true_2 by assumption. cbn [andb].
    assert (Hnone4 : body_nodes h4 !! e = None).
    { pose proof (quiet_lookup_level h h4 e Q) as Hl. rewrite Hnone in Hl.
      destruct (body_nodes h4 !! e); [discriminate|reflexivity]. }
    rewrite find_subordinate_nodes_unfold.
    change (propertyKey (Some e)) with e. rewrite Hnone4.
    cbn [mbind option_bind hoverSubordinates fold_left app]. unfold hoverEnd.
    cbv beta iota zeta.
    destruct Q as (_ & _ & _ & new4 & L4 & E4).
    eexists _, (new4 ++ [Emit "hoveredNodes" (PIds [Some e]); Emit "_requestRedraw" PNone]).
    split; [reflexivity|].
    cbn [log lastHoveredNodes set_wasUserDragging emit record set_lastHoveredNodes].
    split; [rewrite L4, <- !app_assoc; reflexivity|].
    split; [rewrite eventsNamed_app, E4; reflexivity|reflexivity].
Qed.

Lemma afterDragBody_objectAt :
  fst (objectAt (mkPointer 50 9) afterDragBody) = Some (EdgeRef "e").
Proof.
  rewrite objectAt_result.
  assert (Hn : fst (getNodeAt (mkPointer 50 9) afterDragBody) = None) by reflexivity.
  rewrite Hn.
  change (fst (getEdgeAt (mkPointer 50 9) afterDragBody))
    with (fst (getEdgeAt (mkPointer 50 9) oneEdgeBody)).
  rewrite oneEdgeBody_hit by lra. reflexivity.
Qed.

Lemma hoverObject_edge_hit_witness :
  exists h' new,
    hoverObject 1 (mkUIEvent None) (mkPointer 50 9) afterDragBody = Some h' /\
    log h' = log afterDragBody ++ new /\
    eventsNamed "hoveredNodes" new = [PIds [Some "e"]] /\
    lastHoveredNodes h' = [Some "e"].
Proof.
  apply (proj2 (hoverObject_edge_hit 0 (mkUIEvent None) (mkPointer 50 9) afterDragBody "e"
                  afterDragBody_objectAt)).
  - reflexivity.
  - reflexivity.
  - unfold afterDragBody; cbn [body_nodes].
    rewrite !lookup_insert_ne by discriminate. apply lookup_empty.
Defined.

(** ** The result of selectOnPoint *)

(** X24.  [selectOnPoint] returns true exactly when selection is enabled
    and the pointer hits a node or an edge.  With selection disabled it
    changes nothing at all; with selection enabled it ends with a redraw
    request and keeps the nodes and edges of the body. *)
Theorem selectOnPoint_result (pointer : Pointer) (h : Handler) :
  fst (selectOnPoint pointer h) =
    selectable (options h) && bool_decide (is_Some (fst (objectAt pointer h))) /\
  (selectable (options h) = false -> snd (selectOnPoint pointer h) = h) /\
  (selectable (options h) = true ->
   last (log (snd (selectOnPoint pointer h))) = Some (Emit "_requestRedraw" PNone) /\
   body_nodes (snd (selectOnPoint pointer h)) = body_nodes h /\
   body_edges (snd (selectOnPoint pointer h)) = body_edges h).
Proof.
  unfold selectOnPoint.
  destruct (selectable (options h)) eqn:Hs; cbn [andb].
  - pose proof (objectAt_fields pointer h) as F. cbv zeta in F.
    destruct (objectAt pointer h) as [obj h1]. cbn [fst snd] in *.
    destruct F as (Hn & He & _).
    destruct obj as [o|].
    + rewrite bool_decide_eq_true_2 by eauto.
      pose proof (selectObject_sameCommitted (Some o) None (unselectAll h1)) as (Sn & Se & _).
      destruct (selectObject (Some o) None (unselectAll h1)) as [selected h2] eqn:Hsel.
      cbn [fst snd] in *.
      split; [unfold selectObject in Hsel; destruct o; injection Hsel as <- _; reflexivity|].
      split; [discriminate|]. intros _.
      split; [cbn [log emit record]; apply last_snoc|].
      cbn [body_nodes body_edges emit record]. rewrite Sn, Se.
      cbn [unselectAll body_nodes body_edges set_accumulator record]. split; assumption.
    + rewrite bool_decide_eq_false_2 by (intros [x Hx]; discriminate).
      cbn [fst snd]. split; [reflexivity|]. split; [discriminate|]. intros _.
      split; [cbn [log emit record]; apply last_snoc|].
      cbn [unselectAll body_nodes body_edges set_accumulator record emit]. split; assumption.
  - cbn [fst snd]. split; [reflexivity|]. split; [reflexivity|discriminate].
Qed.

Lemma selectOnPoint_result_witness :
  last (log (snd (selectOnPoint (mkPointer 50 9) oneEdgeBody)))
    = Some (Emit "_requestRedraw" PNone) /\
  body_nodes (snd (selectOnPoint (mkPointer 50 9) oneEdgeBody)) = body_nodes oneEdgeBody /\
  body_edges (snd (selectOnPoint (mkPointer 50 9) oneEdgeBody)) = body_edges oneEdgeBody.
Proof.
  apply (proj2 (proj2 (selectOnPoint_result (mkPointer 50 9) oneEdgeBody))).
  reflexivity.
Defined.

(** ** The steps of setSelection *)
Lemma selectObject_log (obj : option ObjRef) (highlightEdges : option bool) (h : Handler) :
  exists payload,
    log (snd (selectObject obj highlightEdges h))
    = log h ++ [CallSelectObject obj; Emit "selectedNodes" payload].
Proof.
  unfold selectObject.
  destruct obj as [[id|id]|].
  - destruct (match highlightEdges with
              | Some b => b
              | None => selectConnectedEdges (options (record (CallSelectObject (Some (NodeRef id))) h))
              end); eexists; cbn [snd log emit record set_accumulator];
      rewrite <- app_assoc; reflexivity.
  - eexists; cbn [snd log emit record set_accumulator]; rewrite <- app_assoc; reflexivity.
  - eexists; cbn [snd log emit record set_accumulator]; rewrite <- app_assoc; reflexivity.
Qed.

Lemma selectObjectCalls_app (l1 l2 : list Action) :
  selectObjectCalls (l1 ++ l2) = selectObjectCalls l1 ++ selectObjectCalls l2.
Proof. apply omap_app. Qed.

Lemma selectionSteps_nil : selectionSteps [] [].
Proof. repeat split. intros H. inversion H. Qed.

Lemma selectionSteps_app (n1 n2 : list Action) (c1 c2 : list (option ObjRef)) :
  selectionSteps n1 c1 -> selectionSteps n2 c2 -> selectionSteps (n1 ++ n2) (c1 ++ c2).
Proof.
  intros (A1 & A2 & A3) (B1 & B2 & B3). split; [|split].
  - rewrite selectObjectCalls_app, A1, B1. reflexivity.
  - rewrite eventsNamed_app, A2, B2. reflexivity.
  - intros Hin. apply elem_of_app in Hin as [?|?]; contradiction.
Qed.

Lemma selectionSteps_selectObject (obj : option ObjRef) (payload : Payload) :
  selectionSteps [CallSelectObject obj; Emit "selectedNodes" payload] [obj].
Proof.
  split; [reflexivity|]. split; [reflexivity|].
  intros Hin. apply elem_of_cons in Hin as [Hin|Hin]; [discriminate|].
  apply list_elem_of_singleton in Hin. discriminate.
Qed.

Lemma selectNodeIds_calls (ids : list Id) (highlightEdges : option bool) :
  forall h : Handler,
    (forall id, id ∈ ids -> is_Some (body_nodes h !! id)) ->
    exists h' new,
      selectNodeIds ids highlightEdges h = (Normal, h') /\
      log h' = log h ++ new /\
      selectionSteps new (Some ∘ NodeRef <$> withoutLabelNodes ids h).
Proof.
  induction ids as [|id rest IH]; intros h Hall; cbn [selectNodeIds].
  { exists h, []. rewrite app_nil_r. split; [reflexivity|]. split; [reflexivity|].
    apply selectionSteps_nil. }
  destruct (Hall id) as [node Hnode]; [left|]. rewrite Hnode.
  set (h1 := if node_isLabelNode node then h
             else snd (selectObject (Some (NodeRef id)) highlightEdges h)).
  assert (Hsame : sameCommitted h h1).
  { unfold h1. destruct (node_isLabelNode node);
      [apply sameCommitted_refl | apply selectObject_sameCommitted]. }
  destruct Hsame as (Hn & _).
  destruct (IH h1) as (h' & new & Hrun & Hlog & Hsteps).
  { intros x Hx. rewrite Hn. apply Hall. right. assumption. }
  assert (Hrest : withoutLabelNodes rest h1 = withoutLabelNodes rest h).
  { unfold withoutLabelNodes, isLabelNodeOf. rewrite Hn. reflexivity. }
  rewrite Hrest in Hsteps.
  assert (Hlabel : isLabelNodeOf id h = node_isLabelNode node)
    by (unfold isLabelNodeOf; rewrite Hnode; reflexivity).
  unfold withoutLabelNodes at 1. rewrite filter_cons.
  fold (withoutLabelNodes rest h).
  unfold h1 in *. clear h1.
  destruct (node_isLabelNode node).
  - destruct (decide (isLabelNodeOf id h = false)) as [Hd|_]; [congruence|].
    exists h', new. split; [exact Hrun|]. split; [exact Hlog|exact Hsteps].
  - destruct (decide (isLabelNodeOf id h = false)) as [_|Hd]; [|congruence].
    destruct (selectObject_log (Some (NodeRef id)) highlightEdges h) as (payload & Hl).
    exists h', ([CallSelectObject (Some (NodeRef id)); Emit "selectedNodes" payload] ++ new).
    split; [exact Hrun|]. split; [rewrite Hlog, Hl, <- app_assoc; reflexivity|].
    rewrite fmap_cons.
    apply (selectionSteps_app _ _ [_] _); [apply selectionSteps_selectObject|exact Hsteps].
Qed.

Lemma selectEdgeIds_calls (ids : list Id) :
  forall h : Handler,
    (forall id, id ∈ ids -> is_Some (body_edges h !! id)) ->
    exists h' new,
      selectEdgeIds ids h = (Normal, h') /\
      log h' = log h ++ new /\
      selectionSteps new (Some ∘ EdgeRef <$> ids).
Proof.
  induction ids as [|id rest IH]; intros h Hall; cbn [selectEdgeIds].
  { exists h, []. rewrite app_nil_r. split; [reflexivity|]. split; [reflexivity|].
    apply selectionSteps_nil. }
  destruct (Hall id) as [edge Hedge]; [left|]. rewrite Hedge.
  set (h1 := snd (selectObject (Some (EdgeRef id)) None h)).
  assert (Hsame : sameCommitted h h1) by apply selectObject_sameCommitted.
  destruct Hsame as (_ & He & _).
  destruct (IH h1) as (h' & new & Hrun & Hlog & Hsteps).
  { intros x Hx. rewrite He. apply Hall. right. assumption. }
  destruct (selectObject_log (Some (EdgeRef id)) None h) as (payload & Hl).
  exists h', ([CallSelectObject (Some (EdgeRef id)); Emit "selectedNodes" payload] ++ new).
  split; [exact Hrun|]. split; [fold h1 in Hl; rewrite Hlog, Hl, <- app_assoc; reflexivity|].
  rewrite fmap_cons.
  apply (selectionSteps_app _ _ [_] _); [apply selectionSteps_selectObject|exact Hsteps].
Qed.

(** X25.  When every id of the argument leads to a node or an edge of
    the body, [setSelection] returns normally.  Its steps are, in this
    order: [unselectAll], unless the option is false; one call of
    [selectObject] for each node id that is not the id of a label node, in
    the order of the array (ids of label nodes are passed over in
    silence), then one for each edge id; and the redraw request.  The body
    is left as it is. *)
Theorem setSelection_selects_in_order (s : SelectionArg) (opts : SetSelectionOptions)
    (h : Handler) :
  (is_Some (sel_nodes s) \/ is_Some (sel_edges s)) ->
  (forall id, id ∈ default [] (sel_nodes s) -> is_Some (body_nodes h !! id)) ->
  (forall id, id ∈ default [] (sel_edges s) -> is_Some (body_edges h !! id)) ->
  exists h' new,
    setSelection (Some s) opts h = (Normal, h') /\
    log h' = log h
             ++ (if bool_decide (opt_unselectAll opts = Some false) then []
                 else [CallUnselectAll])
             ++ new ++ [Emit "_requestRedraw" PNone] /\
    selectObjectCalls new =
      (Some ∘ NodeRef <$> withoutLabelNodes (default [] (sel_nodes s)) h)
      ++ (Some ∘ EdgeRef <$> default [] (sel_edges s)) /\
    (CallUnselectAll ∉ new) /\
    eventsNamed "_requestRedraw" new = [] /\
    body_nodes h' = body_nodes h /\
    body_edges h' = body_edges h.
Proof.
  intros Hwell Hnodes Hedges. cbn [setSelection].
  set (h0 := match opt_unselectAll opts with
             | Some true | None => unselectAll h
             | Some false => h
             end).
  assert (H0 : body_nodes h0 = body_nodes h /\ body_edges h0 = body_edges h /\
               log h0 = log h ++ (if bool_decide (opt_unselectAll opts = Some false) then []
                                  else [CallUnselectAll])).
  { unfold h0. destruct (opt_unselectAll opts) as [[|]|];
      (split; [reflexivity|]); (split; [reflexivity|]);
      try reflexivity. rewrite app_nil_r. reflexivity. }
  destruct H0 as (Hn0 & He0 & Hl0).
  assert (Hn : exists h1 new1,
            match sel_nodes s with
            | Some ids => selectNodeIds ids (opt_highlightEdges opts) h0
            | None => (Normal, h0)
            end = (Normal, h1) /\
            log h1 = log h0 ++ new1 /\
            selectionSteps new1 (Some ∘ NodeRef <$> withoutLabelNodes (default [] (sel_nodes s)) h) /\
            body_edges h1 = body_edges h /\ body_nodes h1 = body_nodes h).
  { destruct (sel_nodes s) as [ids|]; cbn [default] in *.
    - destruct (selectNodeIds_calls ids (opt_highlightEdges opts) h0)
        as (h1 & new1 & Hrun & Hlog & Hsteps).
      { intros id Hid. rewrite Hn0. auto. }
      exists h1, new1. split; [exact Hrun|]. split; [exact Hlog|].
      assert (Hw : withoutLabelNodes ids h0 = withoutLabelNodes ids h).
      { unfold withoutLabelNodes, isLabelNodeOf. rewrite Hn0. reflexivity. }
      rewrite Hw in Hsteps. split; [exact Hsteps|].
      pose proof (selectNodeIds_outcome ids (opt_highlightEdges opts) h0) as Hout.
      rewrite Hrun in Hout. destruct Hout as ((A1 & A2 & _) & _).
      split; congruence.
    - exists h0, []. rewrite app_nil_r. split; [reflexivity|]. split; [reflexivity|].
      split; [apply selectionSteps_nil|]. split; assumption. }
  destruct Hn as (h1 & new1 & Hrun1 & Hlog1 & Hsteps1 & He1 & Hn1).
  assert (He : exists h2 new2,
            match sel_edges s with
            | Some ids => selectEdgeIds ids h1
            | None => (Normal, h1)
            end = (Normal, h2) /\
            log h2 = log h1 ++ new2 /\
            selectionSteps new2 (Some ∘ EdgeRef <$> default [] (sel_edges s)) /\
            body_edges h2 = body_edges h /\ body_nodes h2 = body_nodes h).
  { destruct (sel_edges s) as [ids|]; cbn [default] in *.
    - destruct (selectEdgeIds_calls ids h1) as (h2 & new2 & Hrun & Hlog & Hsteps).
      { intros id Hid. rewrite He1. auto. }
      exists h2, new2. split; [exact Hrun|]. split; [exact Hlog|]. split; [exact Hsteps|].
      pose proof (selectEdgeIds_outcome ids h1) as Hout.
      rewrite Hrun in Hout. destruct Hout as ((A1 & A2 & _) & _).
      split; congruence.
    - exists h1, []. rewrite app_nil_r. split; [reflexivity|]. split; [reflexivity|].
      split; [apply selectionSteps_nil|]. split; assumption. }
  destruct He as (h2 & new2 & Hrun2 & Hlog2 & Hsteps2 & He2 & Hn2).
  pose proof (selectionSteps_app _ _ _ _ Hsteps1 Hsteps2) as (S1 & S2 & S3).
  exists (commitWithoutEmitting (emit "_requestRedraw" PNone h2)), (new1 ++ new2).
  split.
  { fold h0. rewrite Hrun1, Hrun2.
    destruct (sel_nodes s), (sel_edges s); try reflexivity.
    destruct Hwell as [[? ?]|[? ?]]; discriminate. }
  split.
  { cbn [log commitWithoutEmitting set_accumulator emit record].
    rewrite Hlog2, Hlog1, Hl0, <- !app_assoc. reflexivity. }
  split; [exact S1|]. split; [exact S3|]. split; [exact S2|].
  split; assumption.
Qed.

Lemma setSelection_selects_in_order_witness :
  exists h' new,
    setSelection (Some (mkSelectionArg (Some ["a"; "b"]) (Some ["e"])))
                 (mkSetSelectionOptions None None) oneEdgeBody = (Normal, h') /\
    log h' = log oneEdgeBody ++ [CallUnselectAll] ++ new ++ [Emit "_requestRedraw" PNone] /\
    selectObjectCalls new =
      (Some ∘ NodeRef <$> withoutLabelNodes ["a"; "b"] oneEdgeBody)
      ++ [Some (EdgeRef "e")].
Proof.
  destruct (setSelection_selects_in_order
              (mkSelectionArg (Some ["a"; "b"]) (Some ["e"]))
              (mkSetSelectionOptions None None) oneEdgeBody)
    as (h' & new & H1 & H2 & H3 & _).
  - left. eauto.
  - intros id Hid. cbn [default sel_nodes] in Hid.
    unfold oneEdgeBody; cbn [body_nodes].
    repeat (apply elem_of_cons in Hid as [->|Hid]);
      [ rewrite lookup_insert_eq; eauto
      | rewrite lookup_insert_ne by discriminate; rewrite lookup_insert_eq; eauto
      | inversion Hid ].
  - intros id Hid. cbn [default sel_edges] in Hid.
    unfold oneEdgeBody; cbn [body_edges].
    apply list_elem_of_singleton in Hid as ->. rewrite lookup_insert_eq. eauto.
  - exists h', new. split; [exact H1|]. split; [exact H2|exact H3].
Defined.

Lemma setSelection_nodes_only (ids : list Id) (highlightEdges : option bool) (h : Handler) :
  setSelection (Some (mkSelectionArg (Some ids) None))
               (mkSetSelectionOptions None highlightEdges) h
  = match selectNodeIds ids highlightEdges (unselectAll h) with
    | (Thrown e, h') => (Thrown e, h')
    | (Normal, h') => (Normal, commitWithoutEmitting (emit "_requestRedraw" PNone h'))
    end.
Proof.
  cbn [setSelection sel_nodes sel_edges opt_unselectAll opt_highlightEdges].
  destruct (selectNodeIds ids highlightEdges (unselectAll h)) as [[e|] h']; reflexivity.
Qed.

Lemma setSelection_edges_only (ids : list Id) (h : Handler) :
  setSelection (Some (mkSelectionArg None (Some ids)))
               (mkSetSelectionOptions None None) h
  = match selectEdgeIds ids (unselectAll h) with
    | (Thrown e, h') => (Thrown e, h')
    | (Normal, h') => (Normal, commitWithoutEmitting (emit "_requestRedraw" PNone h'))
    end.
Proof.
  cbn [setSelection sel_nodes sel_edges opt_unselectAll opt_highlightEdges].
  destruct (selectEdgeIds ids (unselectAll h)) as [[e|] h']; reflexivity.
Qed.

(** X26.  [selectNodes] and [selectEdges] throw the string "Selection
    must be an array with ids", and change nothing, when the argument is
    missing.  Given an array they return when every id leads to a node
    (an edge) of the body, and otherwise throw the RangeError of
    [setSelection] for an id of the array that the body does not hold,
    leaving the body and the committed selection as they are. *)
Theorem selectNodes_selectEdges_errors (highlightEdges : option bool) (h : Handler) :
  selectNodes None highlightEdges h = (Throws notAnArray, h) /\
  selectEdges None h = (Throws notAnArray, h) /\
  (forall ids,
     ((forall id, id ∈ ids -> is_Some (body_nodes h !! id)) ->
      fst (selectNodes (Some ids) highlightEdges h) = Returned) /\
     ((exists id, id ∈ ids /\ body_nodes h !! id = None) ->
      exists bad,
        fst (selectNodes (Some ids) highlightEdges h) = Throws (ThrownError (nodeNotFound bad)) /\
        bad ∈ ids /\ body_nodes h !! bad = None /\
        sameCommitted h (snd (selectNodes (Some ids) highlightEdges h)))) /\
  (forall ids,
     ((forall id, id ∈ ids -> is_Some (body_edges h !! id)) ->
      fst (selectEdges (Some ids) h) = Returned) /\
     ((exists id, id ∈ ids /\ body_edges h !! id = None) ->
      exists bad,
        fst (selectEdges (Some ids) h) = Throws (ThrownError (edgeNotFound bad)) /\
        bad ∈ ids /\ body_edges h !! bad = None /\
        sameCommitted h (snd (selectEdges (Some ids) h)))).
Proof.
  split; [reflexivity|]. split; [reflexivity|]. split.
  - intros ids. unfold selectNodes, callSetSelection.
    rewrite setSelection_nodes_only.
    pose proof (selectNodeIds_outcome ids (Some (default true highlightEdges)) (unselectAll h))
      as Hout.
    destruct (selectNodeIds ids (Some (default true highlightEdges)) (unselectAll h))
      as [c h'].
    destruct Hout as [Hsame Hc]. split.
    + intros Hall. destruct Hc as [[-> _]|(bad & -> & Hin & Hbad)]; [reflexivity|].
      destruct (Hall bad Hin) as [x Hx]. cbn [unselectAll body_nodes set_accumulator record] in Hbad.
      congruence.
    + intros (id & Hin & Hnone).
      destruct Hc as [[-> Hall]|(bad & -> & Hb & Hbad)].
      * destruct (Hall id Hin) as [x Hx].
        cbn [unselectAll body_nodes set_accumulator record] in Hx. congruence.
      * exists bad. cbn [fst snd]. split; [reflexivity|]. split; [assumption|].
        split; [exact Hbad|].
        eapply sameCommitted_trans; [apply unselectAll_sameCommitted|exact Hsame].
  - intros ids. unfold selectEdges, callSetSelection.
    rewrite setSelection_edges_only.
    pose proof (selectEdgeIds_outcome ids (unselectAll h)) as Hout.
    destruct (selectEdgeIds ids (unselectAll h)) as [c h'].
    destruct Hout as [Hsame Hc]. split.
    + intros Hall. destruct Hc as [[-> _]|(bad & -> & Hin & Hbad)]; [reflexivity|].
      destruct (Hall bad Hin) as [x Hx]. cbn [unselectAll body_edges set_accumulator record] in Hbad.
      congruence.
    + intros (id & Hin & Hnone).
      destruct Hc as [[-> Hall]|(bad & -> & Hb & Hbad)].
      * destruct (Hall id Hin) as [x Hx].
        cbn [unselectAll body_edges set_accumulator record] in Hx. congruence.
      * exists bad. cbn [fst snd]. split; [reflexivity|]. split; [assumption|].
        split; [exact Hbad|].
        eapply sameCommitted_trans; [apply unselectAll_sameCommitted|exact Hsame].
Qed.

Lemma selectNodes_selectEdges_errors_witness :
  exists bad,
    fst (selectNodes (Some ["gone"]) None oneEdgeBody)
      = Throws (ThrownError (nodeNotFound bad)) /\
    bad ∈ ["gone"] /\ body_nodes oneEdgeBody !! bad = None /\
    sameCommitted oneEdgeBody (snd (selectNodes (Some ["gone"]) None oneEdgeBody)).
Proof.
  apply (proj2 (proj1 (proj2 (proj2 (selectNodes_selectEdges_errors None oneEdgeBody)))
                  ["gone"])).
  exists "gone". split; [apply list_elem_of_singleton; reflexivity|].
  unfold oneEdgeBody; cbn [body_nodes].
  rewrite !lookup_insert_ne by discriminate. apply lookup_empty.
Defined.

(** ** updateSelection *)

Lemma set_accumulator_fixed (f : SelectionAccumulator -> SelectionAccumulator)
    (h : Handler) :
  (forall a, f a = a) -> set_accumulator f h = h.
Proof. intros Hf. unfold set_accumulator. rewrite Hf. destruct h; reflexivity. Qed.

Lemma fold_left_fixed {A B : Type} (f : A -> B -> A) (l : list B) (a : A) :
  (forall b, f a b = a) -> fold_left f l a = a.
Proof.
  intros Hf. induction l as [|b l IH]; [reflexivity|].
  cbn [fold_left]. rewrite Hf. exact IH.
Qed.

(** X27.  [updateSelection] removes nothing, however the accumulator
    deletes, as long as deleting a string from it changes nothing: its
    loops are [for ... in] loops over the arrays of selected nodes and
    edges, so they visit the indices of the arrays and not the nodes and
    edges, and what they hand to the accumulator is an index.  A selected
    node that the body no longer holds stays selected. *)
Theorem updateSelection_removes_nothing
    (accumulator_deleteNodes accumulator_deleteEdges :
       Value -> SelectionAccumulator -> SelectionAccumulator)
    (h : Handler) :
  (forall key a, accumulator_deleteNodes (StringValue key) a = a) ->
  (forall key a, accumulator_deleteEdges (StringValue key) a = a) ->
  let h' := updateSelection accumulator_deleteNodes accumulator_deleteEdges h in
  h' = h /\
  (forall id, id ∈ getSelectedNodeIds h -> body_nodes h !! id = None ->
              id ∈ getSelectedNodeIds h') /\
  (forall id, id ∈ getSelectedEdgeIds h -> body_edges h !! id = None ->
              id ∈ getSelectedEdgeIds h').
Proof.
  intros Hnodes Hedges.
  assert (H : updateSelection accumulator_deleteNodes accumulator_deleteEdges h = h).
  { unfold updateSelection.
    rewrite (fold_left_fixed _ (arrayKeys (getNodes (_selectionAccumulator h))) h).
    - apply fold_left_fixed. intros edge.
      destruct (bool_decide _); [reflexivity|].
      apply set_accumulator_fixed, Hedges.
    - intros node.
      destruct (bool_decide _); [reflexivity|].
      apply set_accumulator_fixed, Hnodes. }
  cbv zeta. rewrite H. split; [reflexivity|]. split; intros id Hid _; exact Hid.
Qed.

Lemma updateSelection_removes_nothing_witness :
  let h' := updateSelection deleteNodesValue deleteEdgesValue staleSelectionBody in
  h' = staleSelectionBody /\
  (forall id, id ∈ getSelectedNodeIds staleSelectionBody ->
              body_nodes staleSelectionBody !! id = None ->
              id ∈ getSelectedNodeIds h') /\
  (forall id, id ∈ getSelectedEdgeIds staleSelectionBody ->
              body_edges staleSelectionBody !! id = None ->
              id ∈ getSelectedEdgeIds h').
Proof.
  apply (updateSelection_removes_nothing deleteNodesValue deleteEdgesValue
           staleSelectionBody).
  - intros key a. reflexivity.
  - intros key a. reflexivity.
Defined.

End SelectionFacts.
